(** * Tally: rule parsing, rule matching and the rule cache

    A shallow embedding of [tally/merchant_engine.py] and
    [tally/rule_cache.py].  Python [str] values are modelled as [string]
    (sequences of 8-bit characters, ASCII case mapping and ASCII white
    space), [Set[str]] as [gset string], [Dict[str, _]] used as a map as
    [gmap string _], and dictionaries whose insertion order is observable
    as association lists.  The expression language lives in
    [tally/expr_parser.py]; it is taken as an interface ([ExprParser]). *)

From Stdlib Require Import ZArith NArith Ascii String Sorted.
From stdpp Require Import gmap strings list pretty.

Local Open Scope Z_scope.
Set Warnings "-clear-no-such-hyp".

(** ** Python string primitives used by the engine *)

Module PyStr.

(** [str.isspace] on one ASCII character: TAB..CR, FS..US and SPACE. *)
Definition py_isspace (c : ascii) : bool :=
  let n := N_of_ascii c in
  ((9 <=? n) && (n <=? 13) || (28 <=? n) && (n <=? 32))%N.

Definition lower_char (c : ascii) : ascii :=
  let n := N_of_ascii c in
  if ((65 <=? n) && (n <=? 90))%N then ascii_of_N (n + 32) else c.

(** [s.lower()] *)
Fixpoint str_lower (s : string) : string :=
  match s with
  | EmptyString => EmptyString
  | String c s' => String (lower_char c) (str_lower s')
  end.

(** [s.lstrip()] *)
Fixpoint str_lstrip (s : string) : string :=
  match s with
  | EmptyString => EmptyString
  | String c s' => if py_isspace c then str_lstrip s' else s
  end.

(** [s.rstrip()] *)
Fixpoint str_rstrip (s : string) : string :=
  match s with
  | EmptyString => EmptyString
  | String c s' =>
      match str_rstrip s' with
      | EmptyString => if py_isspace c then EmptyString else String c EmptyString
      | r => String c r
      end
  end.

(** [s.strip()] *)
Definition str_strip (s : string) : string := str_rstrip (str_lstrip s).

(** [bool(s)] for a string: non-empty. *)
Definition str_nonempty (s : string) : bool :=
  match s with EmptyString => false | _ => true end.

(** [s.startswith(p)] *)
Fixpoint str_startswith (s p : string) : bool :=
  match p, s with
  | EmptyString, _ => true
  | String _ _, EmptyString => false
  | String a p', String b s' => if ascii_dec a b then str_startswith s' p' else false
  end.

(** [s.endswith(p)] *)
Definition str_endswith (s p : string) : bool :=
  let n := String.length s in
  let k := String.length p in
  if (k <=? n)%nat then bool_decide (String.substring (n - k) k s = p) else false.

(** [s[1:-1]] *)
Definition str_inner (s : string) : string :=
  String.substring 1 (String.length s - 2) s.

(** [needle in s] *)
Fixpoint str_contains (s needle : string) : bool :=
  str_startswith s needle ||
  match s with
  | EmptyString => false
  | String _ s' => str_contains s' needle
  end.

(** [c in s] for a single character. *)
Fixpoint str_has_char (s : string) (c : ascii) : bool :=
  match s with
  | EmptyString => false
  | String a s' => if ascii_dec a c then true else str_has_char s' c
  end.

(** [s.count(sub)] for non-empty [sub]: occurrences are counted left to
    right without overlap; [skip] is the number of characters still
    covered by the occurrence found last. *)
Fixpoint count_from (s sub : string) (skip : nat) : nat :=
  match s with
  | EmptyString => 0
  | String _ s' =>
      match skip with
      | S k => count_from s' sub k
      | O =>
          if str_startswith s sub
          then S (count_from s' sub (String.length sub - 1))
          else count_from s' sub 0
      end
  end%nat.

Definition str_count (s sub : string) : nat :=
  match sub with
  | EmptyString => S (String.length s)
  | _ => count_from s sub 0
  end.

(** [s.split(c, 1)] when [c] occurs in [s]: the text before and after
    the first occurrence. *)
Fixpoint str_split_once (s : string) (c : ascii) : option (string * string) :=
  match s with
  | EmptyString => None
  | String a s' =>
      if ascii_dec a c then Some (EmptyString, s')
      else match str_split_once s' c with
           | Some (k, v) => Some (String a k, v)
           | None => None
           end
  end.

Definition newline : ascii := "010"%char.

(** [s.split('\n')] *)
Fixpoint str_split_lines (s : string) : list string :=
  match s with
  | EmptyString => [EmptyString]
  | String c s' =>
      if ascii_dec c newline then EmptyString :: str_split_lines s'
      else match str_split_lines s' with
           | h :: t => String c h :: t
           | [] => [String c EmptyString]
           end
  end.

(** [sep.join(l)] *)
Definition str_join (sep : string) (l : list string) : string :=
  String.concat sep l.

(** [re.findall] of the pattern: quote [q], a group of characters other
    than [q], quote [q]; summed over the lengths of the groups.
    [inside] is [Some n] while scanning a group of [n] characters so far.
    A quote that is never closed starts no match. *)
Fixpoint quoted_length (q : ascii) (s : string) (inside : option nat) : nat :=
  match s with
  | EmptyString => 0
  | String c s' =>
      if ascii_dec c q then
        match inside with
        | None => quoted_length q s' (Some 0%nat)
        | Some n => (n + quoted_length q s' None)%nat
        end
      else
        match inside with
        | None => quoted_length q s' None
        | Some n => quoted_length q s' (Some (S n))
        end
  end.

Definition is_ident_start (c : ascii) : bool :=
  let n := N_of_ascii c in
  ((65 <=? n) && (n <=? 90) || (97 <=? n) && (n <=? 122) || (n =? 95))%N.

Definition is_digit (c : ascii) : bool :=
  let n := N_of_ascii c in ((48 <=? n) && (n <=? 57))%N.

Definition is_ident_char (c : ascii) : bool := is_ident_start c || is_digit c.

(** Longest prefix of characters satisfying [p], and the rest. *)
Fixpoint span (p : ascii → bool) (s : string) : string * string :=
  match s with
  | EmptyString => (EmptyString, EmptyString)
  | String c s' =>
      if p c then let '(a, b) := span p s' in (String c a, b)
      else (EmptyString, s)
  end.

(** Last character of a string. *)
Fixpoint str_last (s : string) : option ascii :=
  match s with
  | EmptyString => None
  | String c EmptyString => Some c
  | String _ s' => str_last s'
  end.

End PyStr.
Export PyStr.


(** ** The expression language as an interface

    [tally/expr_parser.py] is used by the engine through three entry
    points.  [None] stands for a raised [ExpressionError]; [value] is the
    type of Python values an expression can evaluate to.  Transactions
    are dictionaries whose representation is left open, so the digest
    that [rule_cache.transaction_id] computes from one is part of the
    interface too. *)

Class ExprParser := {
  value : Type;
  (** [None] *)
  py_none : value;
  (** [v is None] *)
  is_none : value → bool;
  (** [bool(v)] *)
  truthy : value → bool;
  (** [Some items] when [isinstance(v, list)] *)
  as_list : value → option (list value);
  (** [str(v)] *)
  py_str : value → string;
  (** transaction dictionaries *)
  transaction : Type;
  (** the optional map of supplemental data sources *)
  data_sources : Type;
  (** [parse_expression(text)] succeeds *)
  parse_expression : string → bool;
  (** [evaluate_transaction(expr, txn, variables, data_sources)] *)
  evaluate_transaction :
    string → transaction → gmap string value → data_sources → option value;
  (** [matches_transaction(expr, txn, variables, data_sources)] *)
  matches_transaction :
    string → transaction → gmap string value → data_sources → option bool;
  (** [rule_cache.transaction_id(txn)]: SHA-256 of the date, raw
      description, amount and source of the transaction. *)
  transaction_id : transaction → string;
}.

(** ** Rule records *)

Record MerchantRule := mkMerchantRule {
  name : string;
  match_expr : string;
  category : string;
  subcategory : string;
  merchant : string;
  tags : gset string;
  priority : Z;
  line_number : nat;
  let_bindings : list (string * string);
  fields : list (string * string);
  transform : string;
}.

(** The dataclass constructor followed by [__post_init__]. *)
Definition MerchantRule_init (name match_expr category subcategory merchant : string)
    (tags : gset string) (priority : Z) (line_number : nat)
    (let_bindings fields : list (string * string)) (transform : string) : MerchantRule :=
  mkMerchantRule name match_expr category subcategory
    (if str_nonempty merchant then merchant else name)
    tags priority line_number let_bindings fields transform.

Definition is_categorization_rule (r : MerchantRule) : bool := str_nonempty (category r).
Definition has_merchant (r : MerchantRule) : bool := str_nonempty (merchant r).
Definition has_subcategory (r : MerchantRule) : bool := str_nonempty (subcategory r).

(** ** Specificity *)

Definition specificity : Type := Z * nat * nat * nat.

Definition pattern_funcs : list string :=
  ["contains("; "regex("; "normalized("; "startswith("; "fuzzy("; "anyof("]%string.

Definition field_keywords : list string :=
  ["amount"; "date"; "month"; "year"; "day"; "weekday"; "source"; "field."]%string.

Definition double_quote : ascii := "034"%char.
Definition single_quote : ascii := "039"%char.

Definition _extract_pattern_length (match_expr : string) : nat :=
  (quoted_length double_quote match_expr None
   + quoted_length single_quote match_expr None)%nat.

Definition calculate_specificity (rule : MerchantRule) : specificity :=
  let expr := str_lower (match_expr rule) in
  let pattern_count := sum_list (str_count expr <$> pattern_funcs) in
  let field_count :=
    sum_list ((λ kw, if str_contains expr kw then 1%nat else 0%nat) <$> field_keywords) in
  let pattern_length := _extract_pattern_length (match_expr rule) in
  (priority rule, pattern_count, field_count, pattern_length).

(** Python's [>] on 4-tuples: the first differing component decides. *)
Definition spec_gt (a b : specificity) : bool :=
  let '(p1, c1, f1, l1) := a in
  let '(p2, c2, f2, l2) := b in
  if negb (p1 =? p2) then p2 <? p1
  else if negb (c1 =? c2)%nat then (c2 <? c1)%nat
  else if negb (f1 =? f2)%nat then (f2 <? f1)%nat
  else (l2 <? l1)%nat.

(** [max(l, key=...)]: the running best is replaced only by a strictly
    greater key, so the first maximal element is returned. *)
Fixpoint max_from {A} (key : A → specificity) (best : A) (l : list A) : A :=
  match l with
  | [] => best
  | x :: l' => if spec_gt (key x) (key best) then max_from key x l' else max_from key best l'
  end.

Definition py_max {A} (key : A → specificity) (l : list A) : option A :=
  match l with
  | [] => None
  | x :: l' => Some (max_from key x l')
  end.

(** ** The engine *)

(** [d[k] = v] on an insertion-ordered dictionary. *)
Fixpoint dict_set (k v : string) (d : list (string * string)) : list (string * string) :=
  match d with
  | [] => [(k, v)]
  | (k', v') :: d' => if decide (k' = k) then (k, v) :: d' else (k', v') :: dict_set k v d'
  end.

Record MerchantEngine := mkEngine {
  rules : list MerchantRule;
  variables : list (string * string);
  transforms : list (string * string);
  match_mode : string;
}.

Section Engine.
Context `{EP : ExprParser}.

Record MatchResult := mkMatchResult {
  res_matched : bool;
  res_merchant : string;
  res_category : string;
  res_subcategory : string;
  res_tags : gset string;
  res_matched_rule : option MerchantRule;
  res_merchant_rule : option MerchantRule;
  res_subcategory_rule : option MerchantRule;
  res_all_matching_rules : list MerchantRule;
  res_tag_rules : list MerchantRule;
  res_extra_fields : gmap string value;
  res_tag_sources : gmap string (string * string);
  res_transform_description : string;
}.

(** [_evaluate_variables]: each file-level variable is evaluated on its
    own; no variable scope is passed to the evaluator, which is modelled
    as the empty scope. *)
Definition _evaluate_variables (vars : list (string * string))
    (txn : transaction) (ds : data_sources) : gmap string value :=
  fold_left
    (λ evaluated '(name, expr),
       match evaluate_transaction expr txn ∅ ds with
       | Some result => <[name := result]> evaluated
       | None => evaluated
       end)
    vars ∅.

Definition let_step (txn : transaction) (ds : data_sources)
    (variables : gmap string value) (binding : string * string) : gmap string value :=
  let '(var_name, expr) := binding in
  match evaluate_transaction expr txn variables ds with
  | Some result => <[var_name := result]> variables
  | None => <[var_name := py_none]> variables
  end.

Definition _evaluate_let_bindings (rule : MerchantRule) (txn : transaction)
    (base_variables : gmap string value) (ds : data_sources) : gmap string value :=
  fold_left (let_step txn ds) (let_bindings rule) base_variables.

Definition _evaluate_fields (rule : MerchantRule) (txn : transaction)
    (variables : gmap string value) (ds : data_sources) : gmap string value :=
  fold_left
    (λ evaluated '(field_name, expr),
       match evaluate_transaction expr txn variables ds with
       | Some result => <[field_name := result]> evaluated
       | None => evaluated
       end)
    (fields rule) ∅.

Definition _evaluate_transform (rule : MerchantRule) (txn : transaction)
    (variables : gmap string value) (ds : data_sources) : string :=
  match evaluate_transaction (transform rule) txn variables ds with
  | Some result => if is_none result then EmptyString else py_str result
  | None => EmptyString
  end.

(** One iteration of the loop of [_resolve_tags]: the tags that the
    entry [tag] adds to [resolved]. *)
Definition resolve_tag (txn : transaction) (variables : gmap string value)
    (ds : data_sources) (tag : string) : gset string :=
  let tag := str_strip tag in
  if negb (str_nonempty tag) then ∅
  else if str_startswith tag "{" && str_endswith tag "}" then
    let expr := str_strip (str_inner tag) in
    if negb (str_nonempty expr) then ∅
    else
      match evaluate_transaction expr txn variables ds with
      | Some result =>
          if truthy result then
            match as_list result with
            | Some items =>
                list_to_set
                  ((λ item, str_lower (str_strip (py_str item))) <$> List.filter truthy items)
            | None =>
                let stripped := str_strip (py_str result) in
                if str_nonempty stripped then {[ str_lower stripped ]} else ∅
            end
          else ∅
      | None => ∅
      end
  else {[ str_lower tag ]}.

Definition _resolve_tags (rule : MerchantRule) (txn : transaction)
    (variables : gmap string value) (ds : data_sources) : gset string :=
  ⋃ (resolve_tag txn variables ds <$> elements (tags rule)).

(** The loop [for tag in resolved_tags: if tag not in all_tags: ...]. *)
Definition claim_tags (rule : MerchantRule) (resolved : gset string)
    (acc : gset string * gmap string (string * string))
    : gset string * gmap string (string * string) :=
  set_fold
    (λ tag acc,
       if decide (tag ∈ acc.1) then acc
       else ({[ tag ]} ∪ acc.1, <[tag := (name rule, match_expr rule)]> acc.2))
    acc resolved.

(** The scope in which the match expression of [rule] is evaluated. *)
Definition rule_scope (rule : MerchantRule) (txn : transaction)
    (global_variables : gmap string value) (ds : data_sources) : gmap string value :=
  match let_bindings rule with
  | [] => global_variables
  | _ => _evaluate_let_bindings rule txn global_variables ds
  end.

Record loop_state := mkLoop {
  matching_rules : list (MerchantRule * specificity * gmap string value);
  first_category_rule : option (MerchantRule * gmap string value);
  all_tags : gset string * gmap string (string * string);
  tag_rules : list MerchantRule;
}.

(** Body of [for rule in self.rules] in [match]. *)
Definition match_step (txn : transaction) (ds : data_sources)
    (global_variables : gmap string value) (st : loop_state) (rule : MerchantRule)
    : loop_state :=
  let variables := rule_scope rule txn global_variables ds in
  match matches_transaction (match_expr rule) txn variables ds with
  | None => st
  | Some false => st
  | Some true =>
      let st1 :=
        mkLoop (matching_rules st ++ [(rule, calculate_specificity rule, variables)])
               (match first_category_rule st with
                | None => if is_categorization_rule rule then Some (rule, variables) else None
                | Some f => Some f
                end)
               (all_tags st) (tag_rules st) in
      if negb (is_categorization_rule rule) then
        mkLoop (matching_rules st1) (first_category_rule st1)
               (claim_tags rule (_resolve_tags rule txn variables ds) (all_tags st1))
               (tag_rules st1 ++ [rule])
      else st1
  end.

Definition match_loop (rules : list MerchantRule) (txn : transaction)
    (ds : data_sources) (global_variables : gmap string value) : loop_state :=
  fold_left (match_step txn ds global_variables) rules (mkLoop [] None (∅, ∅) []).

Definition dict_nonempty {A} (d : list A) : bool :=
  match d with [] => false | _ => true end.

Definition set_nonempty (s : gset string) : bool := negb (bool_decide (s = ∅)).

Definition key_of (x : MerchantRule * specificity * gmap string value) : specificity := x.1.2.

(** [MerchantEngine.match] *)
Definition engine_match (e : MerchantEngine) (txn : transaction) (ds : data_sources)
    : MatchResult :=
  let global_variables := _evaluate_variables (variables e) txn ds in
  let st := match_loop (rules e) txn ds global_variables in
  let all_matching := (λ x, x.1.1) <$> matching_rules st in
  if decide (match_mode e = "first_match") then
    match first_category_rule st with
    | Some (rule, variables) =>
        let has_tags := set_nonempty (tags rule) in
        let tg :=
          if has_tags
          then claim_tags rule (_resolve_tags rule txn variables ds) (all_tags st)
          else all_tags st in
        mkMatchResult true (merchant rule) (category rule)
          (if has_subcategory rule then subcategory rule else EmptyString)
          tg.1 (Some rule) (Some rule)
          (if has_subcategory rule then Some rule else None)
          all_matching
          (if has_tags then tag_rules st ++ [rule] else tag_rules st)
          (if dict_nonempty (fields rule) then _evaluate_fields rule txn variables ds else ∅)
          tg.2
          (if str_nonempty (transform rule)
           then _evaluate_transform rule txn variables ds else EmptyString)
    | None =>
        mkMatchResult false EmptyString EmptyString EmptyString (all_tags st).1
          None None None all_matching (tag_rules st) ∅ (all_tags st).2 EmptyString
    end
  else
    let merchant_winner :=
      py_max key_of (List.filter (λ x, has_merchant x.1.1) (matching_rules st)) in
    let category_winner :=
      py_max key_of (List.filter (λ x, is_categorization_rule x.1.1) (matching_rules st)) in
    let subcategory_winner :=
      py_max key_of (List.filter (λ x, has_subcategory x.1.1) (matching_rules st)) in
    let tg :=
      match category_winner with
      | Some winner =>
          if set_nonempty (tags winner.1.1)
          then claim_tags winner.1.1 (_resolve_tags winner.1.1 txn winner.2 ds) (all_tags st)
          else all_tags st
      | None => all_tags st
      end in
    mkMatchResult
      (bool_decide (is_Some category_winner))
      (from_option (λ w, merchant w.1.1) EmptyString merchant_winner)
      (from_option (λ w, category w.1.1) EmptyString category_winner)
      (from_option (λ w, subcategory w.1.1) EmptyString subcategory_winner)
      tg.1
      ((λ w, w.1.1) <$> category_winner)
      ((λ w, w.1.1) <$> merchant_winner)
      ((λ w, w.1.1) <$> subcategory_winner)
      all_matching
      (match category_winner with
       | Some winner =>
           if set_nonempty (tags winner.1.1) then tag_rules st ++ [winner.1.1] else tag_rules st
       | None => tag_rules st
       end)
      (match category_winner with
       | Some winner =>
           if dict_nonempty (fields winner.1.1)
           then _evaluate_fields winner.1.1 txn winner.2 ds else ∅
       | None => ∅
       end)
      tg.2
      (match category_winner with
       | Some winner =>
           if str_nonempty (transform winner.1.1)
           then _evaluate_transform winner.1.1 txn winner.2 ds else EmptyString
       | None => EmptyString
       end).

End Engine.

(** ** The rule-file parser *)

Inductive parse_error_kind :=
  | EmptyRuleName
  | InvalidLetSyntax
  | InvalidFieldSyntax
  | InvalidPriority (value : string)
  | UnknownProperty (key : string)
  | UnexpectedContent
  | MissingMatch (rule_name : string)
  | MissingCategoryOrTags (rule_name : string)
  | InvalidLetExpression (var_name rule_name : string)
  | InvalidFieldExpression (field_name rule_name : string)
  | InvalidMatchExpression (rule_name : string).

(** [MerchantParseError]: the kind stands for the message text. *)
Record MerchantParseError := mkParseError {
  err_kind : parse_error_kind;
  err_line_number : nat;
}.

Inductive result (A : Type) :=
  | Ok (a : A)
  | Err (e : MerchantParseError).
Arguments Ok {A} a.
Arguments Err {A} e.

(** The dictionary [current_rule]: [None] for an absent key. *)
Record rule_data := mkRuleData {
  rd_name : string;
  rd_match_expr : option string;
  rd_category : option string;
  rd_subcategory : option string;
  rd_merchant : option string;
  rd_transform : option string;
  rd_tags : option (gset string);
  rd_priority : option Z;
  rd_let_bindings : option (list (string * string));
  rd_fields : option (list (string * string));
}.

Definition new_rule_data (rule_name : string) : rule_data :=
  mkRuleData rule_name None None None None None None None None None.

(** The regular-expression tail: optional white space, an equals sign,
    optional white space, then a non-empty group up to the end of the
    text (text without line breaks). *)
Definition match_rest (s : string) : option string :=
  match (span py_isspace s).2 with
  | String c r2 =>
      if ascii_dec c "="%char then
        let '(w, r3) := span py_isspace r2 in
        match r3 with
        | EmptyString =>
            match str_last w with
            | Some c => Some (String c EmptyString)
            | None => None
            end
        | _ => Some r3
        end
      else None
  | EmptyString => None
  end.

(** An identifier: a letter or underscore, then letters, digits and
    underscores. *)
Definition match_ident (s : string) : option (string * string) :=
  match s with
  | String c s' =>
      if is_ident_start c
      then let '(a, b) := span is_ident_char s' in Some (String c a, b)
      else None
  | EmptyString => None
  end.

(** The pattern of [let:] and [field:] values: identifier, equals sign,
    expression. *)
Definition match_assignment (value : string) : option (string * string) :=
  match match_ident value with
  | Some (id, rest) =>
      match match_rest rest with
      | Some expr => Some (id, expr)
      | None => None
      end
  | None => None
  end.

(** The pattern of top-level assignments: the left-hand side is
    [field.<identifier>] or an identifier. *)
Definition match_toplevel (stripped : string) : option (string * string) :=
  let field_alternative :=
    if str_startswith stripped "field." then
      match match_assignment (String.substring 6 (String.length stripped - 6) stripped) with
      | Some (id, expr) => Some ("field." +:+ id, expr)
      | None => None
      end
    else None in
  match field_alternative with
  | Some r => Some r
  | None => match_assignment stripped
  end.

Definition add_tag (current : string) (tags : gset string) : gset string :=
  let tag := str_strip current in
  if str_nonempty tag then {[ tag ]} ∪ tags else tags.

(** The character loop of the [tags:] property. *)
Fixpoint parse_tags_from (value : string) (depth : Z) (current : string)
    (tags : gset string) : gset string :=
  match value with
  | EmptyString => add_tag current tags
  | String char value' =>
      if ascii_dec char "("%char then
        parse_tags_from value' (depth + 1) (current +:+ String char EmptyString) tags
      else if ascii_dec char ")"%char then
        parse_tags_from value' (depth - 1) (current +:+ String char EmptyString) tags
      else if bool_decide (char = ","%char) && (depth =? 0) then
        parse_tags_from value' depth EmptyString (add_tag current tags)
      else
        parse_tags_from value' depth (current +:+ String char EmptyString) tags
  end.

Definition parse_tags (value : string) : gset string :=
  parse_tags_from value 0 EmptyString ∅.

(** Decimal digits with single underscores between digits. *)
Fixpoint digits_value (s : string) (acc : Z) (after_digit : bool) : option Z :=
  match s with
  | EmptyString => if after_digit then Some acc else None
  | String c s' =>
      if is_digit c then digits_value s' (10 * acc + (Z.of_N (N_of_ascii c) - 48)) true
      else if ascii_dec c "_"%char then
        if after_digit then digits_value s' acc false else None
      else None
  end.

(** [int(s)]; [None] for [ValueError]. *)
Definition py_int (s : string) : option Z :=
  match str_strip s with
  | String c s' =>
      if ascii_dec c "-"%char then Z.opp <$> digits_value s' 0 false
      else if ascii_dec c "+"%char then digits_value s' 0 false
      else digits_value (String c s') 0 false
  | EmptyString => None
  end.

(** The branch [key: value] of [parse] for the current rule. *)
Definition set_property (rd : rule_data) (key value : string) (line_num : nat)
    : result rule_data :=
  let key := str_lower (str_strip key) in
  let value := str_strip value in
  let '(mkRuleData n m c s me t tg p l f) := rd in
  if decide (key = "let") then
    match match_assignment value with
    | None => Err (mkParseError InvalidLetSyntax line_num)
    | Some (var_name, expr) =>
        Ok (mkRuleData n m c s me t tg p
              (Some (default [] l ++ [(str_lower var_name, expr)])) f)
    end
  else if decide (key = "field") then
    match match_assignment value with
    | None => Err (mkParseError InvalidFieldSyntax line_num)
    | Some (field_name, expr) =>
        Ok (mkRuleData n m c s me t tg p l
              (Some (dict_set (str_lower field_name) expr (default [] f))))
    end
  else if decide (key = "match") then Ok (mkRuleData n (Some value) c s me t tg p l f)
  else if decide (key = "category") then Ok (mkRuleData n m (Some value) s me t tg p l f)
  else if decide (key = "subcategory") then Ok (mkRuleData n m c (Some value) me t tg p l f)
  else if decide (key = "merchant") then Ok (mkRuleData n m c s (Some value) t tg p l f)
  else if decide (key = "transform") then Ok (mkRuleData n m c s me (Some value) tg p l f)
  else if decide (key = "tags") then
    Ok (mkRuleData n m c s me t (Some (parse_tags value)) p l f)
  else if decide (key = "priority") then
    match py_int value with
    | Some i => Ok (mkRuleData n m c s me t tg (Some i) l f)
    | None => Err (mkParseError (InvalidPriority value) line_num)
    end
  else Err (mkParseError (UnknownProperty key) line_num).

(** [not stripped or stripped.startswith('#')] *)
Definition is_blank_or_comment (stripped : string) : bool :=
  negb (str_nonempty stripped) || str_startswith stripped "#".

(** [stripped.startswith('[') and stripped.endswith(']')] *)
Definition is_header (stripped : string) : bool :=
  str_startswith stripped "[" && str_endswith stripped "]".

(** The parser's local variables together with the engine attributes it
    fills. *)
Record parse_state := mkParse {
  p_rules : list MerchantRule;
  p_variables : list (string * string);
  p_transforms : list (string * string);
  current_rule : option rule_data;
  rule_start_line : nat;
}.

Section Parser.
Context `{EP : ExprParser}.

(** [_add_rule]: the rule appended to [self.rules], or the error raised. *)
Definition _add_rule (rd : rule_data) (line_number : nat) : result MerchantRule :=
  match rd_match_expr rd with
  | None => Err (mkParseError (MissingMatch (rd_name rd)) line_number)
  | Some m =>
      let has_category := from_option str_nonempty false (rd_category rd) in
      let has_tags := from_option set_nonempty false (rd_tags rd) in
      if negb has_category && negb has_tags then
        Err (mkParseError (MissingCategoryOrTags (rd_name rd)) line_number)
      else
        let let_bindings := default [] (rd_let_bindings rd) in
        match List.find (λ b, negb (parse_expression b.2)) let_bindings with
        | Some (var_name, _) =>
            Err (mkParseError (InvalidLetExpression var_name (rd_name rd)) line_number)
        | None =>
            let fields := default [] (rd_fields rd) in
            match List.find (λ b, negb (parse_expression b.2)) fields with
            | Some (field_name, _) =>
                Err (mkParseError (InvalidFieldExpression field_name (rd_name rd)) line_number)
            | None =>
                if negb (parse_expression m) then
                  Err (mkParseError (InvalidMatchExpression (rd_name rd)) line_number)
                else
                  Ok (MerchantRule_init (rd_name rd) m
                        (default EmptyString (rd_category rd))
                        (default EmptyString (rd_subcategory rd))
                        (default EmptyString (rd_merchant rd))
                        (default ∅ (rd_tags rd))
                        (default 50 (rd_priority rd))
                        line_number let_bindings fields
                        (default EmptyString (rd_transform rd)))
            end
        end
  end.

(** [if current_rule: self._add_rule(current_rule, rule_start_line)] *)
Definition save_current (st : parse_state) : parse_state * option MerchantParseError :=
  match current_rule st with
  | None => (st, None)
  | Some rd =>
      match _add_rule rd (rule_start_line st) with
      | Ok rule =>
          (mkParse (p_rules st ++ [rule]) (p_variables st) (p_transforms st)
                   (current_rule st) (rule_start_line st), None)
      | Err e => (st, Some e)
      end
  end.

(** One iteration of [for line_num, line in enumerate(lines, 1)]: the
    state after the iteration and the exception it raised, if any. *)
Definition parse_line (st : parse_state) (line_num : nat) (line : string)
    : parse_state * option MerchantParseError :=
  let stripped := str_strip line in
  if is_blank_or_comment stripped then (st, None)
  else if is_header stripped then
    match save_current st with
    | (st1, Some e) => (st1, Some e)
    | (st1, None) =>
        let rule_name := str_strip (str_inner stripped) in
        if negb (str_nonempty rule_name)
        then (st1, Some (mkParseError EmptyRuleName line_num))
        else (mkParse (p_rules st1) (p_variables st1) (p_transforms st1)
                      (Some (new_rule_data rule_name)) line_num, None)
    end
  else
    match (if str_has_char stripped "="%char && negb (bool_decide (is_Some (current_rule st)))
           then match_toplevel stripped else None) with
    | Some (lhs, rhs) =>
        if str_startswith lhs "field." then
          (mkParse (p_rules st) (p_variables st) (p_transforms st ++ [(lhs, rhs)])
                   (current_rule st) (rule_start_line st), None)
        else
          (mkParse (p_rules st) (dict_set (str_lower lhs) rhs (p_variables st))
                   (p_transforms st) (current_rule st) (rule_start_line st), None)
    | None =>
        match current_rule st with
        | None => (st, None)
        | Some rd =>
            match str_split_once stripped ":"%char with
            | Some (key, value) =>
                match set_property rd key value line_num with
                | Ok rd' =>
                    (mkParse (p_rules st) (p_variables st) (p_transforms st)
                             (Some rd') (rule_start_line st), None)
                | Err e => (st, Some e)
                end
            | None => (st, Some (mkParseError UnexpectedContent line_num))
            end
        end
    end.

Fixpoint parse_lines (st : parse_state) (line_num : nat) (lines : list string)
    : parse_state * option MerchantParseError :=
  match lines with
  | [] => (st, None)
  | line :: rest =>
      match parse_line st line_num line with
      | (st', None) => parse_lines st' (S line_num) rest
      | (st', Some e) => (st', Some e)
      end
  end.

Definition engine_of (mode : string) (st : parse_state) : MerchantEngine :=
  mkEngine (p_rules st) (p_variables st) (p_transforms st) mode.

(** [MerchantEngine.parse]: the engine after the call and the exception
    it raised, if any.  The attributes are reset first, so the result
    depends on the previous engine only through [match_mode]. *)
Definition parse (e : MerchantEngine) (content : string)
    : MerchantEngine * option MerchantParseError :=
  match parse_lines (mkParse [] [] [] None 0) 1 (str_split_lines content) with
  | (st, Some err) => (engine_of (match_mode e) st, Some err)
  | (st, None) =>
      let '(st', err) := save_current st in
      (engine_of (match_mode e) st', err)
  end.

(** [parse_merchants]: the engine is local to the function, so a raised
    error leaves nothing behind. *)
Definition parse_merchants (content : string) (match_mode : string) : result MerchantEngine :=
  match parse (mkEngine [] [] [] match_mode) content with
  | (engine, None) => Ok engine
  | (_, Some err) => Err err
  end.

(** [load_file]: [text] is what [filepath.read_text(encoding='utf-8')]
    has returned. *)
Definition load_file (e : MerchantEngine) (text : string)
    : MerchantEngine * option MerchantParseError :=
  parse e text.

(** [load_merchants_file], for a file that holds [text]: as in
    [parse_merchants] the engine is local to the function. *)
Definition load_merchants_file (text : string) (match_mode : string)
    : result MerchantEngine :=
  match load_file (mkEngine [] [] [] match_mode) text with
  | (engine, None) => Ok engine
  | (_, Some err) => Err err
  end.

End Parser.

(** ** The rule cache

    The SQLite tables are modelled as lists of rows.  A JSON column holds
    the value that [json.loads] gives back.  [rule_id_map] is keyed by the
    identity of the rule objects of [engine.rules]; the object at
    position [i] of that list gets row id [i + 1], the first row id
    SQLite assigns in an emptied table. *)

Record CachedRule := mkCachedRule {
  c_name : string;
  c_match_expr : string;
  c_category : string;
  c_subcategory : string;
  c_merchant : string;
  c_tags : list string;
  c_priority : Z;
  c_position : nat;
  c_source_line : nat;
  c_is_complex : bool;
  c_let_bindings : list (string * string);
  c_fields : list (string * string);
}.

Record rule_row := mkRuleRow {
  row_id : nat;
  row_name : string;
  row_match_expr : string;
  row_category : string;
  row_subcategory : string;
  row_merchant : string;
  row_tags : list string;
  row_priority : Z;
  row_position : nat;
  row_source_line : nat;
  row_is_complex : bool;
  row_let_bindings : list (string * string);
  row_fields : list (string * string);
}.

Record match_row := mkMatchRow {
  m_rule_id : nat;
  m_txn_id : string;
  m_match_type : string;
}.

(** [sorted(l)] on strings. *)
Fixpoint insert_sorted (x : string) (l : list string) : list string :=
  match l with
  | [] => [x]
  | y :: l' => if String.leb x y then x :: l else y :: insert_sorted x l'
  end.

Definition py_sorted (l : list string) : list string := foldr insert_sorted [] l.

(** [ORDER BY position] *)
Fixpoint insert_row (r : rule_row) (l : list rule_row) : list rule_row :=
  match l with
  | [] => [r]
  | y :: l' =>
      if (row_position r <? row_position y)%nat then r :: l else y :: insert_row r l'
  end.

Definition order_by_position (l : list rule_row) : list rule_row := foldr insert_row [] l.

Definition nl : string := String newline EmptyString.

Definition _row_to_rule (row : rule_row) : CachedRule :=
  mkCachedRule (row_name row) (row_match_expr row) (row_category row) (row_subcategory row)
    (if str_nonempty (row_merchant row) then row_merchant row else row_name row)
    (row_tags row)
    (if row_priority row =? 0 then 50 else row_priority row)
    (row_position row) (row_source_line row) (row_is_complex row)
    (row_let_bindings row) (row_fields row).

Definition _format_cached_rule (rule : CachedRule) : string :=
  str_join nl
    (["[" +:+ c_name rule +:+ "]"]
     ++ (if negb (c_priority rule =? 50) then ["priority: " +:+ pretty (c_priority rule)] else [])
     ++ ((λ b, "let: " +:+ b.1 +:+ " = " +:+ b.2) <$> c_let_bindings rule)
     ++ ["match: " +:+ c_match_expr rule]
     ++ (if str_nonempty (c_merchant rule) && negb (bool_decide (c_merchant rule = c_name rule))
         then ["merchant: " +:+ c_merchant rule] else [])
     ++ (if str_nonempty (c_category rule) then ["category: " +:+ c_category rule] else [])
     ++ (if str_nonempty (c_subcategory rule)
         then ["subcategory: " +:+ c_subcategory rule] else [])
     ++ ((λ b, "field: " +:+ b.1 +:+ " = " +:+ b.2) <$> c_fields rule)
     ++ (if dict_nonempty (c_tags rule)
         then ["tags: " +:+ str_join ", " (py_sorted (c_tags rule))] else [])).

Section Cache.
Context `{EP : ExprParser}.

Record cache_db := mkCache {
  db_rules : list rule_row;
  db_transactions : gmap string transaction;
  db_matches : list match_row;
  db_preamble : option (list string);
  db_meta : gmap string string;
}.

(** The row that [_insert_rules] writes for the rule at [position]. *)
Definition rule_row_of (position : nat) (rule : MerchantRule) : rule_row :=
  mkRuleRow (S position) (name rule) (match_expr rule) (category rule)
    (subcategory rule) (merchant rule) (py_sorted (elements (tags rule)))
    (priority rule) position (line_number rule)
    (dict_nonempty (let_bindings rule) || dict_nonempty (fields rule))
    (let_bindings rule) (fields rule).

(** [_insert_rules] into the emptied table. *)
Definition _insert_rules (rules : list MerchantRule) : list rule_row :=
  imap rule_row_of rules.

(** [_insert_transactions]: [INSERT OR REPLACE] on the primary key. *)
Definition _insert_transactions (transactions : list transaction) : gmap string transaction :=
  fold_left (λ tbl txn, <[transaction_id txn := txn]> tbl) transactions ∅.

(** The test [if matches:] of the loop of [match] for [rule]: its match
    expression is evaluated in its scope, and an [ExpressionError] skips
    the rule. *)
Definition matches_in (txn : transaction) (ds : data_sources)
    (global_variables : gmap string value) (rule : MerchantRule) : bool :=
  match matches_transaction (match_expr rule) txn
          (rule_scope rule txn global_variables ds) ds with
  | Some true => true
  | _ => false
  end.

Definition rule_matches (e : MerchantEngine) (txn : transaction) (ds : data_sources)
    (rule : MerchantRule) : bool :=
  matches_in txn ds (_evaluate_variables (variables e) txn ds) rule.

(** The rows that [_insert_matches] collects for one transaction: one per
    rule object of [result.all_matching_rules]. *)
Definition match_rows_of (e : MerchantEngine) (txn : transaction) (ds : data_sources)
    : list match_row :=
  omap id
    (imap
       (λ position rule,
          if rule_matches e txn ds rule
          then Some (mkMatchRow (S position) (transaction_id txn)
                       (if is_categorization_rule rule then "category" else "tag_only"))
          else None)
       (rules e)).

(** [INSERT OR IGNORE] on the primary key [(rule_id, txn_id)]. *)
Definition insert_or_ignore (tbl : list match_row) (r : match_row) : list match_row :=
  if existsb (λ x, bool_decide (m_rule_id x = m_rule_id r ∧ m_txn_id x = m_txn_id r)) tbl
  then tbl else tbl ++ [r].

Definition _insert_matches (e : MerchantEngine) (transactions : list transaction)
    (ds : data_sources) : list match_row :=
  fold_left insert_or_ignore (concat ((λ txn, match_rows_of e txn ds) <$> transactions)) [].

Definition _store_preamble (e : MerchantEngine) : list string :=
  ((λ b, b.1 +:+ " = " +:+ b.2) <$> variables e)
  ++ ((λ b, b.1 +:+ " = " +:+ b.2) <$> transforms e).

(** [rebuild]; the three hashes and the time stamp are given. *)
Definition rebuild (rules_hash data_hash now : string) (e : MerchantEngine)
    (transactions : list transaction) (ds : data_sources) : cache_db :=
  mkCache (_insert_rules (rules e)) (_insert_transactions transactions)
    (_insert_matches e transactions ds) (Some (_store_preamble e))
    (<["last_computed" := now]>
       (<["data_files_hash" := data_hash]> (<["rules_file_hash" := rules_hash]> ∅))).

Definition get_rules (db : cache_db) : list CachedRule :=
  _row_to_rule <$> order_by_position (db_rules db).

(** [COUNT(matches.txn_id)] of the group of one rule row in the left join. *)
Definition match_count (db : cache_db) (row : rule_row) : nat :=
  length (List.filter (λ m, bool_decide (m_rule_id m = row_id row)) (db_matches db)).

(** [get_match_counts]: the dictionary comprehension over the grouped
    rows, in position order; a later row replaces an equal name. *)
Definition get_match_counts (db : cache_db) : gmap string nat :=
  fold_left (λ d row, <[row_name row := match_count db row]> d)
    (order_by_position (db_rules db)) ∅.

(** [get_unused_rules]: the rule rows that the left join pairs with no
    match row. *)
Definition get_unused_rules (db : cache_db) : list CachedRule :=
  _row_to_rule <$>
    order_by_position
      (List.filter
         (λ row, negb (existsb (λ m, bool_decide (m_rule_id m = row_id row)) (db_matches db)))
         (db_rules db)).

(** [regenerate_rules_file]: the text written to the rules file. *)
Definition regenerate_rules_file (db : cache_db) : string :=
  let preamble_lines := default [] (db_preamble db) in
  let sections :=
    (if dict_nonempty preamble_lines then [str_join nl preamble_lines] else [])
    ++ (_format_cached_rule <$> get_rules db) in
  str_rstrip (str_join (nl +:+ nl) sections) +:+ nl.

End Cache.

(** ** A concrete expression fragment for the scenarios *)

Module Scenario.

Inductive atom :=
  | ANone
  | ABool (b : bool)
  | AInt (z : Z)
  | AStr (s : string).

Inductive pyval :=
  | Atom (a : atom)
  | VList (items : list atom).

Definition atom_truthy (a : atom) : bool :=
  match a with
  | ANone => false
  | ABool b => b
  | AInt z => negb (z =? 0)
  | AStr s => str_nonempty s
  end.

Definition atom_str (a : atom) : string :=
  match a with
  | ANone => "None"
  | ABool true => "True"
  | ABool false => "False"
  | AInt z => pretty z
  | AStr s => s
  end.

(** [repr] of a list element; strings are taken to need no escaping. *)
Definition atom_repr (a : atom) : string :=
  match a with
  | AStr s => "'" +:+ s +:+ "'"
  | _ => atom_str a
  end.

Record txn := mkTxn {
  description : string;
  amount : Z;
  year : Z;
  month : Z;
  day : Z;
  source : string;
}.

(** Modelled from the spec: the evaluator of [tally/expr_parser.py],
    which is not part of the sources at hand, restricted to the
    expressions of the scenarios: the literals [true] and [false],
    double-quoted string literals, the two comparisons [amount > 500] and
    [month == 12] on transaction fields, the cross-source query
    [[r.tag for r in labels]] over the rows of the data source [labels],
    and a name bound in the variable scope.  Every other text raises
    [ExpressionError]. *)
Definition eval (expr : string) (t : txn) (variables : gmap string pyval)
    (ds : gmap string (list string)) : option pyval :=
  if decide (expr = "true") then Some (Atom (ABool true))
  else if decide (expr = "false") then Some (Atom (ABool false))
  else if decide (expr = "amount > 500") then Some (Atom (ABool (500 <? amount t)))
  else if decide (expr = "month == 12") then Some (Atom (ABool (month t =? 12)))
  else if decide (expr = "[r.tag for r in labels]") then
    match ds !! "labels" with
    | Some rows => Some (VList (AStr <$> rows))
    | None => None
    end
  else if str_startswith expr (String double_quote EmptyString)
          && str_endswith expr (String double_quote EmptyString)
          && (2 <=? String.length expr)%nat
          && negb (str_has_char (str_inner expr) double_quote)
  then Some (Atom (AStr (str_inner expr)))
  else variables !! expr.

(** Modelled from the spec: [parse_expression] accepts the texts of the
    fragment, identifiers included. *)
Definition parses (expr : string) : bool :=
  bool_decide (expr ∈ ["true"; "false"; "amount > 500"; "month == 12";
                       "[r.tag for r in labels]"])
  || (str_startswith expr (String double_quote EmptyString)
      && str_endswith expr (String double_quote EmptyString)
      && (2 <=? String.length expr)%nat
      && negb (str_has_char (str_inner expr) double_quote))
  || match match_ident expr with
     | Some (_, EmptyString) => true
     | _ => false
     end.

Definition val_truthy (v : pyval) : bool :=
  match v with
  | Atom a => atom_truthy a
  | VList l => dict_nonempty l
  end.

Definition val_str (v : pyval) : string :=
  match v with
  | Atom a => atom_str a
  | VList l => "[" +:+ str_join ", " (atom_repr <$> l) +:+ "]"
  end.

(** The text that [transaction_id] hashes stands for its digest. *)
Definition txn_payload (t : txn) : string :=
  pretty (year t) +:+ "-" +:+ pretty (month t) +:+ "-" +:+ pretty (day t)
  +:+ "|" +:+ description t +:+ "|" +:+ pretty (amount t) +:+ "|" +:+ source t.

#[export] Instance fragment : ExprParser := {|
  value := pyval;
  py_none := Atom ANone;
  is_none := λ v, match v with Atom ANone => true | _ => false end;
  truthy := val_truthy;
  as_list := λ v, match v with VList l => Some (Atom <$> l) | _ => None end;
  py_str := val_str;
  transaction := txn;
  data_sources := gmap string (list string);
  parse_expression := parses;
  evaluate_transaction := eval;
  matches_transaction := λ expr t variables ds, val_truthy <$> eval expr t variables ds;
  transaction_id := txn_payload;
|}.

(** The rule file of the tagging scenario. *)
Definition tag_rules_text : string :=
  "[Large]" +:+ nl +:+ "match: amount > 500" +:+ nl +:+ "tags: large" +:+ nl
  +:+ nl +:+ "[Holiday]" +:+ nl +:+ "match: month == 12" +:+ nl +:+ "tags: holiday" +:+ nl.

Definition christmas : txn := mkTxn "UNKNOWN MERCHANT" 750 2025 12 25 EmptyString.

Definition boxing_day : txn := mkTxn "CORNER SHOP" 20 2025 12 26 EmptyString.

(** The rules that [parse] builds from [tag_rules_text]. *)
Definition large_rule : MerchantRule :=
  mkMerchantRule "Large" "amount > 500" EmptyString EmptyString "Large"
    {[ "large" ]} 50 1 [] [] EmptyString.

Definition holiday_rule : MerchantRule :=
  mkMerchantRule "Holiday" "month == 12" EmptyString EmptyString "Holiday"
    {[ "holiday" ]} 50 5 [] [] EmptyString.

Definition tag_engine (mode : string) : MerchantEngine :=
  mkEngine [large_rule; holiday_rule] [] [] mode.

(** Two rules that both match every transaction and both declare a
    category; the second has the greater priority. *)
Definition overlap_text : string :=
  str_join nl
    ["[A]"; "match: true"; "category: X"; "tags: a"; EmptyString;
     "[B]"; "match: true"; "category: Y"; "priority: 100"; "tags: b"].

Definition rule_a : MerchantRule :=
  mkMerchantRule "A" "true" "X" EmptyString "A" {[ "a" ]} 50 1 [] [] EmptyString.

Definition rule_b : MerchantRule :=
  mkMerchantRule "B" "true" "Y" EmptyString "B" {[ "b" ]} 100 6 [] [] EmptyString.

Definition overlap_engine (mode : string) : MerchantEngine :=
  mkEngine [rule_a; rule_b] [] [] mode.

(** One rule with a category and one tag-only rule. *)
Definition general_rule : MerchantRule :=
  mkMerchantRule "General" "true" "Shopping" EmptyString "General"
    {[ "retail" ]} 50 1 [] [] EmptyString.

Definition shop_engine (mode : string) : MerchantEngine :=
  mkEngine [general_rule; large_rule] [] [] mode.

(** A complete rule followed by a header with an empty name. *)
Definition partial_text : string :=
  str_join nl ["[A]"; "match: true"; "category: X"; "[]"].

(** A rule with a property that the parser does not know. *)
Definition unknown_key_text : string :=
  str_join nl ["[A]"; "match: true"; "category: X"; "colour: red"].

(** A rule with a [let:] that has no expression. *)
Definition bad_let_text : string :=
  str_join nl ["[A]"; "let: total"; "match: true"; "category: X"].

(** Rules without [match:], and without both [category:] and [tags:]. *)
Definition no_match_text : string := str_join nl ["[A]"; "category: X"].

Definition no_category_text : string := str_join nl ["[A]"; "match: true"].

(** A rule with priority 0 before a rule with priority 10. *)
Definition priority_zero_text : string :=
  str_join nl
    ["[A]"; "match: true"; "category: X"; "priority: 0"; EmptyString;
     "[B]"; "match: true"; "category: Y"; "priority: 10"].

(** A rule with a [transform:] directive, a quoted string literal. *)
Definition transform_text : string :=
  str_join nl
    ["[A]"; "match: true"; "category: X";
     "transform: " +:+ String double_quote "Hello" +:+ String double_quote EmptyString].

(** The engine that [parse] leaves behind, whether or not it raised. *)
Definition parsed (content mode : string) : MerchantEngine :=
  (parse (mkEngine [] [] [] mode) content).1.

(** [rebuild] of the cache from a parsed rule file, [regenerate_rules_file],
    and the engine parsed from the regenerated text. *)
Definition regenerated (content mode : string) : string :=
  regenerate_rules_file
    (rebuild EmptyString EmptyString EmptyString (parsed content mode) [christmas] ∅).

Definition reparsed (content mode : string) : MerchantEngine :=
  parsed (regenerated content mode) mode.

(** A tag-only rule whose dynamic tag is a cross-source query. *)
Definition label_rule : MerchantRule :=
  mkMerchantRule "Labels" "true" EmptyString EmptyString "Labels"
    {[ "{[r.tag for r in labels]}" ]} 50 1 [] [] EmptyString.

Definition label_engine (mode : string) : MerchantEngine :=
  mkEngine [label_rule] [] [] mode.

(** A data source with a label that consists of one space. *)
Definition blank_labels : gmap string (list string) :=
  {[ "labels" := [" "; "Food "] ]}.

(** A rule whose first let-binding names nothing that is bound. *)
Definition let_rule : MerchantRule :=
  mkMerchantRule "Lets" "ok" "X" EmptyString "Lets" ∅ 50 1
    [("missing", "undefined_name"); ("ok", "true")] [] EmptyString.

Definition let_engine : MerchantEngine := mkEngine [let_rule] [] [] "first_match".

(** Two rules of one name; only the first matches. *)
Definition dup_first : MerchantRule :=
  mkMerchantRule "Dup" "true" "X" EmptyString "Dup" ∅ 50 1 [] [] EmptyString.

Definition dup_second : MerchantRule :=
  mkMerchantRule "Dup" "false" "Y" EmptyString "Dup" ∅ 50 5 [] [] EmptyString.

Definition dup_text : string :=
  str_join nl
    ["[Dup]"; "match: true"; "category: X"; EmptyString;
     "[Dup]"; "match: false"; "category: Y"].

Definition dup_engine : MerchantEngine :=
  mkEngine [dup_first; dup_second] [] [] "first_match".

(** A rule built with an empty name and no merchant, as
    [csv_rule_to_merchant_rule] does for a row whose merchant column is
    empty. *)
Definition nameless_rule : MerchantRule :=
  MerchantRule_init EmptyString "true" "X" EmptyString EmptyString ∅ 50 0 [] []
    EmptyString.

Definition nameless_engine : MerchantEngine :=
  mkEngine [nameless_rule] [] [] "most_specific".

(** A [key: value] line before the first rule block. *)
Definition stray_text : string :=
  str_join nl ["colour: red"; "[A]"; "match: true"; "category: X"].

(** A rule whose category is given and then emptied, and whose [tags:]
    line holds no tag. *)
Definition empty_category_text : string :=
  str_join nl ["[A]"; "match: true"; "category: X"; "category:"; "tags: ,"].

End Scenario.

(** ** Notions used to state the properties *)


(** The lexicographic order on specificity keys. *)
Definition spec_lt (a b : specificity) : Prop :=
  a.1.1.1 < b.1.1.1
  ∨ a.1.1.1 = b.1.1.1
    ∧ ((a.1.1.2 < b.1.1.2)%nat
       ∨ a.1.1.2 = b.1.1.2
         ∧ ((a.1.2 < b.1.2)%nat ∨ a.1.2 = b.1.2 ∧ (a.2 < b.2)%nat)).

(** A string that [strip] and [lower] leave unchanged. *)
Definition normalized_tag (s : string) : Prop :=
  s ≠ EmptyString ∧ str_strip s = s ∧ str_lower s = s.

(** A line that opens a rule block. *)
Definition header_line (line : string) : Prop :=
  is_header (str_strip line) = true.

(** A header line whose name is empty. *)
Definition empty_header (line : string) : Prop :=
  is_header (str_strip line) = true
  ∧ str_nonempty (str_strip (str_inner (str_strip line))) = false.

(** A line of the form [key: value] that is neither blank, a comment nor
    a header; [key] and [value] as the parser normalises them. *)
Definition property_line (line key value : string) : Prop :=
  is_blank_or_comment (str_strip line) = false
  ∧ is_header (str_strip line) = false
  ∧ ∃ k v, str_split_once (str_strip line) ":"%char = Some (k, v)
           ∧ key = str_lower (str_strip k) ∧ value = str_strip v.

(** The key and the value of a property line, as the parser normalises
    them; [None] for a line that is no property line. *)
Definition property_of (line : string) : option (string * string) :=
  let stripped := str_strip line in
  if is_blank_or_comment stripped || is_header stripped then None
  else
    match str_split_once stripped ":"%char with
    | Some (k, v) => Some (str_lower (str_strip k), str_strip v)
    | None => None
    end.

(** The value that the key [key] has after [line], when it had [acc]
    before: a property line with this key replaces it. *)
Definition declare (key : string) (acc : option string) (line : string) : option string :=
  match property_of line with
  | Some (k, v) => if decide (k = key) then Some v else acc
  | None => acc
  end.

(** The value of the last property line of [lines] with the key [key];
    [None] when there is none. *)
Definition declared (key : string) (lines : list string) : option string :=
  fold_left (declare key) lines None.

(** A block with the lines [body] has no category and no tag for
    [_add_rule]: it has no [category:] line or the last one has an empty
    value, and it has no [tags:] line or the last one holds no tag. *)
Definition lacks_category_and_tags (body : list string) : Prop :=
  from_option str_nonempty false (declared "category" body) = false
  ∧ from_option (λ value, set_nonempty (parse_tags value)) false (declared "tags" body)
    = false.

Definition known_keys : list string :=
  ["let"; "field"; "match"; "category"; "subcategory"; "merchant"; "transform";
   "tags"; "priority"]%string.

(** The defects of a single line inside a rule block, with the error each
    one raises. *)
Inductive line_defect : string → string → parse_error_kind → Prop :=
  | unknown_key key value :
      key ∉ known_keys → line_defect key value (UnknownProperty key)
  | malformed_let value :
      match_assignment value = None → line_defect "let" value InvalidLetSyntax
  | malformed_field value :
      match_assignment value = None → line_defect "field" value InvalidFieldSyntax.

(** The line number of the open rule block lies before line [n]. *)
Definition line_numbers_ok (st : parse_state) (n : nat) : Prop :=
  is_Some (current_rule st) → (1 ≤ rule_start_line st < n)%nat.

(** Rule names are non-empty and every stored rule has a merchant. *)
Definition names_ok (st : parse_state) : Prop :=
  (∀ rd, current_rule st = Some rd → rd_name rd ≠ EmptyString)
  ∧ (∀ r, r ∈ p_rules st → has_merchant r = true).

(** The state in which [parse] starts. *)
Definition initial_state : parse_state := mkParse [] [] [] None 0.

Section Notions.
Context `{EP : ExprParser}.

(** The resolved tags of [rule] in its own scope. *)
Definition tags_of_rule (txn : transaction) (ds : data_sources)
    (global_variables : gmap string value) (rule : MerchantRule) : gset string :=
  _resolve_tags rule txn (rule_scope rule txn global_variables ds) ds.

(** The union of the resolved tags of the matching tag-only rules. *)
Definition tag_only_union (txn : transaction) (ds : data_sources)
    (global_variables : gmap string value) (rules : list MerchantRule) : gset string :=
  ⋃ (tags_of_rule txn ds global_variables <$>
       List.filter
         (λ r, matches_in txn ds global_variables r && negb (is_categorization_rule r))
         rules).

(** The entry that the loop of [match] appends to [matching_rules]. *)
Definition entry_of (txn : transaction) (ds : data_sources)
    (global_variables : gmap string value) (rule : MerchantRule)
    : MerchantRule * specificity * gmap string value :=
  (rule, calculate_specificity rule, rule_scope rule txn global_variables ds).

Definition globals_of (e : MerchantEngine) (txn : transaction) (ds : data_sources)
    : gmap string value :=
  _evaluate_variables (variables e) txn ds.

(** The matching rules of an engine, and those that declare a category. *)
Definition matching_of (e : MerchantEngine) (txn : transaction) (ds : data_sources)
    : list MerchantRule :=
  List.filter (rule_matches e txn ds) (rules e).

Definition matching_category_rules (e : MerchantEngine) (txn : transaction)
    (ds : data_sources) : list MerchantRule :=
  List.filter is_categorization_rule (matching_of e txn ds).

(** The same engine with another rule list. *)
Definition with_rules (e : MerchantEngine) (rules' : list MerchantRule) : MerchantEngine :=
  mkEngine rules' (variables e) (transforms e) (match_mode e).

(** The same engine in another mode. *)
Definition with_mode (e : MerchantEngine) (mode : string) : MerchantEngine :=
  mkEngine (rules e) (variables e) (transforms e) mode.

(** [w] is the first element of [l] with a maximal key. *)
Definition first_maximal (w : MerchantRule) (l : list MerchantRule) : Prop :=
  ∃ pre post,
    l = pre ++ w :: post
    ∧ (∀ x, x ∈ pre → spec_lt (calculate_specificity x) (calculate_specificity w))
    ∧ (∀ x, x ∈ post → ¬ spec_lt (calculate_specificity w) (calculate_specificity x)).

End Notions.

Section CacheNotions.
Context `{EP : ExprParser}.

(** The cached rule for the rule at [position] of the rule file. *)
Definition cached_rule_of (position : nat) (rule : MerchantRule) : CachedRule :=
  _row_to_rule (rule_row_of position rule).

(** The ids of the transactions of the batch that [rule] matches. *)
Definition matched_ids (e : MerchantEngine) (transactions : list transaction)
    (ds : data_sources) (rule : MerchantRule) : gset string :=
  list_to_set (transaction_id <$> List.filter (λ t, rule_matches e t ds rule) transactions).

(** The primary key of a row of the [matches] table. *)
Definition match_key (m : match_row) : nat * string := (m_rule_id m, m_txn_id m).

End CacheNotions.

(** ** More of the engine and of the cache *)

(** [MerchantEngine.categorization_rules] and [tag_only_rules]. *)
Definition categorization_rules (e : MerchantEngine) : list MerchantRule :=
  List.filter is_categorization_rule (rules e).

Definition tag_only_rules (e : MerchantEngine) : list MerchantRule :=
  List.filter (λ r, negb (is_categorization_rule r)) (rules e).

(** The operator [LIKE] of SQLite on text: [%] stands for any run of
    characters, [_] for one character, and any other character for itself
    up to the case of ASCII letters. *)
Fixpoint sql_like (pattern : string) : string → bool :=
  match pattern with
  | EmptyString => λ s, negb (str_nonempty s)
  | String c pattern' =>
      if ascii_dec c "%"%char then
        fix any (s : string) : bool :=
          sql_like pattern' s
          || match s with
             | EmptyString => false
             | String _ s' => any s'
             end
      else if ascii_dec c "_"%char then
        λ s, match s with
             | EmptyString => false
             | String _ s' => sql_like pattern' s'
             end
      else
        λ s, match s with
             | EmptyString => false
             | String d s' => bool_decide (lower_char c = lower_char d) && sql_like pattern' s'
             end
  end.

(** A pattern without wild cards. *)
Definition literal (p : string) : Prop :=
  str_has_char p "%" = false ∧ str_has_char p "_" = false.

(** [x or y] on strings. *)
Definition str_or (x y : string) : string := if str_nonempty x then x else y.

Section CacheUpdates.
Context `{EP : ExprParser}.

(** The table [rules] replaced by [rows]; the other tables are kept. *)
Definition with_rows (db : cache_db) (rows : list rule_row) : cache_db :=
  mkCache rows (db_transactions db) (db_matches db) (db_preamble db) (db_meta db).

(** [is_valid]: [store] is [None] while the cache file does not exist,
    [rules_file] is the hash of the rules file when that file exists, and
    [data_hash] is the hash of the data files. *)
Definition is_valid (store : option cache_db) (rules_file : option string)
    (data_hash : string) (require_data : bool) : bool :=
  match store, rules_file with
  | None, _ => false
  | Some _, None => false
  | Some db, Some rules_hash =>
      if negb (bool_decide (db_meta db !! "rules_file_hash" = Some rules_hash)) then false
      else if require_data
              && negb (bool_decide (db_meta db !! "data_files_hash" = Some data_hash))
      then false
      else true
  end.

(** [rebuild_rules_only] *)
Definition rebuild_rules_only (rules_file : option string) (now : string)
    (e : MerchantEngine) : cache_db :=
  mkCache (_insert_rules (rules e)) ∅ [] (Some (_store_preamble e))
    (<["last_computed" := now]>
       (<["data_files_hash" := EmptyString]>
          (<["rules_file_hash" := default EmptyString rules_file]> ∅))).

(** [invalidate]: every row of [cache_meta] goes, the stored preamble
    among them. *)
Definition invalidate (store : option cache_db) : option cache_db :=
  match store with
  | None => None
  | Some db => Some (mkCache (db_rules db) (db_transactions db) (db_matches db) None ∅)
  end.

(** [mark_matches_stale] *)
Definition mark_matches_stale (db : cache_db) : cache_db :=
  mkCache (db_rules db) ∅ [] (db_preamble db)
    (<["data_files_hash" := EmptyString]> (db_meta db)).

(** [search_rules] *)
Definition search_rules (db : cache_db) (pattern : string) : list CachedRule :=
  let like := "%" +:+ pattern +:+ "%" in
  _row_to_rule <$>
    order_by_position
      (List.filter (λ row, sql_like like (row_name row) || sql_like like (row_match_expr row))
         (db_rules db)).

(** The tests of the [WHERE] clauses. *)
Definition same_name (name : string) (row : rule_row) : bool :=
  bool_decide (str_lower (row_name row) = str_lower name).

Definition same_match (match_expr : string) (row : rule_row) : bool :=
  bool_decide (row_match_expr row = match_expr).

(** [UPDATE rules SET ... WHERE id = ?] *)
Definition update_where_id (id : nat) (f : rule_row → rule_row) (rows : list rule_row)
    : list rule_row :=
  (λ row, if bool_decide (row_id row = id) then f row else row) <$> rows.

(** The row id that [INSERT] gives to a new row: one more than the
    largest one in use. *)
Definition next_row_id (rows : list rule_row) : nat :=
  S (foldr Nat.max 0%nat (row_id <$> rows)).

(** [COALESCE(MAX(position), -1) + 1] *)
Definition next_position (rows : list rule_row) : nat :=
  foldr Nat.max 0%nat ((λ row, S (row_position row)) <$> rows).

(** [add_or_update_rule]: the cache after the call and the pair that is
    returned.  [fetchone] gives the first row of the table that passes
    the test; the table is scanned in the order of the list. *)
Definition add_or_update_rule (db : cache_db) (name match_expr : string)
    (category subcategory : option string) (tags : option (list string))
    (priority : option Z) (merchant : option string)
    : cache_db * (CachedRule * string) :=
  let row :=
    match List.find (same_name name) (db_rules db) with
    | Some row => Some row
    | None => List.find (same_match match_expr) (db_rules db)
    end in
  match row with
  | Some row =>
      let existing := _row_to_rule row in
      let updated_category := default (c_category existing) category in
      let updated_subcategory := default (c_subcategory existing) subcategory in
      let updated_tags := default (c_tags existing) tags in
      let updated_priority := default (c_priority existing) priority in
      let updated_merchant := default (c_merchant existing) merchant in
      (with_rows db
         (update_where_id (row_id row)
            (λ r, mkRuleRow (row_id r) (row_name r) match_expr updated_category
                    updated_subcategory updated_merchant (py_sorted updated_tags)
                    updated_priority (row_position r) (row_source_line r)
                    (row_is_complex r) (row_let_bindings r) (row_fields r))
            (db_rules db)),
       (mkCachedRule (c_name existing) match_expr updated_category updated_subcategory
          updated_merchant updated_tags updated_priority (c_position existing)
          (c_source_line existing) (c_is_complex existing) (c_let_bindings existing)
          (c_fields existing),
        "updated"))
  | None =>
      let position := next_position (db_rules db) in
      let tags_list := default [] tags in
      (with_rows db
         (db_rules db ++
            [mkRuleRow (next_row_id (db_rules db)) name match_expr
               (default EmptyString category) (default EmptyString subcategory)
               (str_or (default EmptyString merchant) name) (py_sorted tags_list)
               (default 50 priority) position 0 false [] []]),
       (mkCachedRule name match_expr (default EmptyString category)
          (default EmptyString subcategory) (str_or (default EmptyString merchant) name)
          tags_list (default 50 priority) position 0 false [] [],
        "added"))
  end.

(** The tags that [update_rule] computes. *)
Definition updated_tag_set (existing : list string) (add_tags remove_tags : option (list string))
    : gset string :=
  (list_to_set existing ∪ list_to_set (default [] add_tags))
  ∖ list_to_set (default [] remove_tags).

(** [update_rule]: the cache after the call and the value returned. *)
Definition update_rule (db : cache_db) (name : string)
    (category subcategory : option string) (add_tags remove_tags : option (list string))
    (priority : option Z) : cache_db * option CachedRule :=
  match List.find (same_name name) (db_rules db) with
  | None => (db, None)
  | Some row =>
      let existing := _row_to_rule row in
      let tags := updated_tag_set (c_tags existing) add_tags remove_tags in
      let updated_category := default (c_category existing) category in
      let updated_subcategory := default (c_subcategory existing) subcategory in
      let updated_priority := default (c_priority existing) priority in
      (with_rows db
         (update_where_id (row_id row)
            (λ r, mkRuleRow (row_id r) (row_name r) (row_match_expr r) updated_category
                    updated_subcategory (row_merchant r) (py_sorted (elements tags))
                    updated_priority (row_position r) (row_source_line r)
                    (row_is_complex r) (row_let_bindings r) (row_fields r))
            (db_rules db)),
       Some (mkCachedRule (c_name existing) (c_match_expr existing) updated_category
               updated_subcategory (c_merchant existing) (py_sorted (elements tags))
               updated_priority (c_position existing) (c_source_line existing)
               (c_is_complex existing) (c_let_bindings existing) (c_fields existing)))
  end.

(** [DELETE FROM rules WHERE ...]: the table without the rows that pass
    [test], and whether [rowcount] is positive. *)
Definition delete_where (test : rule_row → bool) (db : cache_db) : cache_db * bool :=
  (with_rows db (List.filter (λ row, negb (test row)) (db_rules db)),
   (0 <? length (List.filter test (db_rules db)))%nat).

(** [delete_by_name] *)
Definition delete_by_name (db : cache_db) (name : string) : cache_db * bool :=
  delete_where (same_name name) db.

(** [delete_by_match] *)
Definition delete_by_match (db : cache_db) (match_expr : string) : cache_db * bool :=
  delete_where (same_match match_expr) db.

End CacheUpdates.

(** ** Notions on texts *)

(** Every character of [s] passes [p]. *)
Fixpoint str_forall (p : ascii → bool) (s : string) : bool :=
  match s with
  | EmptyString => true
  | String c s' => p c && str_forall p s'
  end.

Definition not_space (c : ascii) : bool := negb (py_isspace c).

(** A character that the loop of the [tags:] property adds to the
    current tag at any depth: no comma and no parenthesis. *)
Definition tag_char (c : ascii) : bool :=
  negb (bool_decide (c = ","%char)) && negb (bool_decide (c = "("%char))
  && negb (bool_decide (c = ")"%char)).

Definition not_paren (c : ascii) : bool :=
  negb (bool_decide (c = "("%char)) && negb (bool_decide (c = ")"%char)).

(** ** Notions for the rules that the parser stores *)

(** The header of the block of a rule: line [n] of the text, counted
    from 1, is a header line that gives the name [rule_name]. *)
Definition header_at (lines : list string) (n : nat) (rule_name : string) : Prop :=
  (1 ≤ n)%nat
  ∧ ∃ hdr, lines !! (n - 1)%nat = Some hdr ∧ header_line hdr
           ∧ rule_name = str_strip (str_inner (str_strip hdr)).

(** A text without white space at either end. *)
Definition stripped (s : string) : Prop := str_strip s = s.

(** What the property lines of a block leave in the open rule. *)
Definition rule_data_ok (rd : rule_data) : Prop :=
  rd_name rd ≠ EmptyString ∧ stripped (rd_name rd)
  ∧ (∀ v, rd_match_expr rd = Some v → stripped v)
  ∧ (∀ v, rd_category rd = Some v → stripped v)
  ∧ (∀ v, rd_subcategory rd = Some v → stripped v)
  ∧ (∀ v, rd_merchant rd = Some v → stripped v)
  ∧ (∀ v, rd_transform rd = Some v → stripped v)
  ∧ (∀ tg t, rd_tags rd = Some tg → t ∈ tg → t ≠ EmptyString ∧ stripped t)
  ∧ Forall (λ b, str_lower b.1 = b.1 ∧ stripped b.2) (default [] (rd_let_bindings rd))
  ∧ Forall (λ b, str_lower b.1 = b.1 ∧ stripped b.2) (default [] (rd_fields rd))
  ∧ NoDup (default [] (rd_fields rd)).*1.

Section ParserNotions.
Context `{EP : ExprParser}.

(** What holds of every rule that the parser stores. *)
Definition well_formed_rule (r : MerchantRule) : Prop :=
  name r ≠ EmptyString ∧ stripped (name r)
  ∧ merchant r ≠ EmptyString ∧ stripped (merchant r)
  ∧ parse_expression (match_expr r) = true ∧ stripped (match_expr r)
  ∧ (category r ≠ EmptyString ∨ tags r ≠ ∅)
  ∧ stripped (category r) ∧ stripped (subcategory r) ∧ stripped (transform r)
  ∧ (∀ t, t ∈ tags r → t ≠ EmptyString ∧ stripped t)
  ∧ Forall (λ b, parse_expression b.2 = true ∧ str_lower b.1 = b.1 ∧ stripped b.2)
      (let_bindings r)
  ∧ Forall (λ b, parse_expression b.2 = true ∧ str_lower b.1 = b.1 ∧ stripped b.2)
      (fields r)
  ∧ NoDup (fields r).*1.

(** The stored rules are well formed, stand in the order of their
    header lines, and each carries the line number and the name of its
    header. *)
Definition rules_ok (lines : list string) (rules : list MerchantRule) : Prop :=
  StronglySorted lt (line_number <$> rules)
  ∧ ∀ r, r ∈ rules → well_formed_rule r ∧ header_at lines (line_number r) (name r).

(** The state of the parser before line [n]. *)
Definition state_ok (lines : list string) (st : parse_state) (n : nat) : Prop :=
  rules_ok lines (p_rules st)
  ∧ (current_rule st = None → p_rules st = [])
  ∧ ∀ rd, current_rule st = Some rd →
          rule_data_ok rd
          ∧ header_at lines (rule_start_line st) (rd_name rd)
          ∧ (rule_start_line st < n)%nat
          ∧ ∀ r, r ∈ p_rules st → (line_number r < rule_start_line st)%nat.

End ParserNotions.

(** ** Notions for the regenerated rule file *)

(** A text that a property line gives back as it is: not empty, without
    white space at either end and without a line break. *)
Definition clean_text (s : string) : bool :=
  str_nonempty s && bool_decide (str_strip s = s) && negb (str_has_char s newline).

Definition optional_clean (s : string) : bool := negb (str_nonempty s) || clean_text s.

(** An identifier in lower case. *)
Definition is_identifier (s : string) : bool :=
  match s with
  | EmptyString => false
  | String c s' => is_ident_start c && str_forall is_ident_char s'
  end.

Definition clean_binding (b : string * string) : bool :=
  is_identifier b.1 && bool_decide (str_lower b.1 = b.1) && clean_text b.2.

(** A transform of the preamble: a path [field.<identifier>] and a clean
    expression. *)
Definition clean_transform (b : string * string) : bool :=
  str_startswith b.1 "field."
  && is_identifier (String.substring 6 (String.length b.1 - 6) b.1)
  && clean_text b.2.

(** A preamble that the regenerated file gives back: variables with
    distinct names that are identifiers in lower case, transforms of
    fields, and clean expressions. *)
Definition clean_preamble (e : MerchantEngine) : bool :=
  forallb clean_binding (variables e)
  && bool_decide (NoDup (variables e).*1)
  && forallb clean_transform (transforms e).

(** A tag without comma and parenthesis. *)
Definition clean_tag (t : string) : bool := clean_text t && str_forall tag_char t.

(** The rule [r] with the line number [n]. *)
Definition at_line (n : nat) (r : MerchantRule) : MerchantRule :=
  mkMerchantRule (name r) (match_expr r) (category r) (subcategory r) (merchant r)
    (tags r) (priority r) n (let_bindings r) (fields r) (transform r).

(** The lines that [_format_cached_rule] joins. *)
Definition rule_lines (rule : CachedRule) : list string :=
  ["[" +:+ c_name rule +:+ "]"]
  ++ (if negb (c_priority rule =? 50) then ["priority: " +:+ pretty (c_priority rule)] else [])
  ++ ((λ b, "let: " +:+ b.1 +:+ " = " +:+ b.2) <$> c_let_bindings rule)
  ++ ["match: " +:+ c_match_expr rule]
  ++ (if str_nonempty (c_merchant rule) && negb (bool_decide (c_merchant rule = c_name rule))
      then ["merchant: " +:+ c_merchant rule] else [])
  ++ (if str_nonempty (c_category rule) then ["category: " +:+ c_category rule] else [])
  ++ (if str_nonempty (c_subcategory rule)
      then ["subcategory: " +:+ c_subcategory rule] else [])
  ++ ((λ b, "field: " +:+ b.1 +:+ " = " +:+ b.2) <$> c_fields rule)
  ++ (if dict_nonempty (c_tags rule)
      then ["tags: " +:+ str_join ", " (py_sorted (c_tags rule))] else []).

(** The lines of sections joined by an empty line. *)
Fixpoint section_lines (sections : list (list string)) : list string :=
  match sections with
  | [] => [EmptyString]
  | lines :: rest =>
      match rest with
      | [] => lines
      | _ => lines ++ EmptyString :: section_lines rest
      end
  end.

Section RoundTripNotions.
Context `{EP : ExprParser}.

(** A rule that the regenerated file gives back: its texts are clean, its
    expressions parse, it has a category or a tag, no transform, a
    priority other than 0, and tags without comma and parenthesis. *)
Definition regenerable (r : MerchantRule) : bool :=
  clean_text (name r) && clean_text (match_expr r) && parse_expression (match_expr r)
  && clean_text (merchant r)
  && (str_nonempty (category r) || set_nonempty (tags r))
  && optional_clean (category r) && optional_clean (subcategory r)
  && negb (str_nonempty (transform r))
  && negb (priority r =? 0)
  && forallb (λ b, clean_binding b && parse_expression b.2) (let_bindings r)
  && forallb (λ b, clean_binding b && parse_expression b.2) (fields r)
  && bool_decide (NoDup (fields r).*1)
  && forallb clean_tag (elements (tags r)).

(** The property lines [lines] take the open rule from [rd] to [rd'],
    whatever the rest of the state and the line number. *)
Definition steps (lines : list string) (rd rd' : rule_data) : Prop :=
  ∀ rules vars transforms (start n : nat),
    parse_lines (mkParse rules vars transforms (Some rd) start) n lines
    = (mkParse rules vars transforms (Some rd') start, None).

(** The state of the parser after the preamble of [e] and the blocks of
    the rules [done]. *)
Definition parsed_so_far (e : MerchantEngine) (st : parse_state)
    (done : list MerchantRule) : Prop :=
  p_variables st = variables e ∧ p_transforms st = transforms e
  ∧ ∃ st', save_current st = (st', None)
           ∧ at_line 0 <$> p_rules st' = at_line 0 <$> done.

End RoundTripNotions.

(** ** Notions for the provenance of tags *)

Section TagNotions.
Context `{EP : ExprParser}.

(** The entry of [tag_sources] that [rule] writes. *)
Definition source_of (rule : MerchantRule) : string * string :=
  (name rule, match_expr rule).

(** The matching rules without a category, in file order. *)
Definition matching_tag_only_rules (e : MerchantEngine) (txn : transaction)
    (ds : data_sources) : list MerchantRule :=
  List.filter (λ r, negb (is_categorization_rule r)) (matching_of e txn ds).

(** The rules in the order in which [match] lets them claim a tag: the
    matching rules without a category, then the rule that wins the
    category. *)
Definition tag_contributors (e : MerchantEngine) (txn : transaction) (ds : data_sources)
    : list MerchantRule :=
  matching_tag_only_rules e txn ds
  ++ option_list (res_matched_rule (engine_match e txn ds)).

(** The test [tag in resolved_tags] for the resolved tags of a rule. *)
Definition resolves_to (e : MerchantEngine) (txn : transaction) (ds : data_sources)
    (tag : string) (rule : MerchantRule) : bool :=
  bool_decide (tag ∈ tags_of_rule txn ds (globals_of e txn ds) rule).

End TagNotions.

(** ** More data for the scenarios *)

Module CacheScenario.
Import Scenario.

(** The cache built from the rules [General] and [Large] and a batch of
    two transactions. *)
Definition shop_cache : cache_db :=
  rebuild "r1" "d1" "now" (shop_engine "first_match") [christmas; boxing_day] ∅.

Definition general_row : rule_row := rule_row_of 0 general_rule.

Definition large_row : rule_row := rule_row_of 1 large_rule.

(** A rule with two fields; the second names nothing that is bound. *)
Definition field_rule : MerchantRule :=
  mkMerchantRule "Fields" "true" "X" EmptyString "Fields" ∅ 50 1 []
    [("note", "month == 12"); ("bad", "undefined_name")] EmptyString.

Definition field_engine : MerchantEngine := mkEngine [field_rule] [] [] "first_match".

(** An assignment after the first header, and a priority that is no
    number. *)
Definition stray_assignment_text : string :=
  str_join nl ["[A]"; "match: true"; "limit = 5"; "category: X"].

Definition bad_priority_text : string :=
  str_join nl ["[A]"; "match: true"; "category: X"; "priority: high"].

(** A rule added to the cache under a new name and a new match
    expression, with priority 0. *)
Definition cafe_added : cache_db * (CachedRule * string) :=
  add_or_update_rule shop_cache "Cafe" "false" (Some "Food") None (Some ["b"; "a"])
    (Some 0) None.

(** The two overlapping rules after a preamble of one variable and one
    transform. *)
Definition preamble_engine : MerchantEngine :=
  mkEngine [rule_a; rule_b] [("big", "amount > 500")] [("field.note", "month == 12")]
    "most_specific".

(** A text without a header line. *)
Definition headerless_text : string :=
  str_join nl ["colour: red"; "limit = 5"; "# note"; "loose text"].

(** An engine with two variables; the second names nothing that is
    bound.  The rule matches when the first variable is true. *)
Definition vars_engine : MerchantEngine :=
  mkEngine [mkMerchantRule "Big" "big" "X" EmptyString "Big" ∅ 50 1 [] [] EmptyString]
    [("big", "amount > 500"); ("gone", "undefined_name")] [] "first_match".

(** A rule given under the name of the first row, in capitals. *)
Definition general_updated : cache_db * (CachedRule * string) :=
  add_or_update_rule shop_cache "GENERAL" "month == 12" (Some "Seasonal") None None
    None None.

End CacheScenario.

(** * Properties *)

(** ** The string primitives *)

Lemma isspace_lower_char (c : ascii) : py_isspace (lower_char c) = py_isspace c.
Proof. destruct c as [[] [] [] [] [] [] [] []]; reflexivity. Qed.

Lemma lower_char_idem (c : ascii) : lower_char (lower_char c) = lower_char c.
Proof. destruct c as [[] [] [] [] [] [] [] []]; reflexivity. Qed.

Lemma str_lower_idem (s : string) : str_lower (str_lower s) = str_lower s.
Proof. induction s as [|c s IH]; simpl; [done|]. by rewrite lower_char_idem, IH. Qed.

Lemma str_lower_nonempty (s : string) : str_nonempty (str_lower s) = str_nonempty s.
Proof. by destruct s. Qed.

Lemma str_lower_lstrip (s : string) : str_lstrip (str_lower s) = str_lower (str_lstrip s).
Proof.
  induction s as [|c s IH]; simpl; [done|].
  rewrite isspace_lower_char. by destruct (py_isspace c).
Qed.

Lemma str_lower_rstrip (s : string) : str_rstrip (str_lower s) = str_lower (str_rstrip s).
Proof.
  induction s as [|c s IH]; simpl; [done|].
  rewrite IH, isspace_lower_char.
  destruct (str_rstrip s); simpl; [|done]. by destruct (py_isspace c).
Qed.

Lemma str_lower_strip (s : string) : str_strip (str_lower s) = str_lower (str_strip s).
Proof. unfold str_strip. by rewrite str_lower_lstrip, str_lower_rstrip. Qed.

Lemma str_rstrip_idem (s : string) : str_rstrip (str_rstrip s) = str_rstrip s.
Proof.
  induction s as [|c s IH]; simpl; [done|].
  destruct (str_rstrip s) as [|d r] eqn:Hr.
  - destruct (py_isspace c) eqn:Hc; simpl; [done|]. by rewrite Hc.
  - cbn [str_rstrip]. cbn [str_rstrip] in IH. by rewrite IH.
Qed.

Lemma str_lstrip_head (s : string) :
  match str_lstrip s with
  | EmptyString => True
  | String c _ => py_isspace c = false
  end.
Proof.
  induction s as [|c s IH]; simpl; [done|].
  destruct (py_isspace c) eqn:Hc; [done|]. done.
Qed.

Lemma str_rstrip_head (c : ascii) (s : string) :
  py_isspace c = false → ∃ r, str_rstrip (String c s) = String c r.
Proof.
  intros Hc. simpl. destruct (str_rstrip s); rewrite ?Hc; eauto.
Qed.

Lemma str_strip_idem (s : string) : str_strip (str_strip s) = str_strip s.
Proof.
  unfold str_strip.
  pose proof (str_lstrip_head s) as Hh.
  destruct (str_lstrip s) as [|c t] eqn:Hs; [done|].
  destruct (str_rstrip_head c t Hh) as [r Hr]. rewrite Hr.
  cbn [str_lstrip]. rewrite Hh, <- Hr. apply str_rstrip_idem.
Qed.

(** What [_resolve_tags] does to a string that survives the emptiness
    test: the tag is non-empty, stripped and lowercased. *)
Lemma strip_lower_normalized (s : string) :
  str_nonempty (str_strip s) = true → normalized_tag (str_lower (str_strip s)).
Proof.
  intros H. split; [|split].
  - destruct (str_strip s); [done|]. done.
  - by rewrite str_lower_strip, str_strip_idem.
  - apply str_lower_idem.
Qed.




Lemma length_snoc (body : string) (q : ascii) :
  String.length (body +:+ String q EmptyString) = S (String.length body).
Proof. induction body as [|a body IH]; simpl; [done|]. by rewrite IH. Qed.



Lemma append_cons (a : ascii) (p post : string) :
  String a p +:+ post = String a (p +:+ post).
Proof. reflexivity. Qed.

Lemma startswith_spec (s p : string) :
  str_startswith s p = true ↔ ∃ post, s = p +:+ post.
Proof.
  revert s. induction p as [|a p IH]; intros s.
  - split; [intros _; by exists s|intros _; by destruct s].
  - destruct s as [|b s]; simpl.
    + split; [done|]. intros [post H]. by rewrite append_cons in H.
    + destruct (ascii_dec a b) as [->|Hne].
      * rewrite IH. split; intros [post H]; exists post.
        -- rewrite append_cons. congruence.
        -- rewrite append_cons in H. congruence.
      * split; [done|]. intros [post H]. rewrite append_cons in H. congruence.
Qed.

(** [kw in s] holds exactly when [kw] occurs in [s] as a substring. *)
Lemma str_contains_spec (s kw : string) :
  str_contains s kw = true ↔ ∃ pre post, s = pre +:+ kw +:+ post.
Proof.
  induction s as [|c s IH]; cbn [str_contains].
  - rewrite orb_false_r, startswith_spec. split.
    + intros [post H]. by exists EmptyString, post.
    + intros (pre & post & H). destruct pre; [by exists post|].
      by rewrite append_cons in H.
  - rewrite orb_true_iff, IH, startswith_spec. split.
    + intros [[post H]|(pre & post & H)].
      * by exists EmptyString, post.
      * exists (String c pre), post. rewrite append_cons. by rewrite H.
    + intros (pre & post & H). destruct pre as [|d pre].
      * left. by exists post.
      * right. exists pre, post. rewrite append_cons in H. congruence.
Qed.







(** ** Specificity keys *)

Lemma spec_gt_lt (a b : specificity) : spec_gt a b = true ↔ spec_lt b a.
Proof.
  destruct a as [[[p1 c1] f1] l1], b as [[[p2 c2] f2] l2].
  unfold spec_gt, spec_lt; simpl.
  destruct (Z.eqb_spec p1 p2), (Nat.eqb_spec c1 c2), (Nat.eqb_spec f1 f2); simpl;
    rewrite ?Z.ltb_lt, ?Nat.ltb_lt; lia.
Qed.

Lemma spec_lt_irrefl (a : specificity) : ¬ spec_lt a a.
Proof. unfold spec_lt. lia. Qed.

Lemma spec_lt_trans (a b c : specificity) : spec_lt a b → spec_lt b c → spec_lt a c.
Proof. unfold spec_lt. lia. Qed.

Lemma spec_lt_le_trans (a b c : specificity) :
  ¬ spec_lt b a → spec_lt b c → spec_lt a c.
Proof. unfold spec_lt. lia. Qed.

Lemma spec_le_lt_trans (a b c : specificity) :
  spec_lt a b → ¬ spec_lt c b → spec_lt a c.
Proof. unfold spec_lt. lia. Qed.

Lemma spec_le_trans (a b c : specificity) :
  ¬ spec_lt b a → ¬ spec_lt c b → ¬ spec_lt c a.
Proof. unfold spec_lt. lia. Qed.


(** [max_from] returns the first element with a maximal key. *)
Lemma max_from_first_maximal {A} (key : A → specificity) (l pre mid : list A) (best : A) :
  (∀ x, x ∈ pre → spec_lt (key x) (key best)) →
  (∀ x, x ∈ mid → ¬ spec_lt (key best) (key x)) →
  ∃ pre' post',
    pre ++ best :: mid ++ l = pre' ++ max_from key best l :: post'
    ∧ (∀ x, x ∈ pre' → spec_lt (key x) (key (max_from key best l)))
    ∧ (∀ x, x ∈ post' → ¬ spec_lt (key (max_from key best l)) (key x)).
Proof.
  revert pre mid best.
  induction l as [|x l IH]; intros pre mid best Hpre Hmid; simpl.
  - exists pre, mid. rewrite app_nil_r. done.
  - destruct (spec_gt (key x) (key best)) eqn:Hgt.
    + apply spec_gt_lt in Hgt.
      destruct (IH (pre ++ best :: mid) [] x) as (pre' & post' & Heq & H1 & H2).
      * intros y [Hy|Hy]%elem_of_app.
        -- eapply spec_lt_trans; eauto.
        -- apply elem_of_cons in Hy as [->|Hy]; [done|].
           eapply spec_lt_le_trans; eauto.
      * intros y Hy. by apply elem_of_nil in Hy.
      * exists pre', post'. split; [|done].
        rewrite <- Heq. simpl. by rewrite <- !app_assoc.
    + assert (¬ spec_lt (key best) (key x)) as Hle.
      { intros H%spec_gt_lt. congruence. }
      destruct (IH pre (mid ++ [x]) best) as (pre' & post' & Heq & H1 & H2).
      * done.
      * intros y [Hy|Hy]%elem_of_app; [by apply Hmid|].
        apply list_elem_of_singleton in Hy as ->. done.
      * exists pre', post'. split; [|done].
        rewrite <- Heq. by rewrite <- !app_assoc.
Qed.

Lemma py_max_first_maximal {A} (key : A → specificity) (l : list A) :
  l ≠ [] →
  ∃ w pre post,
    py_max key l = Some w ∧ l = pre ++ w :: post
    ∧ (∀ x, x ∈ pre → spec_lt (key x) (key w))
    ∧ (∀ x, x ∈ post → ¬ spec_lt (key w) (key x)).
Proof.
  destruct l as [|b l]; [done|]. intros _.
  destruct (max_from_first_maximal key l [] [] b) as (pre & post & Heq & H1 & H2).
  - intros y Hy. by apply elem_of_nil in Hy.
  - intros y Hy. by apply elem_of_nil in Hy.
  - exists (max_from key b l), pre, post. done.
Qed.

(** ** The loop of [match] *)

Section EngineFacts.
Context `{EP : ExprParser}.
Implicit Types (txn : transaction) (ds : data_sources) (G : gmap string value).
Implicit Types (r w : MerchantRule) (st : loop_state).

Lemma claim_tags_fst r (S : gset string) acc :
  (claim_tags r S acc).1 = acc.1 ∪ S.
Proof.
  unfold claim_tags.
  apply (set_fold_ind_L (λ a X, a.1 = acc.1 ∪ X)).
  - set_solver.
  - intros x X a Hx IH. case_decide; simpl; set_solver.
Qed.

Lemma claim_tags_dom r (S : gset string) acc :
  dom acc.2 = acc.1 → dom (claim_tags r S acc).2 = (claim_tags r S acc).1.
Proof.
  intros Hdom. unfold claim_tags.
  apply (set_fold_ind_L (λ a X, dom a.2 = a.1)); [done|].
  intros x X a Hx IH. case_decide; simpl; [done|].
  rewrite dom_insert_L. by rewrite IH.
Qed.

Lemma claim_tags_empty r acc : claim_tags r ∅ acc = acc.
Proof. unfold claim_tags. by rewrite set_fold_empty. Qed.

Lemma resolve_tags_no_tags r txn ds (V : gmap string value) :
  set_nonempty (tags r) = false → _resolve_tags r txn V ds = ∅.
Proof.
  unfold set_nonempty. intros H%negb_false_iff%bool_decide_eq_true.
  unfold _resolve_tags. rewrite H, elements_empty. done.
Qed.

Lemma match_step_skip txn ds G st r :
  matches_in txn ds G r = false → match_step txn ds G st r = st.
Proof.
  unfold matches_in, match_step.
  destruct (matches_transaction _ _ _ _) as [[]|]; done.
Qed.

Lemma match_step_hit txn ds G st r :
  matches_in txn ds G r = true →
  match_step txn ds G st r =
    mkLoop (matching_rules st ++ [entry_of txn ds G r])
      (match first_category_rule st with
       | None => if is_categorization_rule r
                 then Some (r, rule_scope r txn G ds) else None
       | Some f => Some f
       end)
      (if is_categorization_rule r then all_tags st
       else claim_tags r (tags_of_rule txn ds G r) (all_tags st))
      (if is_categorization_rule r then tag_rules st else tag_rules st ++ [r]).
Proof.
  unfold matches_in, match_step, entry_of, tags_of_rule.
  destruct (matches_transaction _ _ _ _) as [[]|]; try done.
  intros _. destruct (is_categorization_rule r); done.
Qed.

Lemma loop_filter txn ds G (l : list MerchantRule) st :
  fold_left (match_step txn ds G) l st
  = fold_left (match_step txn ds G) (List.filter (matches_in txn ds G) l) st.
Proof.
  revert st. induction l as [|r l IH]; intros st; simpl; [done|].
  destruct (matches_in txn ds G r) eqn:Hm; simpl.
  - apply IH.
  - rewrite match_step_skip by done. apply IH.
Qed.

Lemma loop_spec txn ds G (l : list MerchantRule) st :
  let st' := fold_left (match_step txn ds G) l st in
  matching_rules st'
    = matching_rules st ++ (entry_of txn ds G <$> List.filter (matches_in txn ds G) l)
  ∧ first_category_rule st'
    = match first_category_rule st with
      | Some f => Some f
      | None =>
          (λ r, (r, rule_scope r txn G ds)) <$>
            List.find (λ r, matches_in txn ds G r && is_categorization_rule r) l
      end
  ∧ (all_tags st').1 = (all_tags st).1 ∪ tag_only_union txn ds G l
  ∧ (dom (all_tags st).2 = (all_tags st).1 → dom (all_tags st').2 = (all_tags st').1).
Proof.
  revert st. induction l as [|r l IH]; intros st; simpl.
  - rewrite app_nil_r. unfold tag_only_union. simpl.
    repeat split; [by destruct (first_category_rule st)|set_solver|done].
  - destruct (matches_in txn ds G r) eqn:Hm; simpl.
    + rewrite match_step_hit by done.
      match goal with
      | |- context [fold_left _ l ?s] => destruct (IH s) as (H1 & H2 & H3 & H4)
      end.
      rewrite H1, H2, H3. simpl in *.
      repeat split.
      * by rewrite <- app_assoc.
      * destruct (first_category_rule st); [done|].
        destruct (is_categorization_rule r); done.
      * unfold tag_only_union. simpl. rewrite Hm.
        destruct (is_categorization_rule r); simpl; [done|].
        rewrite claim_tags_fst. set_solver.
      * intros Hd. rewrite <- H3. apply H4.
        destruct (is_categorization_rule r); [done|]. by apply claim_tags_dom.
    + rewrite match_step_skip by done.
      destruct (IH st) as (H1 & H2 & H3 & H4).
      repeat split; try done.
      rewrite H3. unfold tag_only_union. simpl. by rewrite Hm.
Qed.

Lemma find_first (P : MerchantRule → bool) (pre post : list MerchantRule) w :
  P w = true → (∀ x, x ∈ pre → P x = false) →
  List.find P (pre ++ w :: post) = Some w.
Proof.
  intros Hw. induction pre as [|y pre IH]; intros Hpre; simpl.
  - by rewrite Hw.
  - rewrite (Hpre y) by set_solver. apply IH. intros x Hx. apply Hpre. set_solver.
Qed.

Lemma find_none (P : MerchantRule → bool) (l : list MerchantRule) :
  (∀ x, x ∈ l → P x = false) → List.find P l = None.
Proof.
  induction l as [|y l IH]; intros H; simpl; [done|].
  rewrite (H y) by set_solver. apply IH. intros x Hx. apply H. set_solver.
Qed.

Lemma engine_match_filter (e : MerchantEngine) txn ds (rules' : list MerchantRule) :
  List.filter (rule_matches e txn ds) rules' = List.filter (rule_matches e txn ds) (rules e) →
  engine_match (with_rules e rules') txn ds = engine_match e txn ds.
Proof.
  intros H. unfold engine_match, match_loop, with_rules; simpl.
  rewrite (loop_filter _ _ _ rules'), (loop_filter _ _ _ (rules e)).
  change (rule_matches e txn ds)
    with (matches_in txn ds (_evaluate_variables (variables e) txn ds)) in H.
  by rewrite H.
Qed.

Lemma subcategory_if r :
  (if has_subcategory r then subcategory r else EmptyString) = subcategory r.
Proof. unfold has_subcategory. by destruct (subcategory r). Qed.

(** C1: in [first_match] mode the category, merchant, matched rule and
    subcategory of the result are those of the first rule in file order
    that matches and declares a category, whatever follows it; and the
    result only depends on the sequence of matching rules, so rules that
    do not match can be removed or moved without changing it. *)
Theorem first_match_winner (e : MerchantEngine) txn ds :
  match_mode e = "first_match" →
  (∀ pre w post,
     rules e = pre ++ w :: post →
     rule_matches e txn ds w = true →
     is_categorization_rule w = true →
     (∀ x, x ∈ pre → rule_matches e txn ds x && is_categorization_rule x = false) →
     res_matched (engine_match e txn ds) = true
     ∧ res_matched_rule (engine_match e txn ds) = Some w
     ∧ res_category (engine_match e txn ds) = category w
     ∧ res_merchant (engine_match e txn ds) = merchant w
     ∧ res_subcategory (engine_match e txn ds) = subcategory w)
  ∧ (∀ rules',
       List.filter (rule_matches e txn ds) rules'
       = List.filter (rule_matches e txn ds) (rules e) →
       engine_match (with_rules e rules') txn ds = engine_match e txn ds).
Proof.
  intros Hmode. split; [|apply engine_match_filter].
  intros pre w post Hrules Hw Hcat Hpre.
  unfold engine_match. rewrite decide_True by done.
  destruct (loop_spec txn ds (_evaluate_variables (variables e) txn ds) (rules e)
              (mkLoop [] None (∅, ∅) [])) as (_ & H2 & _).
  unfold match_loop. rewrite H2. simpl.
  rewrite Hrules, (find_first _ pre post w); simpl.
  - rewrite subcategory_if. done.
  - unfold rule_matches in Hw. by rewrite Hw, Hcat.
  - intros x Hx. by apply Hpre.
Qed.

Lemma filter_entries txn ds G (P : MerchantRule → bool) (l : list MerchantRule) :
  List.filter (λ x : MerchantRule * specificity * gmap string value, P x.1.1)
    (entry_of txn ds G <$> l)
  = entry_of txn ds G <$> List.filter P l.
Proof.
  induction l as [|r l IH]; [done|].
  rewrite fmap_cons. cbn [List.filter]. rewrite IH. simpl.
  by destruct (P r).
Qed.

Lemma py_max_entries_nil txn ds G :
  py_max key_of (entry_of txn ds G <$> []) = None.
Proof. done. Qed.

Lemma py_max_entries txn ds G (l : list MerchantRule) :
  l ≠ [] →
  ∃ w, py_max key_of (entry_of txn ds G <$> l) = Some (entry_of txn ds G w)
       ∧ first_maximal w l.
Proof.
  intros Hl.
  destruct (py_max_first_maximal key_of (entry_of txn ds G <$> l))
    as (x & pre & post & Hmax & Heq & H1 & H2).
  { by destruct l. }
  apply fmap_app_inv in Heq as (pre0 & rest & -> & Hrest & ->).
  symmetry in Hrest. apply fmap_cons_inv in Hrest as (w & post0 & -> & -> & ->).
  exists w. split; [done|]. exists pre0, post0. split; [done|]. split.
  - intros y Hy. apply (H1 (entry_of txn ds G y)). by apply list_elem_of_fmap_2.
  - intros y Hy. apply (H2 (entry_of txn ds G y)). by apply list_elem_of_fmap_2.
Qed.

(** The candidates of one field in [most_specific] mode. *)
Lemma field_winner (e : MerchantEngine) txn ds (P : MerchantRule → bool) :
  let cands := List.filter P (matching_of e txn ds) in
  let winner :=
    py_max key_of
      (List.filter (λ x : MerchantRule * specificity * gmap string value, P x.1.1)
         (matching_rules (match_loop (rules e) txn ds (globals_of e txn ds)))) in
  (cands = [] → winner = None)
  ∧ (cands ≠ [] →
     ∃ w, winner = Some (entry_of txn ds (globals_of e txn ds) w) ∧ first_maximal w cands).
Proof.
  intros cands winner. subst cands winner.
  destruct (loop_spec txn ds (globals_of e txn ds) (rules e) (mkLoop [] None (∅, ∅) []))
    as (H1 & _).
  unfold match_loop. rewrite H1. simpl. rewrite filter_entries.
  change (List.filter (matches_in txn ds (globals_of e txn ds)) (rules e))
    with (matching_of e txn ds).
  split.
  - intros ->. done.
  - apply py_max_entries.
Qed.

Lemma first_maximal_elem w (l : list MerchantRule) : first_maximal w l → w ∈ l.
Proof. intros (pre & post & -> & _). set_solver. Qed.

(** The tags of a result in either mode. *)
Lemma result_tags (e : MerchantEngine) txn ds :
  res_tags (engine_match e txn ds)
  = tag_only_union txn ds (globals_of e txn ds) (rules e)
    ∪ from_option (tags_of_rule txn ds (globals_of e txn ds)) ∅
        (res_matched_rule (engine_match e txn ds)).
Proof.
  unfold engine_match.
  destruct (loop_spec txn ds (globals_of e txn ds) (rules e) (mkLoop [] None (∅, ∅) []))
    as (_ & H2 & H3 & _).
  fold (globals_of e txn ds). unfold match_loop in *. simpl in *.
  case_decide.
  - rewrite H2.
    destruct (List.find _ (rules e)) as [w|]; simpl.
    + destruct (set_nonempty (tags w)) eqn:Ht.
      * rewrite claim_tags_fst, H3. unfold tags_of_rule. set_solver.
      * rewrite H3. unfold tags_of_rule.
        rewrite resolve_tags_no_tags by done. set_solver.
    + rewrite H3. set_solver.
  - destruct (field_winner e txn ds is_categorization_rule) as [Hnil Hne].
    unfold match_loop in *.
    destruct (decide (List.filter is_categorization_rule (matching_of e txn ds) = []))
      as [Hc|Hc].
    + rewrite (Hnil Hc). simpl. rewrite H3. set_solver.
    + destruct (Hne Hc) as (w & -> & _). simpl.
      destruct (set_nonempty (tags w)) eqn:Ht.
      * rewrite claim_tags_fst, H3. unfold tags_of_rule. set_solver.
      * rewrite H3. unfold tags_of_rule.
        rewrite resolve_tags_no_tags by done. set_solver.
Qed.

Lemma result_tag_sources_dom (e : MerchantEngine) txn ds :
  dom (res_tag_sources (engine_match e txn ds)) = res_tags (engine_match e txn ds).
Proof.
  unfold engine_match.
  destruct (loop_spec txn ds (globals_of e txn ds) (rules e) (mkLoop [] None (∅, ∅) []))
    as (_ & _ & _ & H4).
  fold (globals_of e txn ds). unfold match_loop in *. simpl in *.
  specialize (H4 (dom_empty_L)).
  repeat case_match; simpl; try done; by apply claim_tags_dom.
Qed.

(** C2 (second half) and C10 use the next lemma: the rule that wins the
    category in a mode other than [first_match]. *)
Lemma most_specific_category (e : MerchantEngine) txn ds :
  match_mode e ≠ "first_match" →
  (matching_category_rules e txn ds = [] →
     res_matched (engine_match e txn ds) = false
     ∧ res_matched_rule (engine_match e txn ds) = None)
  ∧ (matching_category_rules e txn ds ≠ [] →
     ∃ w, res_matched (engine_match e txn ds) = true
          ∧ res_matched_rule (engine_match e txn ds) = Some w
          ∧ res_category (engine_match e txn ds) = category w
          ∧ first_maximal w (matching_category_rules e txn ds)).
Proof.
  intros Hmode. unfold engine_match. rewrite decide_False by done.
  fold (globals_of e txn ds).
  destruct (field_winner e txn ds is_categorization_rule) as [Hnil Hne].
  fold (matching_category_rules e txn ds) in *.
  split.
  - intros Hc. rewrite (Hnil Hc). done.
  - intros Hc. destruct (Hne Hc) as (w & -> & Hw). exists w. done.
Qed.

Lemma most_specific_merchant (e : MerchantEngine) txn ds :
  match_mode e ≠ "first_match" →
  (∀ r, r ∈ rules e → has_merchant r = true) →
  matching_of e txn ds ≠ [] →
  ∃ w, res_merchant_rule (engine_match e txn ds) = Some w
       ∧ res_merchant (engine_match e txn ds) = merchant w
       ∧ first_maximal w (matching_of e txn ds).
Proof.
  intros Hmode Hall Hne. unfold engine_match. rewrite decide_False by done.
  fold (globals_of e txn ds).
  destruct (field_winner e txn ds has_merchant) as [_ Hw].
  assert (List.filter has_merchant (matching_of e txn ds) = matching_of e txn ds) as Hf.
  { unfold matching_of in *. clear Hne Hw.
    induction (rules e) as [|r l IH]; simpl; [done|].
    destruct (rule_matches e txn ds r) eqn:Hm; simpl.
    - rewrite (Hall r) by set_solver. f_equal. apply IH. intros x Hx. apply Hall. set_solver.
    - apply IH. intros x Hx. apply Hall. set_solver. }
  rewrite Hf in Hw. destruct (Hw Hne) as (w & -> & Hmax).
  exists w. simpl. done.
Qed.

Lemma find_category_none (e : MerchantEngine) txn ds :
  (∀ r, r ∈ rules e → rule_matches e txn ds r = true → is_categorization_rule r = false) →
  List.find (λ r, matches_in txn ds (globals_of e txn ds) r && is_categorization_rule r)
    (rules e) = None
  ∧ matching_category_rules e txn ds = [].
Proof.
  intros H. split.
  - apply find_none. intros x Hx.
    destruct (matches_in txn ds (globals_of e txn ds) x) eqn:Hm; [|done].
    simpl. by apply H.
  - unfold matching_category_rules, matching_of.
    induction (rules e) as [|r l IH]; simpl; [done|].
    destruct (rule_matches e txn ds r) eqn:Hm; simpl.
    + rewrite (H r) by (done || set_solver). apply IH.
      intros x Hx. apply H. set_solver.
    + apply IH. intros x Hx. apply H. set_solver.
Qed.

(** C4: when no rule that declares a category matches the transaction,
    the result is unmatched and its tags are the union of the resolved
    tags of the matching tag-only rules, in either mode. *)
Theorem unmatched_keeps_tags (e : MerchantEngine) txn ds :
  (∀ r, r ∈ rules e → rule_matches e txn ds r = true → is_categorization_rule r = false) →
  res_matched (engine_match e txn ds) = false
  ∧ res_category (engine_match e txn ds) = EmptyString
  ∧ res_tags (engine_match e txn ds)
    = tag_only_union txn ds (globals_of e txn ds) (rules e).
Proof.
  intros H. destruct (find_category_none e txn ds H) as [Hfind Hnil].
  assert (res_matched (engine_match e txn ds) = false
          ∧ res_category (engine_match e txn ds) = EmptyString
          ∧ res_matched_rule (engine_match e txn ds) = None) as (Hm & Hc & Hr).
  { destruct (decide (match_mode e = "first_match")) as [Hmode|Hmode].
    - unfold engine_match. rewrite decide_True by done.
      destruct (loop_spec txn ds (globals_of e txn ds) (rules e)
                  (mkLoop [] None (∅, ∅) [])) as (_ & H2 & _).
      fold (globals_of e txn ds). unfold match_loop. rewrite H2. simpl.
      rewrite Hfind. done.
    - destruct (most_specific_category e txn ds Hmode) as [Hn _].
      destruct (Hn Hnil) as [H1 H2]. split; [done|]. split; [|done].
      unfold engine_match. rewrite decide_False by done.
      fold (globals_of e txn ds).
      destruct (field_winner e txn ds is_categorization_rule) as [Hw _].
      fold (matching_category_rules e txn ds) in Hw. rewrite (Hw Hnil). done. }
  split; [done|]. split; [done|].
  rewrite result_tags, Hr. simpl. set_solver.
Qed.

(** C3, as amended: in every mode the tags of the result are the union of
    the resolved tags of the matching tag-only rules and the resolved
    tags of the rule that wins the category in that mode; two modes give
    the same tags whenever they select the same winning category rule. *)
Theorem tags_per_mode (e : MerchantEngine) txn ds :
  (∀ mode,
     res_tags (engine_match (with_mode e mode) txn ds)
     = tag_only_union txn ds (globals_of e txn ds) (rules e)
       ∪ from_option (tags_of_rule txn ds (globals_of e txn ds)) ∅
           (res_matched_rule (engine_match (with_mode e mode) txn ds)))
  ∧ (∀ mode1 mode2,
       res_matched_rule (engine_match (with_mode e mode1) txn ds)
       = res_matched_rule (engine_match (with_mode e mode2) txn ds) →
       res_tags (engine_match (with_mode e mode1) txn ds)
       = res_tags (engine_match (with_mode e mode2) txn ds)).
Proof.
  assert (∀ mode,
     res_tags (engine_match (with_mode e mode) txn ds)
     = tag_only_union txn ds (globals_of e txn ds) (rules e)
       ∪ from_option (tags_of_rule txn ds (globals_of e txn ds)) ∅
           (res_matched_rule (engine_match (with_mode e mode) txn ds))) as Heq.
  { intros mode. apply (result_tags (with_mode e mode)). }
  split; [exact Heq|].
  intros mode1 mode2 Hsame. by rewrite (Heq mode1), (Heq mode2), Hsame.
Qed.

Lemma all_matching_rules_spec (e : MerchantEngine) txn ds :
  res_all_matching_rules (engine_match e txn ds) = matching_of e txn ds.
Proof.
  assert ((λ x : MerchantRule * specificity * gmap string value, x.1.1) <$>
            matching_rules (match_loop (rules e) txn ds (globals_of e txn ds))
          = matching_of e txn ds) as H.
  { destruct (loop_spec txn ds (globals_of e txn ds) (rules e) (mkLoop [] None (∅, ∅) []))
      as (H1 & _).
    unfold match_loop. rewrite H1. simpl. rewrite <- list_fmap_compose.
    unfold matching_of, rule_matches. fold (globals_of e txn ds).
    clear H1. induction (List.filter _ (rules e)) as [|r l IH]; [done|].
    rewrite fmap_cons, IH. done. }
  unfold engine_match. fold (globals_of e txn ds).
  repeat case_match; simpl; exact H.
Qed.

Lemma let_step_other txn ds (V : gmap string value) (b : string * string) (x : string) :
  b.1 ≠ x → let_step txn ds V b !! x = V !! x.
Proof.
  destruct b as [y expr]. simpl. intros Hne. unfold let_step.
  destruct (evaluate_transaction expr txn V ds); by rewrite lookup_insert_ne.
Qed.

Lemma let_steps_other txn ds (bs : list (string * string)) (V : gmap string value) x :
  (∀ b, b ∈ bs → b.1 ≠ x) → fold_left (let_step txn ds) bs V !! x = V !! x.
Proof.
  revert V. induction bs as [|b bs IH]; intros V H; simpl; [done|].
  rewrite IH by (intros; apply H; set_solver).
  apply let_step_other. apply H. set_solver.
Qed.

Lemma let_step_failed txn ds (V : gmap string value) (x expr : string) :
  evaluate_transaction expr txn V ds = None →
  let_step txn ds V (x, expr) = <[x := py_none]> V.
Proof. intros H. unfold let_step. by rewrite H. Qed.

(** C7: a let-binding whose expression fails to evaluate is bound to
    [None]; the bindings after it are evaluated in order from that scope,
    and the match expression of the rule is evaluated in the scope that
    results, so the rule still matches when that expression is true. *)
Theorem failed_let_binding_is_none (e : MerchantEngine) (r : MerchantRule) txn ds
    (pre post : list (string * string)) (x expr : string) :
  let_bindings r = pre ++ (x, expr) :: post →
  evaluate_transaction expr txn
    (fold_left (let_step txn ds) pre (globals_of e txn ds)) ds = None →
  let failed := <[x := py_none]> (fold_left (let_step txn ds) pre (globals_of e txn ds)) in
  failed !! x = Some py_none
  ∧ _evaluate_let_bindings r txn (globals_of e txn ds) ds
    = fold_left (let_step txn ds) post failed
  ∧ rule_scope r txn (globals_of e txn ds) ds = fold_left (let_step txn ds) post failed
  ∧ ((∀ b, b ∈ post → b.1 ≠ x) →
     rule_scope r txn (globals_of e txn ds) ds !! x = Some py_none)
  ∧ (rule_matches e txn ds r = true
     ↔ matches_transaction (match_expr r) txn (fold_left (let_step txn ds) post failed) ds
       = Some true)
  ∧ (r ∈ rules e →
     matches_transaction (match_expr r) txn (fold_left (let_step txn ds) post failed) ds
     = Some true →
     r ∈ res_all_matching_rules (engine_match e txn ds)).
Proof.
  intros Hlets Hfail failed.
  assert (_evaluate_let_bindings r txn (globals_of e txn ds) ds
          = fold_left (let_step txn ds) post failed) as Heval.
  { unfold _evaluate_let_bindings. rewrite Hlets, fold_left_app. cbn [fold_left].
    by rewrite (let_step_failed _ _ _ _ _ Hfail). }
  assert (rule_scope r txn (globals_of e txn ds) ds
          = fold_left (let_step txn ds) post failed) as Hscope.
  { unfold rule_scope. rewrite <- Heval. rewrite Hlets. by destruct pre. }
  assert (rule_matches e txn ds r = true
          ↔ matches_transaction (match_expr r) txn
              (fold_left (let_step txn ds) post failed) ds = Some true) as Hiff.
  { unfold rule_matches, matches_in. fold (globals_of e txn ds). rewrite Hscope.
    destruct (matches_transaction _ _ _ _) as [[]|]; split; congruence. }
  split; [apply lookup_insert_eq|].
  split; [done|]. split; [done|]. split.
  - intros Hpost. rewrite Hscope, let_steps_other by done. apply lookup_insert_eq.
  - split; [done|]. intros Hin Hm.
    rewrite all_matching_rules_spec. unfold matching_of.
    apply list_elem_of_In, filter_In. split; [by apply list_elem_of_In|].
    by apply Hiff.
Qed.

End EngineFacts.

(** ** The rule-file parser *)

Section ParserFacts.
Context `{EP : ExprParser}.
Implicit Types (st : parse_state) (rd : rule_data) (e : MerchantParseError).

Lemma add_rule_err_line rd (ln : nat) e :
  _add_rule rd ln = Err e → err_line_number e = ln.
Proof. unfold _add_rule. repeat case_match; intros [= <-]; done. Qed.

Lemma add_rule_merchant rd (ln : nat) (r : MerchantRule) :
  rd_name rd ≠ EmptyString → _add_rule rd ln = Ok r → has_merchant r = true.
Proof.
  intros Hname. unfold _add_rule. repeat case_match; intros [= <-]; try done.
  unfold has_merchant, MerchantRule_init. simpl.
  destruct (str_nonempty (default EmptyString (rd_merchant rd))) eqn:Hm; [done|].
  by destruct (rd_name rd).
Qed.

Lemma save_current_spec st :
  match save_current st with
  | (st', None) =>
      current_rule st' = current_rule st ∧ rule_start_line st' = rule_start_line st
      ∧ (names_ok st → names_ok st')
  | (st', Some e) =>
      st' = st ∧ is_Some (current_rule st) ∧ err_line_number e = rule_start_line st
  end.
Proof.
  unfold save_current. destruct (current_rule st) as [rd|] eqn:Hc; [|done].
  destruct (_add_rule rd (rule_start_line st)) as [r|e] eqn:Ha.
  - simpl. split; [done|]. split; [done|]. intros [Hn Hr]. split; simpl.
    + intros rd0 [= <-]. by apply Hn.
    + intros x [Hx|Hx]%elem_of_app; [by apply Hr|].
      apply list_elem_of_singleton in Hx as ->.
      eapply add_rule_merchant; [|done]. by apply Hn.
  - split; [done|]. split; [by eexists|]. by eapply add_rule_err_line.
Qed.

Lemma set_property_err_line rd (k v : string) (n : nat) e :
  set_property rd k v n = Err e → err_line_number e = n.
Proof.
  unfold set_property. destruct rd. repeat case_match; intros [= <-]; done.
Qed.

Lemma set_property_name rd (k v : string) (n : nat) rd' :
  set_property rd k v n = Ok rd' → rd_name rd' = rd_name rd.
Proof.
  unfold set_property. destruct rd. repeat case_match; intros [= <-]; done.
Qed.

Lemma set_property_keeps_match rd (k v : string) (n : nat) rd' :
  str_lower (str_strip k) ≠ "match" →
  set_property rd k v n = Ok rd' → rd_match_expr rd' = rd_match_expr rd.
Proof.
  intros Hk. unfold set_property. destruct rd.
  repeat case_match; intros [= <-]; done.
Qed.

Lemma set_property_defect rd (k v : string) (n : nat) (kind : parse_error_kind) :
  line_defect (str_lower (str_strip k)) (str_strip v) kind →
  set_property rd k v n = Err (mkParseError kind n).
Proof.
  intros Hd. unfold set_property. destruct rd. cbv zeta.
  remember (str_lower (str_strip k)) as key eqn:Hk.
  remember (str_strip v) as value eqn:Hv.
  clear Hk Hv. destruct Hd as [key value Hkey|value Hm|value Hm].
  - unfold known_keys in Hkey.
    repeat (rewrite decide_False; [|intros Heq; apply Hkey; rewrite Heq; set_solver]).
    done.
  - rewrite decide_True by done. by rewrite Hm.
  - rewrite decide_False by done. rewrite decide_True by done. by rewrite Hm.
Qed.

(** The four kinds of lines. *)
Lemma parse_line_blank st (n : nat) (line : string) :
  is_blank_or_comment (str_strip line) = true → parse_line st n line = (st, None).
Proof. intros H. unfold parse_line. by rewrite H. Qed.

Lemma header_not_blank (s : string) : is_header s = true → is_blank_or_comment s = false.
Proof.
  unfold is_header, is_blank_or_comment. destruct s as [|c s]; [done|].
  intros H%andb_true_iff%proj1. cbn [str_nonempty negb orb].
  destruct c as [[] [] [] [] [] [] [] []]; done.
Qed.

Lemma parse_line_header st (n : nat) (line : string) :
  header_line line →
  parse_line st n line =
    match save_current st with
    | (st1, Some e) => (st1, Some e)
    | (st1, None) =>
        if negb (str_nonempty (str_strip (str_inner (str_strip line))))
        then (st1, Some (mkParseError EmptyRuleName n))
        else (mkParse (p_rules st1) (p_variables st1) (p_transforms st1)
                (Some (new_rule_data (str_strip (str_inner (str_strip line))))) n, None)
    end.
Proof.
  intros H. unfold parse_line. unfold header_line in H.
  by rewrite (header_not_blank _ H), H.
Qed.

Lemma parse_line_in_rule st (n : nat) (line : string) rd :
  is_blank_or_comment (str_strip line) = false →
  is_header (str_strip line) = false →
  current_rule st = Some rd →
  parse_line st n line =
    match str_split_once (str_strip line) ":"%char with
    | Some (key, value) =>
        match set_property rd key value n with
        | Ok rd' =>
            (mkParse (p_rules st) (p_variables st) (p_transforms st)
               (Some rd') (rule_start_line st), None)
        | Err e => (st, Some e)
        end
    | None => (st, Some (mkParseError UnexpectedContent n))
    end.
Proof.
  intros Hb Hh Hc. unfold parse_line. rewrite Hb, Hh, Hc.
  rewrite bool_decide_eq_true_2 by by eexists.
  by rewrite andb_false_r.
Qed.

Lemma parse_line_top_level st (n : nat) (line : string) st' r :
  current_rule st = None →
  is_header (str_strip line) = false →
  parse_line st n line = (st', r) →
  r = None ∧ current_rule st' = None ∧ p_rules st' = p_rules st
  ∧ rule_start_line st' = rule_start_line st.
Proof.
  intros Hc Hh. unfold parse_line. rewrite Hh, Hc.
  repeat case_match; intros [= <- <-]; simpl; done.
Qed.

Lemma parse_line_inv st (n : nat) (line : string) st' r :
  line_numbers_ok st n → (1 ≤ n)%nat →
  parse_line st n line = (st', r) →
  match r with
  | None =>
      line_numbers_ok st' (S n)
      ∧ (is_Some (current_rule st) → is_Some (current_rule st'))
      ∧ (header_line line → is_Some (current_rule st'))
  | Some e => (1 ≤ err_line_number e ≤ n)%nat
  end.
Proof.
  intros Hok Hn.
  destruct (is_blank_or_comment (str_strip line)) eqn:Hb.
  { rewrite parse_line_blank by done. intros [= <- <-].
    split; [|split; [done|]].
    - intros Hs. specialize (Hok Hs). lia.
    - intros Hh. rewrite (header_not_blank _ Hh) in Hb. done. }
  destruct (is_header (str_strip line)) eqn:Hh.
  { rewrite parse_line_header by done.
    pose proof (save_current_spec st) as Hs.
    destruct (save_current st) as [st1 [e|]].
    - destruct Hs as (-> & Hsome & Hl). intros [= <- <-].
      specialize (Hok Hsome). lia.
    - destruct (negb _); intros [= <- <-]; simpl; [lia|].
      split; [|split; intros _; by eexists].
      intros _. simpl. lia. }
  destruct (current_rule st) as [rd|] eqn:Hc.
  - rewrite (parse_line_in_rule st n line rd) by done.
    destruct (str_split_once _ _) as [[k v]|].
    + destruct (set_property rd k v n) as [rd'|e] eqn:Hp; intros [= <- <-]; simpl.
      * split; [|split; [by eexists|]].
        -- intros _. simpl. unfold line_numbers_ok in Hok. rewrite Hc in Hok.
           specialize (Hok (mk_is_Some _ _ eq_refl)). lia.
        -- unfold header_line. congruence.
      * rewrite (set_property_err_line _ _ _ _ _ Hp). lia.
    + intros [= <- <-]. simpl. lia.
  - intros Hp. destruct (parse_line_top_level _ _ _ _ _ Hc Hh Hp) as (-> & Hc' & _ & _).
    split; [|split].
    + intros [? Hs]. congruence.
    + intros [? Hs]. congruence.
    + unfold header_line. congruence.
Qed.

Lemma parse_lines_app st (n : nat) (l1 l2 : list string) :
  parse_lines st n (l1 ++ l2) =
    match parse_lines st n l1 with
    | (st', None) => parse_lines st' (n + length l1) l2
    | (st', Some e) => (st', Some e)
    end.
Proof.
  revert st n. induction l1 as [|x l1 IH]; intros st n; simpl.
  - by rewrite Nat.add_0_r.
  - destruct (parse_line st n x) as [st' [e|]]; [done|].
    rewrite IH. by rewrite Nat.add_succ_r.
Qed.

Lemma parse_lines_inv (l : list string) st (n : nat) st' r :
  line_numbers_ok st n → (1 ≤ n)%nat →
  parse_lines st n l = (st', r) →
  match r with
  | None =>
      line_numbers_ok st' (n + length l)
      ∧ (is_Some (current_rule st) → is_Some (current_rule st'))
      ∧ ((∃ h, h ∈ l ∧ header_line h) → is_Some (current_rule st'))
  | Some e => (1 ≤ err_line_number e < n + length l)%nat
  end.
Proof.
  revert st n. induction l as [|x l IH]; intros st n Hok Hn; simpl.
  - intros [= <- <-]. rewrite Nat.add_0_r. split; [done|]. split; [done|].
    intros (h & Hh & _). by apply elem_of_nil in Hh.
  - destruct (parse_line st n x) as [st1 [e|]] eqn:Hx.
    + intros [= <- <-]. pose proof (parse_line_inv _ _ _ _ _ Hok Hn Hx) as H. simpl in H. lia.
    + pose proof (parse_line_inv _ _ _ _ _ Hok Hn Hx) as (H1 & H2 & H3).
      intros Hl. specialize (IH st1 (S n) H1 ltac:(lia) Hl).
      destruct r as [e|]; [lia|].
      destruct IH as (I1 & I2 & I3). rewrite Nat.add_succ_r.
      split; [done|]. split; [tauto|].
      intros (h & [->|Hh]%elem_of_cons & Hhl); [tauto|]. apply I3. eauto.
Qed.

Lemma initial_ok : line_numbers_ok initial_state 1.
Proof. intros [? H]. done. Qed.

Lemma parse_raises (en : MerchantEngine) (content : string) st e :
  parse_lines initial_state 1 (str_split_lines content) = (st, Some e) →
  parse en content = (engine_of (match_mode en) st, Some e).
Proof. intros H. unfold parse. fold initial_state. by rewrite H. Qed.

(** A line that raises in every state that the text before it can lead
    to makes [parse] raise, with a line number up to that of the line. *)
Lemma parse_raises_at (en : MerchantEngine) (content line : string) (i : nat) :
  str_split_lines content !! i = Some line →
  (∀ st, parse_lines initial_state 1 (take i (str_split_lines content)) = (st, None) →
         ∃ st' e, parse_line st (S i) line = (st', Some e)) →
  ∃ en' err,
    parse en content = (en', Some err)
    ∧ (1 ≤ err_line_number err ≤ S i)%nat
    ∧ (∀ st, parse_lines initial_state 1 (take i (str_split_lines content)) = (st, None) →
             parse_line st (S i) line = (st, Some err)
             ∨ ∃ st', parse_line st (S i) line = (st', Some err)).
Proof.
  intros Hi Hraise.
  pose proof (take_drop_middle _ _ _ Hi) as Hsplit.
  assert (length (take i (str_split_lines content)) = i) as Hlen.
  { apply length_take_le. apply lookup_lt_Some in Hi. lia. }
  destruct (parse_lines initial_state 1 (take i (str_split_lines content)))
    as [st r] eqn:Hpre.
  pose proof (parse_lines_inv _ _ _ _ _ initial_ok (le_n 1) Hpre) as Hinv.
  destruct r as [e|].
  - exists (engine_of (match_mode en) st), e. split; [|split].
    + apply parse_raises. rewrite <- Hsplit, parse_lines_app, Hpre. done.
    + lia.
    + intros st0 [=].
  - destruct (Hraise st eq_refl) as (st' & e & Hline).
    destruct Hinv as (Hok & _).
    pose proof (parse_line_inv st (S i) line st' (Some e)) as Hb.
    rewrite Hlen in Hok. specialize (Hb Hok ltac:(lia) Hline). simpl in Hb.
    exists (engine_of (match_mode en) st'), e. split; [|split].
    + apply parse_raises. rewrite <- Hsplit, parse_lines_app, Hpre, Hlen.
      simpl. by rewrite Hline.
    + lia.
    + intros st0 [= <-]. right. eauto.
Qed.

End ParserFacts.

Section ParserProperties.
Context `{EP : ExprParser}.
Implicit Types (st : parse_state) (rd : rule_data) (en : MerchantEngine).

Lemma take_has_line (lines : list string) (i j : nat) (h : string) :
  (j < i)%nat → lines !! j = Some h → h ∈ take i lines.
Proof.
  intros Hj Hl. apply list_elem_of_lookup. exists j. by rewrite lookup_take_lt.
Qed.

Lemma parse_line_names st (n : nat) (line : string) st' r :
  names_ok st → parse_line st n line = (st', r) → names_ok st'.
Proof.
  intros Hok.
  destruct (is_blank_or_comment (str_strip line)) eqn:Hb.
  { rewrite parse_line_blank by done. by intros [= <- <-]. }
  destruct (is_header (str_strip line)) eqn:Hh.
  { rewrite parse_line_header by done.
    pose proof (save_current_spec st) as Hs.
    destruct (save_current st) as [st1 [e|]].
    - destruct Hs as (-> & _). by intros [= <- <-].
    - destruct Hs as (_ & _ & Hn). specialize (Hn Hok).
      destruct (str_nonempty (str_strip (str_inner (str_strip line)))) eqn:Hne;
        simpl; intros [= <- <-]; [|done].
      destruct Hn as [_ Hr]. split; [|done].
      simpl. intros rd [= <-]. simpl. intros Heq. by rewrite Heq in Hne. }
  destruct (current_rule st) as [rd|] eqn:Hc.
  - rewrite (parse_line_in_rule st n line rd) by done.
    destruct (str_split_once _ _) as [[k v]|]; [|by intros [= <- <-]].
    destruct (set_property rd k v n) as [rd'|e] eqn:Hp; intros [= <- <-]; [|done].
    destruct Hok as [Hn Hr]. split; [|done].
    simpl. intros rd0 [= <-]. rewrite (set_property_name _ _ _ _ _ Hp). by apply Hn.
  - intros Hp. destruct (parse_line_top_level _ _ _ _ _ Hc Hh Hp) as (_ & Hc' & Hr' & _).
    destruct Hok as [_ Hr]. split; [intros rd; congruence|]. by rewrite Hr'.
Qed.

Lemma parse_lines_names (l : list string) st (n : nat) st' r :
  names_ok st → parse_lines st n l = (st', r) → names_ok st'.
Proof.
  revert st n. induction l as [|x l IH]; intros st n Hok; simpl.
  - by intros [= <- <-].
  - destruct (parse_line st n x) as [st1 [e|]] eqn:Hx.
    + intros [= <- <-]. by eapply parse_line_names.
    + apply IH. by eapply parse_line_names.
Qed.

Lemma initial_names_ok : names_ok initial_state.
Proof. split; [done|]. intros r Hr. by apply elem_of_nil in Hr. Qed.

(** Every rule of an engine that [parse] leaves behind has a merchant. *)
Lemma parsed_rules_have_merchant en (content : string) en' r :
  parse en content = (en', r) → ∀ rule, rule ∈ rules en' → has_merchant rule = true.
Proof.
  unfold parse. fold initial_state.
  destruct (parse_lines initial_state 1 (str_split_lines content)) as [st [e|]] eqn:Hl.
  - intros [= <- <-]. simpl.
    by apply (parse_lines_names _ _ _ _ _ initial_names_ok Hl).
  - pose proof (parse_lines_names _ _ _ _ _ initial_names_ok Hl) as Hok.
    pose proof (save_current_spec st) as Hs.
    destruct (save_current st) as [st1 [e|]]; intros [= <- <-]; simpl.
    + destruct Hs as (-> & _). apply Hok.
    + destruct Hs as (_ & _ & Hn). by apply Hn.
Qed.

Lemma parse_line_rules_grow st (n : nat) (line : string) st' r :
  parse_line st n line = (st', r) → p_rules st `prefix_of` p_rules st'.
Proof.
  unfold parse_line, save_current.
  repeat case_match; intros [= <- <-]; simplify_eq; simpl;
    try done; by apply prefix_app_r.
Qed.

Lemma parse_lines_rules_grow (l : list string) st (n : nat) st' r :
  parse_lines st n l = (st', r) → p_rules st `prefix_of` p_rules st'.
Proof.
  revert st n. induction l as [|x l IH]; intros st n; simpl.
  - by intros [= <- <-].
  - destruct (parse_line st n x) as [st1 [e|]] eqn:Hx.
    + intros [= <- <-]. by eapply parse_line_rules_grow.
    + intros Hl. etrans; [by eapply parse_line_rules_grow|by eapply IH].
Qed.

(** The rules completed by any part of the text that parsed are still in
    the engine when a later line makes [parse] raise. *)
Lemma parse_keeps_completed_rules en (content : string) en' r (k : nat) st :
  parse en content = (en', r) →
  parse_lines initial_state 1 (take k (str_split_lines content)) = (st, None) →
  p_rules st `prefix_of` rules en'.
Proof.
  unfold parse. fold initial_state. intros Hp Hk.
  rewrite <- (take_drop k (str_split_lines content)), parse_lines_app, Hk in Hp.
  destruct (parse_lines st _ (drop k _)) as [st2 [e|]] eqn:Hd.
  - injection Hp as <- <-. simpl. by eapply parse_lines_rules_grow.
  - pose proof (parse_lines_rules_grow _ _ _ _ _ Hd) as Hg.
    unfold save_current in Hp.
    repeat case_match; injection Hp as <- <-; simplify_eq; simpl; try done.
    etrans; [done|]. by apply prefix_app_r.
Qed.

(** An empty rule name. *)
Lemma empty_name_raises en (content line : string) (i : nat) :
  str_split_lines content !! i = Some line →
  empty_header line →
  ∃ en' err,
    parse en content = (en', Some err)
    ∧ (1 ≤ err_line_number err ≤ S i)%nat
    ∧ (∀ st st1,
         parse_lines initial_state 1 (take i (str_split_lines content)) = (st, None) →
         save_current st = (st1, None) →
         err = mkParseError EmptyRuleName (S i)).
Proof.
  intros Hi [Hh Hempty].
  assert (∀ st, ∃ st' e, parse_line st (S i) line = (st', Some e)) as Hraise.
  { intros st. rewrite parse_line_header by done.
    destruct (save_current st) as [st1 [e|]]; [by eauto|].
    rewrite Hempty. simpl. eauto. }
  destruct (parse_raises_at en content line i Hi (λ st _, Hraise st))
    as (en' & err & Hp & Hb & Hex).
  exists en', err. split; [done|]. split; [done|].
  intros st st1 Hpre Hsave.
  assert (∃ st', parse_line st (S i) line = (st', Some err)) as [st' Hl].
  { destruct (Hex st Hpre) as [H|H]; eauto. }
  rewrite parse_line_header, Hsave, Hempty in Hl by done. simpl in Hl. congruence.
Qed.

(** An unknown property key, or a malformed [let:] or [field:], inside a
    rule block. *)
Lemma line_defect_raises en (content hdr line key value : string) (i j : nat)
    (kind : parse_error_kind) :
  (j < i)%nat →
  str_split_lines content !! j = Some hdr → header_line hdr →
  str_split_lines content !! i = Some line →
  property_line line key value →
  line_defect key value kind →
  ∃ en' err,
    parse en content = (en', Some err)
    ∧ (1 ≤ err_line_number err ≤ S i)%nat
    ∧ (∀ st,
         parse_lines initial_state 1 (take i (str_split_lines content)) = (st, None) →
         err = mkParseError kind (S i)).
Proof.
  intros Hj Hhdr Hh Hi (Hb & Hnh & k & v & Hsplit & -> & ->) Hdef.
  assert (∀ st, parse_lines initial_state 1 (take i (str_split_lines content)) = (st, None) →
                parse_line st (S i) line = (st, Some (mkParseError kind (S i)))) as Hraise.
  { intros st Hpre.
    pose proof (parse_lines_inv _ _ _ _ _ initial_ok (le_n 1) Hpre) as (_ & _ & Hcur).
    destruct Hcur as [rd Hrd].
    { exists hdr. split; [|done]. by eapply take_has_line. }
    rewrite (parse_line_in_rule st (S i) line rd), Hsplit by done.
    by rewrite (set_property_defect rd k v (S i) kind Hdef). }
  destruct (parse_raises_at en content line i Hi) as (en' & err & Hp & Hbd & Hex).
  { intros st Hpre. rewrite (Hraise st Hpre). eauto. }
  exists en', err. split; [done|]. split; [done|].
  intros st Hpre.
  destruct (Hex st Hpre) as [H|[st' H]]; rewrite (Hraise st Hpre) in H; congruence.
Qed.

(** A property [Q] of the open rule that the lines of a block keep. *)
Lemma block_keeps (Q : rule_data → Prop) (C : string → Prop) :
  (∀ rd line k v n rd',
     Q rd → C line →
     is_blank_or_comment (str_strip line) = false →
     is_header (str_strip line) = false →
     str_split_once (str_strip line) ":"%char = Some (k, v) →
     set_property rd k v n = Ok rd' → Q rd') →
  ∀ (body : list string) st (n : nat) st' rd,
    current_rule st = Some rd → Q rd →
    (∀ l, l ∈ body → ¬ header_line l ∧ C l) →
    parse_lines st n body = (st', None) →
    ∃ rd', current_rule st' = Some rd' ∧ Q rd'
           ∧ rule_start_line st' = rule_start_line st.
Proof.
  intros Hkeep body. induction body as [|x body IH]; intros st n st' rd Hc HQ Hbody; simpl.
  - intros [= <-]. eauto.
  - destruct (Hbody x) as [Hnh HC]; [set_solver|].
    assert (∀ l, l ∈ body → ¬ header_line l ∧ C l) as Hbody' by (intros; apply Hbody; set_solver).
    destruct (is_blank_or_comment (str_strip x)) eqn:Hb.
    { rewrite parse_line_blank by done. by apply (IH st (S n) st' rd). }
    destruct (is_header (str_strip x)) eqn:Hh; [done|].
    rewrite (parse_line_in_rule st n x rd) by done.
    destruct (str_split_once _ _) as [[k v]|] eqn:Hs; [|done].
    destruct (set_property rd k v n) as [rd'|e] eqn:Hp; [|done].
    intros Hl.
    eapply (IH _ _ _ rd') in Hl as (rd2 & H1 & H2 & H3);
      [|done|by eapply Hkeep|done].
    exists rd2. done.
Qed.

(** A rule block whose open rule cannot be added makes [parse] raise with
    the line number of its header, unless an earlier line raises. *)
Lemma incomplete_rule_raises (Q : rule_data → Prop) (C : string → Prop)
    en (content : string) (pre body rest : list string) (hdr : string) :
  (∀ rd line k v n rd',
     Q rd → C line →
     is_blank_or_comment (str_strip line) = false →
     is_header (str_strip line) = false →
     str_split_once (str_strip line) ":"%char = Some (k, v) →
     set_property rd k v n = Ok rd' → Q rd') →
  (∀ rd ln, Q rd → ∃ e, _add_rule rd ln = Err e) →
  (∀ rule_name, Q (new_rule_data rule_name)) →
  str_split_lines content = pre ++ hdr :: body ++ rest →
  header_line hdr →
  (∀ l, l ∈ body → ¬ header_line l ∧ C l) →
  (rest = [] ∨ ∃ h r, rest = h :: r ∧ header_line h) →
  ∃ en' err,
    parse en content = (en', Some err)
    ∧ (1 ≤ err_line_number err ≤ S (length pre + length body))%nat
    ∧ (∀ st, parse_lines initial_state 1 (pre ++ hdr :: body) = (st, None) →
             err_line_number err = S (length pre)).
Proof.
  intros Hkeep Hbad Hnew Hlines Hh Hbody Hrest.
  unfold parse. fold initial_state.
  rewrite Hlines.
  replace (pre ++ hdr :: body ++ rest) with ((pre ++ hdr :: body) ++ rest)
    by (by rewrite <- app_assoc).
  rewrite (parse_lines_app _ _ (pre ++ hdr :: body) rest).
  destruct (parse_lines initial_state 1 (pre ++ hdr :: body)) as [st [e|]] eqn:Hblock.
  { pose proof (parse_lines_inv _ _ _ _ _ initial_ok (le_n 1) Hblock) as Hb.
    simpl in Hb. rewrite length_app in Hb. simpl in Hb.
    eexists _, e. split; [done|]. split; [lia|]. intros st0 [=]. }
  (* the block parsed: its rule is open and incomplete *)
  assert (∃ rd, current_rule st = Some rd ∧ Q rd ∧ rule_start_line st = S (length pre))
    as (rd & Hc & HQ & Hstart).
  { rewrite parse_lines_app in Hblock.
    destruct (parse_lines initial_state 1 pre) as [s0 [e|]] eqn:Hpre; [done|].
    simpl in Hblock. rewrite parse_line_header in Hblock by done.
    destruct (save_current s0) as [s1 [e|]]; [done|].
    destruct (negb _); [done|].
    match type of Hblock with
    | parse_lines (mkParse ?a ?b ?c (Some ?rd0) ?ln) ?n _ = _ =>
        destruct (block_keeps Q C Hkeep body (mkParse a b c (Some rd0) ln) n st rd0
                    eq_refl (Hnew _) Hbody Hblock)
          as (rd & H1 & H2 & H3)
    end.
    exists rd. simpl in H3. split; [done|]. split; [done|]. lia. }
  destruct (Hbad rd (rule_start_line st) HQ) as [e He].
  assert (save_current st = (st, Some e)) as Hsave.
  { unfold save_current. by rewrite Hc, He. }
  pose proof (add_rule_err_line _ _ _ He) as Hline.
  destruct Hrest as [->|(h & r & -> & Hhh)].
  - simpl. rewrite Hsave. eexists _, e. split; [done|]. split; [lia|].
    intros st0 [= <-]. lia.
  - simpl. rewrite parse_line_header, Hsave by done.
    eexists _, e. split; [done|]. split; [lia|]. intros st0 [= <-]. lia.
Qed.

Lemma keeps_missing_match rd (line k v : string) (n : nat) rd' :
  rd_match_expr rd = None →
  (∀ value, ¬ property_line line "match" value) →
  is_blank_or_comment (str_strip line) = false →
  is_header (str_strip line) = false →
  str_split_once (str_strip line) ":"%char = Some (k, v) →
  set_property rd k v n = Ok rd' → rd_match_expr rd' = None.
Proof.
  intros HQ HC Hb Hh Hs Hp.
  assert (str_lower (str_strip k) ≠ "match") as Hk.
  { intros Hk. apply (HC (str_strip v)). split; [done|]. split; [done|].
    exists k, v. by rewrite Hk. }
  by rewrite (set_property_keeps_match rd k v n rd' Hk Hp).
Qed.

Lemma add_rule_missing_match rd (ln : nat) :
  rd_match_expr rd = None →
  _add_rule rd ln = Err (mkParseError (MissingMatch (rd_name rd)) ln).
Proof. intros H. unfold _add_rule. by rewrite H. Qed.

Lemma property_of_spec (line key value : string) :
  property_line line key value ↔ property_of line = Some (key, value).
Proof.
  unfold property_line, property_of. cbv zeta. split.
  - intros (-> & -> & k & v & -> & -> & ->). done.
  - destruct (is_blank_or_comment (str_strip line)); [done|].
    destruct (is_header (str_strip line)); [done|]. simpl.
    destruct (str_split_once (str_strip line) ":") as [[k v]|]; [|done].
    intros [= <- <-]. split; [done|]. split; [done|]. by exists k, v.
Qed.

Lemma declared_none (key : string) (lines : list string) :
  (∀ l, l ∈ lines → ∀ value, ¬ property_line l key value) → declared key lines = None.
Proof.
  unfold declared. induction lines as [|x lines IH]; intros H; [done|].
  simpl. unfold declare at 2.
  destruct (property_of x) as [[k v]|] eqn:Hx; [|apply IH; intros; apply H; set_solver].
  case_decide as Hk; [|apply IH; intros; apply H; set_solver].
  subst k. apply property_of_spec in Hx. destruct (H x ltac:(set_solver) v Hx).
Qed.

(** A block without any [category:] and [tags:] line lacks both. *)
Lemma absent_lines_lack (body : list string) :
  (∀ l, l ∈ body →
        ∀ value, ¬ property_line l "category" value ∧ ¬ property_line l "tags" value) →
  lacks_category_and_tags body.
Proof.
  intros H. unfold lacks_category_and_tags.
  rewrite !declared_none; [done| |]; intros l Hl value; by destruct (H l Hl value).
Qed.

Lemma declared_snoc (key : string) (lines : list string) (line : string) :
  declared key (lines ++ [line]) = declare key (declared key lines) line.
Proof. unfold declared. by rewrite fold_left_app. Qed.

(** What a property line does to the name, the match expression, the
    category and the tags of the open rule. *)
Lemma set_property_declares rd (k v : string) (n : nat) rd' :
  set_property rd k v n = Ok rd' →
  rd_name rd' = rd_name rd
  ∧ rd_match_expr rd'
    = (if decide (str_lower (str_strip k) = "match") then Some (str_strip v)
       else rd_match_expr rd)
  ∧ rd_category rd'
    = (if decide (str_lower (str_strip k) = "category") then Some (str_strip v)
       else rd_category rd)
  ∧ rd_tags rd'
    = (if decide (str_lower (str_strip k) = "tags") then Some (parse_tags (str_strip v))
       else rd_tags rd).
Proof.
  unfold set_property. destruct rd. cbv zeta.
  generalize (str_lower (str_strip k)). intros key.
  repeat (case_decide; [subst key|]); repeat case_match; intros [= <-]; simpl;
    repeat case_decide; done.
Qed.

(** The match expression, the category and the tags of the open rule
    are those that the lines of its block declare. *)
Lemma block_declares (body : list string) :
  ∀ (seen : list string) st (n : nat) st' rd,
    current_rule st = Some rd →
    rd_match_expr rd = declared "match" seen →
    rd_category rd = declared "category" seen →
    rd_tags rd = parse_tags <$> declared "tags" seen →
    (∀ l, l ∈ body → ¬ header_line l) →
    parse_lines st n body = (st', None) →
    ∃ rd', current_rule st' = Some rd'
           ∧ rd_name rd' = rd_name rd
           ∧ rd_match_expr rd' = declared "match" (seen ++ body)
           ∧ rd_category rd' = declared "category" (seen ++ body)
           ∧ rd_tags rd' = parse_tags <$> declared "tags" (seen ++ body)
           ∧ rule_start_line st' = rule_start_line st.
Proof.
  induction body as [|x body IH];
    intros seen st n st' rd Hc Hmatch Hcat Htags Hbody; simpl.
  - intros [= <-]. rewrite app_nil_r. exists rd. done.
  - assert (∀ l, l ∈ body → ¬ header_line l) as Hbody' by (intros; apply Hbody; set_solver).
    replace (seen ++ x :: body) with ((seen ++ [x]) ++ body) by by rewrite <- app_assoc.
    destruct (is_blank_or_comment (str_strip x)) eqn:Hb.
    { rewrite parse_line_blank by done.
      apply (IH (seen ++ [x]) st (S n) st' rd); try done;
        rewrite declared_snoc; unfold declare, property_of; cbv zeta; by rewrite Hb. }
    destruct (is_header (str_strip x)) eqn:Hh.
    { exfalso. apply (Hbody x); [set_solver|done]. }
    rewrite (parse_line_in_rule st n x rd) by done.
    destruct (str_split_once _ _) as [[k v]|] eqn:Hs; [|done].
    destruct (set_property rd k v n) as [rd'|e] eqn:Hp; [|done].
    destruct (set_property_declares _ _ _ _ _ Hp) as (H0 & Hm & H1 & H2).
    intros Hl.
    eapply (IH (seen ++ [x]) _ _ _ rd') in Hl as (rd2 & H3 & Hn & H4 & H5 & H6 & H7);
      try done.
    + exists rd2. rewrite Hn, H0. done.
    + rewrite declared_snoc, Hm, Hmatch. unfold declare, property_of. cbv zeta.
      rewrite Hb, Hh, Hs. simpl. done.
    + rewrite declared_snoc, H1, Hcat. unfold declare, property_of. cbv zeta.
      rewrite Hb, Hh, Hs. simpl. done.
    + rewrite declared_snoc, H2, Htags. unfold declare, property_of. cbv zeta.
      rewrite Hb, Hh, Hs. simpl. by case_decide.
Qed.

Lemma add_rule_untruthy rd (ln : nat) :
  from_option str_nonempty false (rd_category rd) = false →
  from_option set_nonempty false (rd_tags rd) = false →
  _add_rule rd ln
  = Err (mkParseError
           (match rd_match_expr rd with
            | None => MissingMatch (rd_name rd)
            | Some _ => MissingCategoryOrTags (rd_name rd)
            end) ln).
Proof.
  intros H1 H2. unfold _add_rule. rewrite H1, H2. simpl.
  by destruct (rd_match_expr rd).
Qed.

(** A rule block that declares neither a category nor a tag makes
    [parse] raise with the line number of its header, unless an earlier
    line raises: the error is that of the missing match expression when
    the block has no [match:] line, and that of the missing category and
    tags otherwise. *)
Lemma lacking_rule_raises en (content : string) (pre body rest : list string)
    (hdr : string) :
  str_split_lines content = pre ++ hdr :: body ++ rest →
  header_line hdr →
  (∀ l, l ∈ body → ¬ header_line l) →
  lacks_category_and_tags body →
  (rest = [] ∨ ∃ h r, rest = h :: r ∧ header_line h) →
  ∃ en' err,
    parse en content = (en', Some err)
    ∧ (1 ≤ err_line_number err ≤ S (length pre + length body))%nat
    ∧ (∀ st, parse_lines initial_state 1 (pre ++ hdr :: body) = (st, None) →
             err_line_number err = S (length pre)
             ∧ err_kind err
               = match declared "match" body with
                 | None => MissingMatch (str_strip (str_inner (str_strip hdr)))
                 | Some _ => MissingCategoryOrTags (str_strip (str_inner (str_strip hdr)))
                 end).
Proof.
  intros Hlines Hh Hbody [Hcat Htags] Hrest.
  unfold parse. fold initial_state.
  rewrite Hlines.
  replace (pre ++ hdr :: body ++ rest) with ((pre ++ hdr :: body) ++ rest)
    by (by rewrite <- app_assoc).
  rewrite (parse_lines_app _ _ (pre ++ hdr :: body) rest).
  destruct (parse_lines initial_state 1 (pre ++ hdr :: body)) as [st [e|]] eqn:Hblock.
  { pose proof (parse_lines_inv _ _ _ _ _ initial_ok (le_n 1) Hblock) as Hb.
    simpl in Hb. rewrite length_app in Hb. simpl in Hb.
    eexists _, e. split; [done|]. split; [lia|]. intros st0 [=]. }
  assert (∃ rd, current_rule st = Some rd
                ∧ rd_name rd = str_strip (str_inner (str_strip hdr))
                ∧ rd_match_expr rd = declared "match" body
                ∧ rd_category rd = declared "category" body
                ∧ rd_tags rd = parse_tags <$> declared "tags" body
                ∧ rule_start_line st = S (length pre))
    as (rd & Hc & Hrn & Hrm & Hrc & Hrt & Hstart).
  { rewrite parse_lines_app in Hblock.
    destruct (parse_lines initial_state 1 pre) as [s0 [e|]] eqn:Hpre; [done|].
    simpl in Hblock. rewrite parse_line_header in Hblock by done.
    destruct (save_current s0) as [s1 [e|]]; [done|].
    destruct (negb _); [done|].
    match type of Hblock with
    | parse_lines (mkParse ?a ?b ?c (Some ?rd0) ?ln) ?n _ = _ =>
        destruct (block_declares body [] (mkParse a b c (Some rd0) ln) n st rd0
                    eq_refl eq_refl eq_refl eq_refl Hbody Hblock)
          as (rd & H1 & H0 & H2 & H3 & H4 & H5)
    end.
    exists rd. simpl in H5. split_and!; done. }
  pose proof (add_rule_untruthy rd (rule_start_line st)) as He.
  rewrite Hrc, Hrt, Hrm, Hrn, Hstart in He. specialize (He Hcat).
  assert (from_option set_nonempty false (parse_tags <$> declared "tags" body) = false)
    as Htags' by by destruct (declared "tags" body).
  specialize (He Htags').
  assert (∃ e, save_current st = (st, Some e)
               ∧ err_line_number e = S (length pre)
               ∧ err_kind e
                 = match declared "match" body with
                   | None => MissingMatch (str_strip (str_inner (str_strip hdr)))
                   | Some _ => MissingCategoryOrTags (str_strip (str_inner (str_strip hdr)))
                   end) as (e & Hsave & Hline & Hkind).
  { eexists. unfold save_current. rewrite Hc, Hstart, He. done. }
  destruct Hrest as [->|(h & r & -> & Hhh)].
  - simpl. rewrite Hsave. eexists _, e. split; [done|]. split; [lia|].
    by intros st0 [= <-].
  - simpl. rewrite parse_line_header, Hsave by done.
    eexists _, e. split; [done|]. split; [lia|]. by intros st0 [= <-].
Qed.

Lemma parse_merchants_spec (content mode : string) :
  match parse_merchants content mode with
  | Ok en => parse (mkEngine [] [] [] mode) content = (en, None)
  | Err err => ∃ en, parse (mkEngine [] [] [] mode) content = (en, Some err)
  end.
Proof.
  unfold parse_merchants.
  destruct (parse _ content) as [en [err|]]; eauto.
Qed.

End ParserProperties.

(** ** Parsing fails closed; merchants; specificity *)

Section EngineAndParser.
Context `{EP : ExprParser}.
Implicit Types (en e : MerchantEngine) (txn : transaction) (ds : data_sources).

(** C5, as amended: a structurally invalid element inside a rule block
    (an empty rule name, an unknown property key, a malformed [let:] or
    [field:], a block without [match:], a block that lacks both a
    category and tags) makes [parse] raise a [MerchantParseError] whose
    line number is at least 1 and at most that of the element; when the
    text before the element parses, the line number is that of the
    offending line, or of the header of the offending block.  A block
    lacks a category when it has no [category:] line or the last one has
    an empty value, and it lacks tags when it has no [tags:] line or the
    last one holds no tag, so a block without any [category:] and
    [tags:] line lacks both; the error is then that of the missing match
    expression when the block has no [match:] line either, and that of
    the missing category and tags otherwise.  [parse_merchants] and
    [load_merchants_file] then return no engine.  The engine on which
    [parse] itself was called keeps the rules of the blocks completed
    before the failure. *)
Theorem parse_fails_closed en (content : string) :
  (∀ (i : nat) line,
     str_split_lines content !! i = Some line → empty_header line →
     ∃ en' err,
       parse en content = (en', Some err)
       ∧ (1 ≤ err_line_number err ≤ S i)%nat
       ∧ (∀ st st1,
            parse_lines initial_state 1 (take i (str_split_lines content)) = (st, None) →
            save_current st = (st1, None) →
            err = mkParseError EmptyRuleName (S i)))
  ∧ (∀ (i j : nat) hdr line key value kind,
       (j < i)%nat →
       str_split_lines content !! j = Some hdr → header_line hdr →
       str_split_lines content !! i = Some line →
       property_line line key value → line_defect key value kind →
       ∃ en' err,
         parse en content = (en', Some err)
         ∧ (1 ≤ err_line_number err ≤ S i)%nat
         ∧ (∀ st,
              parse_lines initial_state 1 (take i (str_split_lines content)) = (st, None) →
              err = mkParseError kind (S i)))
  ∧ (∀ pre hdr body rest,
       str_split_lines content = pre ++ hdr :: body ++ rest →
       header_line hdr →
       (∀ l, l ∈ body → ¬ header_line l ∧ ∀ value, ¬ property_line l "match" value) →
       rest = [] ∨ (∃ h r, rest = h :: r ∧ header_line h) →
       ∃ en' err,
         parse en content = (en', Some err)
         ∧ (1 ≤ err_line_number err ≤ S (length pre + length body))%nat
         ∧ (∀ st, parse_lines initial_state 1 (pre ++ hdr :: body) = (st, None) →
                  err_line_number err = S (length pre)))
  ∧ (∀ pre hdr body rest,
       str_split_lines content = pre ++ hdr :: body ++ rest →
       header_line hdr →
       (∀ l, l ∈ body → ¬ header_line l) →
       lacks_category_and_tags body →
       rest = [] ∨ (∃ h r, rest = h :: r ∧ header_line h) →
       ∃ en' err,
         parse en content = (en', Some err)
         ∧ (1 ≤ err_line_number err ≤ S (length pre + length body))%nat
         ∧ (∀ st, parse_lines initial_state 1 (pre ++ hdr :: body) = (st, None) →
                  err_line_number err = S (length pre)
                  ∧ err_kind err
                    = match declared "match" body with
                      | None => MissingMatch (str_strip (str_inner (str_strip hdr)))
                      | Some _ =>
                          MissingCategoryOrTags (str_strip (str_inner (str_strip hdr)))
                      end))
  ∧ (∀ l key value, property_line l key value ↔ property_of l = Some (key, value))
  ∧ (∀ body,
       (∀ l, l ∈ body →
             ∀ value, ¬ property_line l "category" value
                      ∧ ¬ property_line l "tags" value) →
       lacks_category_and_tags body)
  ∧ (∀ mode en' err,
       parse (mkEngine [] [] [] mode) content = (en', Some err) →
       parse_merchants content mode = Err err
       ∧ load_merchants_file content mode = Err err)
  ∧ (∀ en' r (k : nat) st,
       parse en content = (en', r) →
       parse_lines initial_state 1 (take k (str_split_lines content)) = (st, None) →
       p_rules st `prefix_of` rules en').
Proof.
  split; [|split; [|split; [|split; [|split; [|split; [|split]]]]]].
  - intros i line. apply empty_name_raises.
  - intros i j hdr line key value kind. apply line_defect_raises.
  - intros pre hdr body rest.
    apply (incomplete_rule_raises (λ rd, rd_match_expr rd = None)
             (λ l, ∀ value, ¬ property_line l "match" value)).
    + intros rd line k v n rd'. apply keeps_missing_match.
    + intros rd ln H. rewrite add_rule_missing_match by done. eauto.
    + done.
  - intros pre hdr body rest. apply lacking_rule_raises.
  - apply property_of_spec.
  - apply absent_lines_lack.
  - intros mode en' err H. unfold load_merchants_file, load_file, parse_merchants.
    by rewrite H.
  - intros en' r k st. apply parse_keeps_completed_rules.
Qed.

(** C10, as amended: a rule built from a non-empty name has a non-empty
    merchant, which is the name when no merchant is given; so has every
    rule that [parse] stores.  For a rule set whose rules all have a
    merchant, in a mode other than [first_match] all matching rules
    compete for the merchant: when a rule matches, the merchant of the
    result is that of the first matching rule of maximal specificity,
    whether or not any rule declares a category. *)
Theorem merchant_is_always_set :
  (∀ name match_expr category subcategory merchant0 tags priority line lets fields transform,
     name ≠ EmptyString →
     has_merchant (MerchantRule_init name match_expr category subcategory merchant0
                     tags priority line lets fields transform) = true
     ∧ (merchant0 = EmptyString →
        merchant (MerchantRule_init name match_expr category subcategory merchant0
                    tags priority line lets fields transform) = name))
  ∧ (∀ en content en' r,
       parse en content = (en', r) → ∀ rule, rule ∈ rules en' → has_merchant rule = true)
  ∧ (∀ e txn ds,
       match_mode e ≠ "first_match" →
       (∀ r, r ∈ rules e → has_merchant r = true) →
       matching_of e txn ds ≠ [] →
       ∃ w, res_merchant_rule (engine_match e txn ds) = Some w
            ∧ res_merchant (engine_match e txn ds) = merchant w
            ∧ merchant w ≠ EmptyString
            ∧ first_maximal w (matching_of e txn ds)).
Proof.
  split; [|split].
  - intros name match_expr category subcategory merchant0 tags priority line lets
      fields transform Hname.
    unfold has_merchant, MerchantRule_init. simpl. split.
    + destruct (str_nonempty merchant0) eqn:Hm; [done|]. by destruct name.
    + intros ->. done.
  - intros en content en' r. apply parsed_rules_have_merchant.
  - intros e txn ds Hmode Hall Hne.
    destruct (most_specific_merchant e txn ds Hmode Hall Hne) as (w & H1 & H2 & H3).
    exists w. split; [done|]. split; [done|]. split; [|done].
    assert (has_merchant w = true) as Hw.
    { apply Hall. apply first_maximal_elem in H3.
      unfold matching_of in H3. apply list_elem_of_In, filter_In in H3 as [H3 _].
      by apply list_elem_of_In. }
    unfold has_merchant in Hw. by destruct (merchant w).
Qed.


End EngineAndParser.

(** ** The rule cache *)

Section CacheFacts.
Context `{EP : ExprParser}.
Implicit Types (e : MerchantEngine) (ds : data_sources) (r : MerchantRule).

Lemma insert_row_first (x : rule_row) (l : list rule_row) :
  Forall (λ y, (row_position x < row_position y)%nat) l → insert_row x l = x :: l.
Proof.
  destruct l as [|y l]; [done|]. intros H. apply Forall_cons in H as [H _].
  simpl. apply Nat.ltb_lt in H. by rewrite H.
Qed.

Lemma order_by_position_sorted (l : list rule_row) :
  StronglySorted (λ a b, (row_position a < row_position b)%nat) l →
  order_by_position l = l.
Proof.
  induction 1 as [|x l Hs IH Hx]; [done|].
  unfold order_by_position in *. simpl. rewrite IH. by apply insert_row_first.
Qed.

Lemma filter_Forall {A} (P : A → Prop) (Q : A → bool) (l : list A) :
  Forall P l → Forall P (List.filter Q l).
Proof.
  induction 1 as [|x l Hx Hl IH]; simpl; [done|].
  destruct (Q x); [by constructor|done].
Qed.

Lemma filter_sorted {A} (R : A → A → Prop) (Q : A → bool) (l : list A) :
  StronglySorted R l → StronglySorted R (List.filter Q l).
Proof.
  induction 1 as [|x l Hs IH Hx]; simpl; [constructor|].
  destruct (Q x); [|done]. constructor; [done|]. by apply filter_Forall.
Qed.

Lemma rows_sorted (rules : list MerchantRule) (k : nat) :
  StronglySorted (λ a b, (row_position a < row_position b)%nat)
    (imap (λ i, rule_row_of (k + i)) rules)
  ∧ Forall (λ y, (k ≤ row_position y)%nat) (imap (λ i, rule_row_of (k + i)) rules).
Proof.
  revert k. induction rules as [|r rules IH]; intros k.
  - split; constructor.
  - rewrite imap_cons.
    assert (imap ((λ i, rule_row_of (k + i)) ∘ S) rules
            = imap (λ i, rule_row_of (S k + i)) rules) as ->.
    { apply imap_ext. intros i x _. simpl. f_equal. lia. }
    destruct (IH (S k)) as [H1 H2]. split.
    + constructor; [done|].
      eapply Forall_impl; [exact H2|]. intros y Hy. unfold rule_row_of. simpl in *. lia.
    + constructor; [unfold rule_row_of; simpl; lia|].
      eapply Forall_impl; [exact H2|]. intros y Hy. simpl in *. lia.
Qed.

Lemma insert_rules_sorted (rules : list MerchantRule) :
  StronglySorted (λ a b, (row_position a < row_position b)%nat) (_insert_rules rules).
Proof. exact (proj1 (rows_sorted rules 0)). Qed.

Lemma get_rules_rebuild (h1 h2 now : string) e (transactions : list transaction) ds :
  get_rules (rebuild h1 h2 now e transactions ds) = imap cached_rule_of (rules e).
Proof.
  unfold get_rules, rebuild. simpl.
  rewrite order_by_position_sorted by apply insert_rules_sorted.
  unfold _insert_rules. by rewrite fmap_imap.
Qed.

(** [INSERT OR IGNORE] keeps one row per primary key. *)
Lemma existsb_key (tbl : list match_row) (m : match_row) :
  existsb (λ x, bool_decide (m_rule_id x = m_rule_id m ∧ m_txn_id x = m_txn_id m)) tbl = true
  ↔ match_key m ∈ match_key <$> tbl.
Proof.
  rewrite existsb_exists, list_elem_of_fmap. split.
  - intros (x & Hx & Hk). apply bool_decide_eq_true in Hk as [H1 H2].
    exists x. split; [|by apply list_elem_of_In].
    unfold match_key. by rewrite H1, H2.
  - intros (x & Hk & Hx). exists x. split; [by apply list_elem_of_In|].
    apply bool_decide_eq_true. unfold match_key in Hk. by injection Hk as -> ->.
Qed.

Lemma insert_or_ignore_spec (rows acc : list match_row) :
  NoDup (match_key <$> acc) →
  NoDup (match_key <$> fold_left insert_or_ignore rows acc)
  ∧ (∀ k, k ∈ match_key <$> fold_left insert_or_ignore rows acc
          ↔ k ∈ match_key <$> acc ∨ k ∈ match_key <$> rows).
Proof.
  revert acc. induction rows as [|m rows IH]; intros acc Hnd; cbn [fold_left].
  - split; [done|]. intros k. set_solver.
  - unfold insert_or_ignore at 2 4.
    destruct (existsb _ acc) eqn:Hex.
    + apply existsb_key in Hex. destruct (IH acc Hnd) as [H1 H2].
      split; [done|]. intros k. rewrite H2, fmap_cons, elem_of_cons. naive_solver.
    + assert (match_key m ∉ match_key <$> acc) as Hnot.
      { intros H%existsb_key. congruence. }
      destruct (IH (acc ++ [m])) as [H1 H2].
      { rewrite fmap_app. apply NoDup_app. split; [done|]. split.
        - intros k Hk Hk'. apply list_elem_of_singleton in Hk'. by subst.
        - apply NoDup_singleton. }
      split; [done|]. intros k.
      rewrite H2, fmap_app, !fmap_cons, fmap_nil, elem_of_app, !elem_of_cons, elem_of_nil.
      naive_solver.
Qed.

Lemma match_rows_key e (t : transaction) ds (i : nat) (tid : string) :
  (S i, tid) ∈ match_key <$> match_rows_of e t ds
  ↔ ∃ r, rules e !! i = Some r ∧ rule_matches e t ds r = true ∧ tid = transaction_id t.
Proof.
  unfold match_rows_of. rewrite list_elem_of_fmap. split.
  - intros (m & Hk & Hm). apply list_elem_of_omap in Hm as (o & Ho & Hid).
    unfold id in Hid. subst o.
    apply elem_of_lookup_imap in Ho as (j & r & Heq & Hr).
    destruct (rule_matches e t ds r) eqn:Hmatch; [|done].
    injection Heq as ->. unfold match_key in Hk. simpl in Hk.
    injection Hk as -> ->. eauto.
  - intros (r & Hr & Hmatch & ->).
    eexists. split; [|apply list_elem_of_omap; eexists; split;
                      [apply (elem_of_lookup_imap_2 _ _ _ _ Hr)|]].
    2:{ simpl. rewrite Hmatch. done. }
    done.
Qed.

Lemma elem_of_concat {A} (x : A) (ls : list (list A)) :
  x ∈ concat ls ↔ ∃ l, x ∈ l ∧ l ∈ ls.
Proof.
  rewrite list_elem_of_In, in_concat. split.
  - intros (l & H1 & H2). exists l. by rewrite !list_elem_of_In.
  - intros (l & H1 & H2). exists l. by rewrite <- !list_elem_of_In.
Qed.

Lemma batch_rows_key e (transactions : list transaction) ds (i : nat) (tid : string) r :
  rules e !! i = Some r →
  (S i, tid) ∈ match_key <$> concat ((λ t, match_rows_of e t ds) <$> transactions)
  ↔ tid ∈ matched_ids e transactions ds r.
Proof.
  intros Hr. unfold matched_ids.
  rewrite elem_of_list_to_set, !list_elem_of_fmap. split.
  - intros (m & Hk & Hm). apply elem_of_concat in Hm as (rows & Hm & Hrows).
    apply list_elem_of_fmap in Hrows as (t & -> & Ht).
    assert ((S i, tid) ∈ match_key <$> match_rows_of e t ds) as Hin.
    { apply list_elem_of_fmap. eauto. }
    apply match_rows_key in Hin as (r' & Hr' & Hmatch & ->).
    exists t. split; [done|]. apply list_elem_of_In, filter_In.
    split; [by apply list_elem_of_In|]. by simplify_eq.
  - intros (t & -> & Ht). apply list_elem_of_In, filter_In in Ht as [Ht Hmatch].
    assert ((S i, transaction_id t) ∈ match_key <$> match_rows_of e t ds) as Hin.
    { apply match_rows_key. eauto. }
    apply list_elem_of_fmap in Hin as (m & Hk & Hm).
    exists m. split; [done|]. apply elem_of_concat.
    eexists. split; [done|]. apply list_elem_of_fmap.
    exists t. split; [done|]. by apply list_elem_of_In.
Qed.

Lemma filter_rule_txn (out : list match_row) (id : nat) (tid : string) :
  tid ∈ m_txn_id <$> List.filter (λ m, bool_decide (m_rule_id m = id)) out
  ↔ (id, tid) ∈ match_key <$> out.
Proof.
  rewrite !list_elem_of_fmap. split.
  - intros (m & -> & Hm). apply list_elem_of_In, filter_In in Hm as [Hm Hid].
    apply bool_decide_eq_true in Hid as <-.
    exists m. split; [done|]. by apply list_elem_of_In.
  - intros (m & Hk & Hm). unfold match_key in Hk. injection Hk as -> ->.
    exists m. split; [done|]. apply list_elem_of_In, filter_In.
    split; [by apply list_elem_of_In|]. by apply bool_decide_eq_true.
Qed.

Lemma filter_rule_nodup (out : list match_row) (id : nat) :
  NoDup (match_key <$> out) →
  NoDup (m_txn_id <$> List.filter (λ m, bool_decide (m_rule_id m = id)) out).
Proof.
  induction out as [|x out IH]; [constructor|].
  rewrite fmap_cons. intros [Hx Hnd]%NoDup_cons. cbn [List.filter].
  destruct (bool_decide (m_rule_id x = id)) eqn:Hid; [|by apply IH].
  rewrite fmap_cons. apply NoDup_cons. split; [|by apply IH].
  intros Hin. apply filter_rule_txn in Hin. apply Hx.
  apply bool_decide_eq_true in Hid as <-. exact Hin.
Qed.

Lemma rebuild_matches_key (h1 h2 now : string) e (transactions : list transaction) ds
    (i : nat) (tid : string) r :
  rules e !! i = Some r →
  (S i, tid) ∈ match_key <$> db_matches (rebuild h1 h2 now e transactions ds)
  ↔ tid ∈ matched_ids e transactions ds r.
Proof.
  intros Hr. unfold rebuild, _insert_matches. simpl.
  destruct (insert_or_ignore_spec
              (concat ((λ t, match_rows_of e t ds) <$> transactions)) [])
    as [_ Hk]; [constructor|].
  rewrite Hk, <- (batch_rows_key e transactions ds i tid r Hr).
  rewrite fmap_nil, elem_of_nil. naive_solver.
Qed.

Lemma match_count_rebuild (h1 h2 now : string) e (transactions : list transaction) ds
    (i : nat) r :
  rules e !! i = Some r →
  match_count (rebuild h1 h2 now e transactions ds) (rule_row_of i r)
  = size (matched_ids e transactions ds r).
Proof.
  intros Hr. unfold match_count.
  change (row_id (rule_row_of i r)) with (S i).
  assert (NoDup (match_key <$> db_matches (rebuild h1 h2 now e transactions ds))) as Hnd.
  { unfold rebuild, _insert_matches. simpl.
    apply insert_or_ignore_spec. constructor. }
  rewrite <- (length_fmap m_txn_id).
  rewrite <- (size_list_to_set (C:=gset string)) by by apply filter_rule_nodup.
  f_equal. apply set_eq. intros tid.
  by rewrite elem_of_list_to_set, filter_rule_txn, (rebuild_matches_key _ _ _ _ _ _ _ _ r).
Qed.

Lemma unused_test_rebuild (h1 h2 now : string) e (transactions : list transaction) ds
    (i : nat) r :
  rules e !! i = Some r →
  negb (existsb (λ m, bool_decide (m_rule_id m = row_id (rule_row_of i r)))
          (db_matches (rebuild h1 h2 now e transactions ds)))
  = bool_decide (matched_ids e transactions ds r = ∅).
Proof.
  intros Hr. change (row_id (rule_row_of i r)) with (S i).
  destruct (existsb _ _) eqn:Hex; simpl; symmetry.
  - apply bool_decide_eq_false. intros Hempty.
    apply existsb_exists in Hex as (m & Hm & Hid).
    apply bool_decide_eq_true in Hid.
    assert (m_txn_id m ∈ matched_ids e transactions ds r) as Hin.
    { apply (rebuild_matches_key h1 h2 now _ _ _ i); [done|].
      apply list_elem_of_fmap. exists m. split; [|by apply list_elem_of_In].
      unfold match_key. by rewrite Hid. }
    rewrite Hempty in Hin. by apply not_elem_of_empty in Hin.
  - apply bool_decide_eq_true. apply set_eq. intros tid.
    split; [|by intros ?%not_elem_of_empty].
    intros Hin. apply (rebuild_matches_key h1 h2 now _ _ _ i) in Hin; [|done].
    apply list_elem_of_fmap in Hin as (m & Hk & Hm).
    unfold match_key in Hk. injection Hk as Hid ->.
    assert (existsb (λ m, bool_decide (m_rule_id m = S i))
              (db_matches (rebuild h1 h2 now e transactions ds)) = true) as Ht.
    { apply existsb_exists. exists m. split; [by apply list_elem_of_In|].
      by apply bool_decide_eq_true. }
    congruence.
Qed.

Lemma fold_counts_other {A} (f : A → string) (g : A → nat) (l : list A)
    (d : gmap string nat) (n : string) :
  (∀ x, x ∈ l → f x ≠ n) →
  fold_left (λ d x, <[f x := g x]> d) l d !! n = d !! n.
Proof.
  revert d. induction l as [|x l IH]; intros d H; simpl; [done|].
  rewrite IH by (intros; apply H; set_solver).
  apply lookup_insert_ne. apply H. set_solver.
Qed.

Lemma fold_counts_last {A} (f : A → string) (g : A → nat) (l1 l2 : list A) (x : A)
    (d : gmap string nat) :
  (∀ y, y ∈ l2 → f y ≠ f x) →
  fold_left (λ d x, <[f x := g x]> d) (l1 ++ x :: l2) d !! f x = Some (g x).
Proof.
  intros H. rewrite fold_left_app. simpl.
  rewrite fold_counts_other by done. apply lookup_insert_eq.
Qed.

Lemma filter_imap_rows (f : nat → MerchantRule → rule_row) (P : rule_row → bool)
    (l : list MerchantRule) :
  _row_to_rule <$> List.filter P (imap f l)
  = omap id (imap (λ i x, if P (f i x) then Some (_row_to_rule (f i x)) else None) l).
Proof.
  revert f. induction l as [|x l IH]; intros f; [done|].
  rewrite !imap_cons. cbn [List.filter omap list_omap].
  destruct (P (f 0%nat x)); simpl.
  - f_equal. apply (IH (f ∘ S)).
  - apply (IH (f ∘ S)).
Qed.

(** C8, as amended: after [rebuild], [get_match_counts] maps a rule name
    to the number of distinct transaction ids of the batch that the last
    rule of that name in the file matched, that is, for which that rule
    is in [all_matching_rules] (for a name used once: the rule of that
    name); names of no rule are absent; [get_unused_rules] lists, in file
    order, exactly the cached rules that matched no transaction of the
    batch. *)
Theorem cache_counts_and_unused (h1 h2 now : string) e
    (transactions : list transaction) ds :
  (∀ (i : nat) r,
     rules e !! i = Some r →
     (∀ (j : nat) r', rules e !! j = Some r' → name r' = name r → (j ≤ i)%nat) →
     get_match_counts (rebuild h1 h2 now e transactions ds) !! name r
     = Some (size (matched_ids e transactions ds r)))
  ∧ (∀ n, (∀ r, r ∈ rules e → name r ≠ n) →
          get_match_counts (rebuild h1 h2 now e transactions ds) !! n = None)
  ∧ get_unused_rules (rebuild h1 h2 now e transactions ds)
    = omap id
        (imap
           (λ i r, if bool_decide (matched_ids e transactions ds r = ∅)
                   then Some (cached_rule_of i r) else None)
           (rules e))
  ∧ get_rules (rebuild h1 h2 now e transactions ds) = imap cached_rule_of (rules e)
  ∧ (∀ t, res_all_matching_rules (engine_match e t ds)
          = List.filter (rule_matches e t ds) (rules e)).
Proof.
  assert (order_by_position (db_rules (rebuild h1 h2 now e transactions ds))
          = imap rule_row_of (rules e)) as Hord.
  { unfold rebuild. simpl. apply order_by_position_sorted, insert_rules_sorted. }
  split; [|split; [|split; [|split]]].
  - intros i r Hr Hlast. unfold get_match_counts. rewrite Hord.
    rewrite <- (take_drop_middle _ _ _ Hr), imap_app, imap_cons.
    rewrite <- (match_count_rebuild h1 h2 now e transactions ds i r Hr).
    assert (length (take i (rules e)) = i) as Hlen.
    { apply length_take_le. apply lookup_lt_Some in Hr. lia. }
    rewrite Hlen, Nat.add_0_r.
    apply (fold_counts_last row_name
             (match_count (rebuild h1 h2 now e transactions ds))).
    intros y Hy. apply elem_of_lookup_imap in Hy as (j & r' & -> & Hr').
    rewrite lookup_drop in Hr'. simpl. intros Hname.
    specialize (Hlast _ _ Hr' Hname). lia.
  - intros n Hn. unfold get_match_counts. rewrite Hord.
    rewrite fold_counts_other; [done|].
    intros y Hy. apply elem_of_lookup_imap in Hy as (j & r' & -> & Hr').
    simpl. apply Hn. by eapply list_elem_of_lookup_2.
  - unfold get_unused_rules.
    assert (db_rules (rebuild h1 h2 now e transactions ds) = imap rule_row_of (rules e))
      as -> by done.
    rewrite order_by_position_sorted
      by (apply filter_sorted, (insert_rules_sorted (rules e))).
    rewrite filter_imap_rows. f_equal. apply imap_ext. intros i r Hr.
    by rewrite (unused_test_rebuild h1 h2 now e transactions ds i r Hr).
  - apply get_rules_rebuild.
  - intros t. apply all_matching_rules_spec.
Qed.

End CacheFacts.

(** ** Resolved tags *)

Section TagFacts.
Context `{EP : ExprParser}.
Implicit Types (txn : transaction) (ds : data_sources) (V : gmap string value).

Lemma strip_lower_fixed (s : string) :
  str_strip (str_lower (str_strip s)) = str_lower (str_strip s)
  ∧ str_lower (str_lower (str_strip s)) = str_lower (str_strip s).
Proof. split; [by rewrite str_lower_strip, str_strip_idem|apply str_lower_idem]. Qed.

(** Every tag that one entry of a rule resolves to is stripped and
    lowercased; it is non-empty unless it comes from an item of a list
    result. *)
Lemma resolve_tag_shape txn V ds (tag t : string) :
  t ∈ resolve_tag txn V ds tag →
  str_strip t = t ∧ str_lower t = t
  ∧ (t = EmptyString →
     ∃ result items,
       evaluate_transaction (str_strip (str_inner (str_strip tag))) txn V ds = Some result
       ∧ as_list result = Some items).
Proof.
  unfold resolve_tag.
  destruct (str_nonempty (str_strip tag)) eqn:Hne; simpl; [|by intros ?%not_elem_of_empty].
  destruct (str_startswith (str_strip tag) "{" && str_endswith (str_strip tag) "}").
  - destruct (str_nonempty (str_strip (str_inner (str_strip tag)))); simpl;
      [|by intros ?%not_elem_of_empty].
    destruct (evaluate_transaction _ txn V ds) as [result|] eqn:Hev;
      [|by intros ?%not_elem_of_empty].
    destruct (truthy result); [|by intros ?%not_elem_of_empty].
    destruct (as_list result) as [items|] eqn:Hl.
    + intros Ht. apply elem_of_list_to_set, list_elem_of_fmap in Ht as (item & -> & _).
      destruct (strip_lower_fixed (py_str item)) as [H1 H2].
      split; [done|]. split; [done|]. eauto.
    + destruct (str_nonempty (str_strip (py_str result))) eqn:Hs;
        [|by intros ?%not_elem_of_empty].
      intros ->%elem_of_singleton.
      destruct (strip_lower_normalized _ Hs) as (H0 & H1 & H2). done.
  - intros ->%elem_of_singleton.
    destruct (strip_lower_normalized _ Hne) as (H0 & H1 & H2). done.
Qed.

Lemma resolve_tags_shape (r : MerchantRule) txn V ds (t : string) :
  t ∈ _resolve_tags r txn V ds → str_strip t = t ∧ str_lower t = t.
Proof.
  unfold _resolve_tags. intros Ht.
  apply elem_of_union_list in Ht as (X & HX & Ht).
  apply list_elem_of_fmap in HX as (tag & -> & _).
  destruct (resolve_tag_shape _ _ _ _ _ Ht) as (H1 & H2 & _). done.
Qed.

(** The part of C9 that holds: every tag of a result, and every key of
    its [tag_sources], is stripped and lowercased. *)
Lemma result_tags_stripped_lowercase (e : MerchantEngine) txn ds (t : string) :
  t ∈ res_tags (engine_match e txn ds) ∨ t ∈ dom (res_tag_sources (engine_match e txn ds)) →
  str_strip t = t ∧ str_lower t = t.
Proof.
  rewrite result_tag_sources_dom, result_tags. intros Ht.
  assert (t ∈ tag_only_union txn ds (globals_of e txn ds) (rules e)
          ∨ t ∈ from_option (tags_of_rule txn ds (globals_of e txn ds)) ∅
                  (res_matched_rule (engine_match e txn ds))) as [H|H] by set_solver.
  - unfold tag_only_union in H. apply elem_of_union_list in H as (X & HX & H).
    apply list_elem_of_fmap in HX as (r & -> & _).
    by eapply resolve_tags_shape.
  - destruct (res_matched_rule (engine_match e txn ds)) as [w|]; simpl in H.
    + by eapply resolve_tags_shape.
    + by apply not_elem_of_empty in H.
Qed.

End TagFacts.

(** ** Ordering by position *)

Lemma insert_row_perm (x : rule_row) (l : list rule_row) : insert_row x l ≡ₚ x :: l.
Proof.
  induction l as [|y l IH]; simpl; [done|].
  destruct (row_position x <? row_position y)%nat; [done|].
  rewrite IH. apply Permutation_swap.
Qed.

Lemma order_by_position_perm (l : list rule_row) : order_by_position l ≡ₚ l.
Proof.
  induction l as [|x l IH]; [done|].
  unfold order_by_position in *. simpl. by rewrite insert_row_perm, IH.
Qed.

Lemma insert_row_ordered (x : rule_row) (l : list rule_row) :
  StronglySorted (λ a b, (row_position a ≤ row_position b)%nat) l →
  StronglySorted (λ a b, (row_position a ≤ row_position b)%nat) (insert_row x l).
Proof.
  induction 1 as [|y l Hs IH Hy]; simpl.
  - repeat constructor.
  - destruct (Nat.ltb_spec (row_position x) (row_position y)).
    + constructor; [by constructor|]. constructor; [lia|].
      eapply Forall_impl; [exact Hy|]. intros z Hz. simpl in *. lia.
    + constructor; [done|].
      rewrite insert_row_perm. constructor; [done|done].
Qed.

Lemma order_by_position_ordered (l : list rule_row) :
  StronglySorted (λ a b, (row_position a ≤ row_position b)%nat) (order_by_position l).
Proof.
  induction l as [|x l IH]; [constructor|].
  unfold order_by_position in *. simpl. by apply insert_row_ordered.
Qed.

Lemma insert_row_filter_out (P : rule_row → bool) (x : rule_row) (l : list rule_row) :
  P x = false → List.filter P (insert_row x l) = List.filter P l.
Proof.
  intros Hx. induction l as [|y l IH]; simpl; [by rewrite Hx|].
  destruct (row_position x <? row_position y)%nat; simpl.
  - by rewrite Hx.
  - by rewrite IH.
Qed.

Lemma insert_row_filter_in (P : rule_row → bool) (x : rule_row) (l : list rule_row) :
  StronglySorted (λ a b, (row_position a ≤ row_position b)%nat) l →
  P x = true → List.filter P (insert_row x l) = insert_row x (List.filter P l).
Proof.
  intros Hs Hx. induction Hs as [|y l Hs IH Hy]; simpl; [by rewrite Hx|].
  destruct (Nat.ltb_spec (row_position x) (row_position y)) as [Hlt|Hge]; simpl.
  - rewrite Hx. destruct (P y) eqn:Hp; simpl.
    + apply Nat.ltb_lt in Hlt. by rewrite Hlt.
    + symmetry. apply insert_row_first. apply filter_Forall.
      eapply Forall_impl; [exact Hy|]. intros z Hz. simpl in *. lia.
  - destruct (P y) eqn:Hp; simpl.
    + apply Nat.ltb_ge in Hge. by rewrite Hge, IH.
    + apply IH.
Qed.

(** A selection commutes with the ordering. *)
Lemma order_by_position_filter (P : rule_row → bool) (l : list rule_row) :
  order_by_position (List.filter P l) = List.filter P (order_by_position l).
Proof.
  induction l as [|x l IH]; [done|].
  unfold order_by_position in *. simpl. destruct (P x) eqn:Hx; simpl.
  - rewrite IH. symmetry. apply insert_row_filter_in; [|done].
    apply order_by_position_ordered.
  - rewrite IH. symmetry. by apply insert_row_filter_out.
Qed.

(** An update that keeps the positions commutes with the ordering. *)
Lemma order_by_position_fmap (f : rule_row → rule_row) (l : list rule_row) :
  (∀ x, row_position (f x) = row_position x) →
  order_by_position (f <$> l) = f <$> order_by_position l.
Proof.
  intros Hf. induction l as [|x l IH]; [done|].
  unfold order_by_position in *. rewrite fmap_cons. simpl. rewrite IH.
  generalize (foldr insert_row [] l). intros m.
  induction m as [|y m IHm]; [done|].
  rewrite fmap_cons. simpl. rewrite !Hf.
  destruct (row_position x <? row_position y)%nat; [done|].
  by rewrite fmap_cons, IHm.
Qed.

Lemma insert_row_snoc (x y : rule_row) (l : list rule_row) :
  (row_position x < row_position y)%nat →
  insert_row x (l ++ [y]) = insert_row x l ++ [y].
Proof.
  intros Hlt. induction l as [|z l IH]; simpl.
  - apply Nat.ltb_lt in Hlt. by rewrite Hlt.
  - destruct (row_position x <? row_position z)%nat; [done|]. by rewrite IH.
Qed.

(** A row whose position lies after all others comes last. *)
Lemma order_by_position_snoc (l : list rule_row) (y : rule_row) :
  Forall (λ x, (row_position x < row_position y)%nat) l →
  order_by_position (l ++ [y]) = order_by_position l ++ [y].
Proof.
  induction 1 as [|x l Hx Hl IH]; [done|].
  unfold order_by_position in *. simpl. rewrite IH. by apply insert_row_snoc.
Qed.

Lemma next_position_above (rows : list rule_row) :
  Forall (λ x, (row_position x < next_position rows)%nat) rows.
Proof.
  unfold next_position. induction rows as [|x rows IH]; [constructor|].
  rewrite fmap_cons. simpl. constructor; [lia|].
  eapply Forall_impl; [exact IH|]. intros z Hz. simpl in *. lia.
Qed.

Lemma next_row_id_fresh (rows : list rule_row) :
  Forall (λ x, (row_id x < next_row_id rows)%nat) rows.
Proof.
  unfold next_row_id. induction rows as [|x rows IH]; [constructor|].
  rewrite fmap_cons. simpl. constructor; [lia|].
  eapply Forall_impl; [exact IH|]. intros z Hz. simpl in *. lia.
Qed.

(** ** Sorted tag lists *)

Lemma insert_sorted_perm (x : string) (l : list string) : insert_sorted x l ≡ₚ x :: l.
Proof.
  induction l as [|y l IH]; simpl; [done|].
  destruct (String.leb x y); [done|]. rewrite IH. apply Permutation_swap.
Qed.

Lemma py_sorted_perm (l : list string) : py_sorted l ≡ₚ l.
Proof.
  induction l as [|x l IH]; [done|].
  unfold py_sorted in *. simpl. by rewrite insert_sorted_perm, IH.
Qed.

Lemma insert_sorted_ordered (x : string) (l : list string) :
  Sorted (λ a b, String.leb a b = true) l →
  Sorted (λ a b, String.leb a b = true) (insert_sorted x l).
Proof.
  induction 1 as [|y l Hs IH Hy]; simpl.
  - repeat constructor.
  - destruct (String.leb x y) eqn:Hxy.
    + constructor; [by constructor|]. by constructor.
    + constructor; [done|].
      assert (String.leb y x = true) as Hyx.
      { destruct (String.leb_total x y); congruence. }
      destruct l as [|z l]; simpl.
      * by constructor.
      * destruct (String.leb x z); constructor; [done|].
        by apply HdRel_inv in Hy.
Qed.

Lemma py_sorted_ordered (l : list string) :
  Sorted (λ a b, String.leb a b = true) (py_sorted l).
Proof.
  induction l as [|x l IH]; [constructor|].
  unfold py_sorted in *. simpl. by apply insert_sorted_ordered.
Qed.

Lemma py_sorted_elem (l : list string) (t : string) : t ∈ py_sorted l ↔ t ∈ l.
Proof. by rewrite py_sorted_perm. Qed.

Lemma py_sorted_nodup (l : list string) : NoDup l → NoDup (py_sorted l).
Proof. by rewrite py_sorted_perm. Qed.

Section CacheUpdateFacts.
Context `{EP : ExprParser}.
Implicit Types (db : cache_db) (row : rule_row) (e : MerchantEngine).

(** *** Reading the rules *)

(** X1: [get_rules] lists every row of the table exactly once, in
    ascending order of position, whatever the order of the table. *)
Theorem get_rules_every_row_in_order db :
  get_rules db ≡ₚ _row_to_rule <$> db_rules db
  ∧ StronglySorted (λ a b, (c_position a ≤ c_position b)%nat) (get_rules db)
  ∧ length (get_rules db) = length (db_rules db).
Proof.
  unfold get_rules. split; [|split].
  - by rewrite order_by_position_perm.
  - pose proof (order_by_position_ordered (db_rules db)) as Hs.
    induction Hs as [|x l Hs IH Hx]; [constructor|].
    rewrite fmap_cons. constructor; [done|].
    apply Forall_fmap. eapply Forall_impl; [exact Hx|]. by intros z Hz.
  - by rewrite length_fmap, order_by_position_perm.
Qed.

(** *** Caches without match rows *)

Lemma no_matches_unused db :
  db_matches db = [] → get_unused_rules db = get_rules db.
Proof.
  intros Hm. unfold get_unused_rules, get_rules. rewrite Hm. simpl.
  f_equal. f_equal. induction (db_rules db) as [|x l IH]; simpl; [done|]. by rewrite IH.
Qed.

Lemma find_append {A} (P : A → bool) (l1 l2 : list A) :
  List.find P (l1 ++ l2)
  = match List.find P l1 with
    | Some x => Some x
    | None => List.find P l2
    end.
Proof.
  induction l1 as [|x l1 IH]; simpl; [done|]. by destruct (P x).
Qed.

Lemma fold_counts_lookup {A} (f : A → string) (g : A → nat) (l : list A)
    (d : gmap string nat) (n : string) :
  fold_left (λ d x, <[f x := g x]> d) l d !! n
  = match List.find (λ x, bool_decide (f x = n)) (rev l) with
    | Some x => Some (g x)
    | None => d !! n
    end.
Proof.
  revert d. induction l as [|x l IH]; intros d; simpl; [done|].
  rewrite IH, find_append.
  destruct (List.find _ (rev l)) as [y|]; [done|]. simpl.
  case_bool_decide as Hx.
  - subst n. by rewrite lookup_insert_eq.
  - by rewrite lookup_insert_ne.
Qed.

Lemma no_matches_counts db (n : string) :
  db_matches db = [] →
  get_match_counts db !! n
  = if bool_decide (n ∈ row_name <$> db_rules db) then Some 0%nat else None.
Proof.
  intros Hm. unfold get_match_counts. rewrite fold_counts_lookup.
  destruct (List.find _ _) as [x|] eqn:Hf.
  - apply find_some in Hf as [Hin Hx]. apply bool_decide_eq_true in Hx.
    rewrite bool_decide_eq_true_2.
    + unfold match_count. by rewrite Hm.
    + apply list_elem_of_fmap. exists x. split; [done|].
      rewrite <- in_rev in Hin.
      apply list_elem_of_In in Hin. by rewrite order_by_position_perm in Hin.
  - rewrite lookup_empty. rewrite bool_decide_eq_false_2; [done|].
    intros (x & -> & Hx)%list_elem_of_fmap.
    assert (bool_decide (row_name x = row_name x) = false) as Hno.
    { apply (List.find_none _ _ Hf x). rewrite <- in_rev. apply list_elem_of_In.
      by rewrite order_by_position_perm. }
    by apply bool_decide_eq_false in Hno.
Qed.

Lemma counts_dom db (n : string) :
  is_Some (get_match_counts db !! n) ↔ n ∈ row_name <$> db_rules db.
Proof.
  unfold get_match_counts. rewrite fold_counts_lookup.
  destruct (List.find _ _) as [x|] eqn:Hf.
  - apply find_some in Hf as [Hin Hx]. apply bool_decide_eq_true in Hx.
    split; [|by eauto]. intros _.
    apply list_elem_of_fmap. exists x. split; [done|].
    rewrite <- in_rev in Hin.
    apply list_elem_of_In in Hin. by rewrite order_by_position_perm in Hin.
  - rewrite lookup_empty. split; [by intros [? ?]|].
    intros (x & -> & Hx)%list_elem_of_fmap. exfalso.
    assert (bool_decide (row_name x = row_name x) = false) as Hno.
    { apply (List.find_none _ _ Hf x). rewrite <- in_rev. apply list_elem_of_In.
      by rewrite order_by_position_perm. }
    by apply bool_decide_eq_false in Hno.
Qed.

(** X2: [mark_matches_stale] keeps the rules and the preamble and forgets
    the match data: the rules read back are the same, the regenerated
    file is the same, every rule is reported unused, and every name that
    had a count now has the count 0. *)
Theorem stale_matches_forget_counts db :
  get_rules (mark_matches_stale db) = get_rules db
  ∧ regenerate_rules_file (mark_matches_stale db) = regenerate_rules_file db
  ∧ get_unused_rules (mark_matches_stale db) = get_rules db
  ∧ (∀ n, get_match_counts (mark_matches_stale db) !! n
          = (λ _, 0%nat) <$> get_match_counts db !! n)
  ∧ db_meta (mark_matches_stale db) !! "data_files_hash" = Some EmptyString.
Proof.
  split; [done|]. split; [done|]. split; [by rewrite no_matches_unused|]. split.
  - intros n. rewrite no_matches_counts by done. simpl.
    case_bool_decide as Hn.
    + apply counts_dom in Hn as [c Hc]. by rewrite Hc.
    + destruct (get_match_counts db !! n) as [c|] eqn:Hc; [|done].
      exfalso. apply Hn, counts_dom. by eauto.
  - apply lookup_insert_eq.
Qed.

(** X3: [rebuild_rules_only] stores the same rules and the same preamble
    as [rebuild] does, so the rules read back and the regenerated file
    are the same; it stores no match, so every rule is reported unused
    and the counts are 0 for the names of the rules and absent for any
    other name. *)
Theorem rebuild_rules_only_spec (rules_file : option string) (h1 h2 now now' : string) e
    (transactions : list transaction) (ds : data_sources) :
  get_rules (rebuild_rules_only rules_file now e) = imap cached_rule_of (rules e)
  ∧ get_rules (rebuild_rules_only rules_file now e)
    = get_rules (rebuild h1 h2 now' e transactions ds)
  ∧ regenerate_rules_file (rebuild_rules_only rules_file now e)
    = regenerate_rules_file (rebuild h1 h2 now' e transactions ds)
  ∧ get_unused_rules (rebuild_rules_only rules_file now e)
    = get_rules (rebuild_rules_only rules_file now e)
  ∧ (∀ n, get_match_counts (rebuild_rules_only rules_file now e) !! n
          = if bool_decide (n ∈ name <$> rules e) then Some 0%nat else None).
Proof.
  assert (get_rules (rebuild_rules_only rules_file now e) = imap cached_rule_of (rules e)) as H.
  { unfold get_rules, rebuild_rules_only. simpl.
    rewrite order_by_position_sorted by apply insert_rules_sorted.
    unfold _insert_rules. by rewrite fmap_imap. }
  split; [done|]. split; [by rewrite get_rules_rebuild|]. split; [done|].
  split; [by apply no_matches_unused|].
  intros n. rewrite no_matches_counts by done. simpl.
  assert (row_name <$> _insert_rules (rules e) = name <$> rules e) as ->; [|done].
  unfold _insert_rules. rewrite fmap_imap. simpl.
  etrans; [|apply imap_const]. by apply imap_ext.
Qed.

(** *** Validity *)

(** X4: a cache is valid exactly for the hash of the rules file it was
    built from and, when the data is required, for the hash of the data
    files it was built from; after [invalidate], and while no cache file
    or no rules file exists, it is valid for nothing; after
    [mark_matches_stale] it is valid for the data only if the hash of the
    data files is the empty text. *)
Theorem cache_validity (h d now : string) e (transactions : list transaction)
    (ds : data_sources) :
  (∀ rules_file data_hash require_data,
     is_valid (Some (rebuild h d now e transactions ds)) rules_file data_hash require_data
     = true
     ↔ rules_file = Some h ∧ (require_data = true → data_hash = d))
  ∧ (∀ store rules_file data_hash require_data,
       is_valid (invalidate store) rules_file data_hash require_data = false)
  ∧ (∀ store data_hash require_data, is_valid store None data_hash require_data = false)
  ∧ (∀ rules_file data_hash require_data,
       is_valid (Some (mark_matches_stale (rebuild h d now e transactions ds)))
         rules_file data_hash require_data = true
       ↔ rules_file = Some h ∧ (require_data = true → data_hash = EmptyString))
  ∧ (∀ rules_file now' rules_file' data_hash,
       is_valid (Some (rebuild_rules_only rules_file now' e)) rules_file' data_hash false
       = true
       ↔ ∃ h', rules_file' = Some h' ∧ h' = default EmptyString rules_file).
Proof.
  split; [|split; [|split; [|split]]].
  - intros [h'|] d' req; simpl; [|naive_solver].
    rewrite lookup_insert_ne, lookup_insert_ne, lookup_insert_eq by done.
    rewrite lookup_insert_ne, lookup_insert_eq by done.
    repeat case_bool_decide; destruct req; simpl; naive_solver.
  - intros [db|] [h'|] d' req; simpl; try done; by rewrite lookup_empty.
  - intros [db|] d' req; done.
  - intros [h'|] d' req; simpl; [|naive_solver].
    rewrite lookup_insert_ne, lookup_insert_ne, lookup_insert_ne, lookup_insert_eq by done.
    rewrite lookup_insert_eq.
    repeat case_bool_decide; destruct req; simpl; naive_solver.
  - intros rf now' [h'|] d'; simpl; [|naive_solver].
    rewrite lookup_insert_ne, lookup_insert_ne, lookup_insert_eq by done.
    case_bool_decide; simpl; naive_solver.
Qed.

(** *** Deleting rules *)

Lemma filter_length_pos {A} (P : A → bool) (l : list A) :
  (0 <? length (List.filter P l))%nat = true ↔ ∃ x, x ∈ l ∧ P x = true.
Proof.
  rewrite Nat.ltb_lt. split.
  - intros Hlen. destruct (List.filter P l) as [|x l'] eqn:Hf; [simpl in Hlen; lia|].
    assert (In x (List.filter P l)) as Hin by (rewrite Hf; by left).
    apply filter_In in Hin as [Hin Hx]. exists x. by rewrite list_elem_of_In.
  - intros (x & Hin & Hx).
    assert (In x (List.filter P l)) as Hin'.
    { apply filter_In. by rewrite <- list_elem_of_In. }
    destruct (List.filter P l); [done|]. simpl. lia.
Qed.

Lemma filter_fmap_rules (P : rule_row → bool) (Q : CachedRule → bool) (l : list rule_row) :
  (∀ row, P row = Q (_row_to_rule row)) →
  _row_to_rule <$> List.filter P l = List.filter Q (_row_to_rule <$> l).
Proof.
  intros H. induction l as [|x l IH]; [done|].
  rewrite fmap_cons. simpl. rewrite <- H. destruct (P x); [|done].
  by rewrite fmap_cons, IH.
Qed.

Lemma filter_filter_neg {A} (P : A → bool) (l : list A) :
  List.filter P (List.filter (λ x, negb (P x)) l) = [].
Proof.
  induction l as [|x l IH]; simpl; [done|].
  destruct (P x) eqn:Hx; simpl; [done|]. by rewrite Hx.
Qed.

Lemma filter_neg_idem {A} (P : A → bool) (l : list A) :
  List.filter (λ x, negb (P x)) (List.filter (λ x, negb (P x)) l)
  = List.filter (λ x, negb (P x)) l.
Proof.
  induction l as [|x l IH]; simpl; [done|].
  destruct (P x) eqn:Hx; simpl; [done|]. by rewrite Hx, IH.
Qed.

Lemma delete_where_spec (test : rule_row → bool) (testc : CachedRule → bool) db :
  (∀ row, test row = testc (_row_to_rule row)) →
  ((delete_where test db).2 = true ↔ ∃ c, c ∈ get_rules db ∧ testc c = true)
  ∧ get_rules (delete_where test db).1
    = List.filter (λ c, negb (testc c)) (get_rules db)
  ∧ delete_where test (delete_where test db).1 = ((delete_where test db).1, false)
  ∧ db_matches (delete_where test db).1 = db_matches db.
Proof.
  intros Ht. unfold delete_where. simpl. split; [|split; [|split]].
  - rewrite filter_length_pos. unfold get_rules. split.
    + intros (row & Hin & Hrow). exists (_row_to_rule row). split.
      * apply list_elem_of_fmap. exists row. split; [done|].
        by rewrite order_by_position_perm.
      * by rewrite <- Ht.
    + intros (c & (row & -> & Hin)%list_elem_of_fmap & Hc).
      exists row. rewrite order_by_position_perm in Hin. by rewrite Ht.
  - unfold get_rules. simpl. rewrite order_by_position_filter.
    apply filter_fmap_rules. intros row. by rewrite Ht.
  - unfold with_rows. simpl. rewrite filter_filter_neg, filter_neg_idem. done.
  - done.
Qed.

(** X5: [delete_by_name] removes every rule whose name equals the given
    one up to the case of ASCII letters, and no other: it returns true
    exactly when there was such a rule, the rules read back afterwards
    are the others in their order, a second call removes nothing and
    returns false, and the match rows are left as they were. *)
Theorem delete_by_name_spec db (name : string) :
  ((delete_by_name db name).2 = true
   ↔ ∃ c, c ∈ get_rules db ∧ str_lower (c_name c) = str_lower name)
  ∧ get_rules (delete_by_name db name).1
    = List.filter (λ c, negb (bool_decide (str_lower (c_name c) = str_lower name)))
        (get_rules db)
  ∧ delete_by_name (delete_by_name db name).1 name = ((delete_by_name db name).1, false)
  ∧ db_matches (delete_by_name db name).1 = db_matches db.
Proof.
  destruct (delete_where_spec (same_name name)
              (λ c, bool_decide (str_lower (c_name c) = str_lower name)) db)
    as (H1 & H2 & H3 & H4); [done|].
  unfold delete_by_name. split; [|done].
  rewrite H1. by setoid_rewrite bool_decide_eq_true.
Qed.

(** X6: [delete_by_match] removes every rule whose match expression is the
    given text, character for character, and no other: it returns true
    exactly when there was such a rule, the rules read back afterwards
    are the others in their order, and a second call removes nothing and
    returns false. *)
Theorem delete_by_match_spec db (match_expr : string) :
  ((delete_by_match db match_expr).2 = true
   ↔ ∃ c, c ∈ get_rules db ∧ c_match_expr c = match_expr)
  ∧ get_rules (delete_by_match db match_expr).1
    = List.filter (λ c, negb (bool_decide (c_match_expr c = match_expr))) (get_rules db)
  ∧ delete_by_match (delete_by_match db match_expr).1 match_expr
    = ((delete_by_match db match_expr).1, false).
Proof.
  destruct (delete_where_spec (same_match match_expr)
              (λ c, bool_decide (c_match_expr c = match_expr)) db)
    as (H1 & H2 & H3 & H4); [done|].
  unfold delete_by_match. split; [|done].
  rewrite H1. by setoid_rewrite bool_decide_eq_true.
Qed.

End CacheUpdateFacts.

(** ** The operator LIKE *)

Lemma append_nil_l (s : string) : EmptyString +:+ s = s.
Proof. reflexivity. Qed.

Lemma str_lower_app (a b : string) : str_lower (a +:+ b) = str_lower a +:+ str_lower b.
Proof.
  induction a as [|c a IH]; [done|].
  rewrite append_cons. simpl. by rewrite IH, append_cons.
Qed.

Lemma str_lower_app_inv (s a b : string) :
  str_lower s = a +:+ b →
  ∃ s1 s2, s = s1 +:+ s2 ∧ str_lower s1 = a ∧ str_lower s2 = b.
Proof.
  revert s. induction a as [|c a IH]; intros s H.
  - exists EmptyString, s. done.
  - rewrite append_cons in H. destruct s as [|d s]; [done|].
    simpl in H. injection H as Hc Hs.
    destruct (IH s Hs) as (s1 & s2 & -> & H1 & H2).
    exists (String d s1), s2. rewrite append_cons. simpl. by rewrite Hc, H1.
Qed.

Lemma sql_like_percent (p s : string) :
  sql_like (String "%" p) s
  = sql_like p s
    || match s with
       | EmptyString => false
       | String _ s' => sql_like (String "%" p) s'
       end.
Proof. destruct s; reflexivity. Qed.

Lemma sql_like_char (c : ascii) (p s : string) :
  c ≠ "%"%char → c ≠ "_"%char →
  sql_like (String c p) s
  = match s with
    | EmptyString => false
    | String d s' => bool_decide (lower_char c = lower_char d) && sql_like p s'
    end.
Proof.
  intros H1 H2. simpl.
  destruct (ascii_dec c "%"); [done|]. destruct (ascii_dec c "_"); [done|].
  by destruct s.
Qed.

Lemma sql_like_any (p s : string) :
  sql_like (String "%" p) s = true ↔ ∃ s1 s2, s = s1 +:+ s2 ∧ sql_like p s2 = true.
Proof.
  induction s as [|d s IH]; rewrite sql_like_percent, orb_true_iff.
  - split.
    + intros [H|H]; [|done]. exists EmptyString, EmptyString. done.
    + intros (s1 & s2 & Hs & H). left.
      destruct s1; [|done]. rewrite append_nil_l in Hs. by subst.
  - rewrite IH. split.
    + intros [H|(s1 & s2 & -> & H)].
      * exists EmptyString, (String d s). done.
      * exists (String d s1), s2. by rewrite append_cons.
    + intros (s1 & s2 & Hs & H). destruct s1 as [|c s1].
      * left. rewrite append_nil_l in Hs. by subst.
      * right. rewrite append_cons in Hs. injection Hs as -> ->. eauto.
Qed.

Lemma sql_like_all (s : string) : sql_like "%" s = true.
Proof.
  apply sql_like_any. exists s, EmptyString. split; [|done].
  induction s as [|c s IH]; [done|]. by rewrite append_cons, <- IH.
Qed.

Lemma literal_cons (c : ascii) (p : string) :
  literal (String c p) → c ≠ "%"%char ∧ c ≠ "_"%char ∧ literal p.
Proof.
  unfold literal. simpl.
  destruct (ascii_dec c "%"); [naive_solver|].
  destruct (ascii_dec c "_"); naive_solver.
Qed.

Lemma sql_like_literal (p r s : string) :
  literal p →
  sql_like (p +:+ r) s = true
  ↔ ∃ s1 s2, s = s1 +:+ s2 ∧ str_lower s1 = str_lower p ∧ sql_like r s2 = true.
Proof.
  revert s. induction p as [|c p IH]; intros s Hp.
  - rewrite append_nil_l. split.
    + intros H. exists EmptyString, s. done.
    + intros (s1 & s2 & -> & Hl & H). destruct s1; [|done]. done.
  - apply literal_cons in Hp as (H1 & H2 & Hp).
    rewrite append_cons, sql_like_char by done. split.
    + destruct s as [|d s]; [done|].
      intros [Hc (s1 & s2 & -> & Hl & H)%IH]%andb_true_iff; [|done].
      apply bool_decide_eq_true in Hc.
      exists (String d s1), s2. rewrite append_cons. simpl. by rewrite Hc, Hl.
    + intros (s1 & s2 & -> & Hl & H). destruct s1 as [|d s1]; [done|].
      simpl in Hl. injection Hl as Hc Hl. rewrite append_cons.
      apply andb_true_iff. split; [by apply bool_decide_eq_true|].
      apply IH; [done|]. eauto.
Qed.

(** For a pattern without wild cards, [LIKE '%pattern%'] is the search of
    the pattern as a piece of the text, up to the case of ASCII letters. *)
Lemma sql_like_contains (p s : string) :
  literal p →
  sql_like ("%" +:+ p +:+ "%") s = str_contains (str_lower s) (str_lower p).
Proof.
  intros Hp. apply Bool.eq_iff_eq_true.
  change ("%" +:+ p +:+ "%") with (String "%" (p +:+ "%")).
  rewrite sql_like_any, str_contains_spec. split.
  - intros (s1 & s2 & -> & (t1 & t2 & -> & Hl & _)%sql_like_literal); [|done].
    exists (str_lower s1), (str_lower t2). by rewrite !str_lower_app, Hl.
  - intros (pre & post & H).
    apply str_lower_app_inv in H as (s1 & s' & -> & _ & H).
    apply str_lower_app_inv in H as (t1 & t2 & -> & H & _).
    exists s1, (t1 +:+ t2). split; [done|].
    apply sql_like_literal; [done|]. exists t1, t2.
    split; [done|]. split; [done|]. apply sql_like_all.
Qed.

(** ** Finding rows *)

Lemma find_split_gen {A} (P : A → bool) (l : list A) (x : A) :
  List.find P l = Some x →
  ∃ pre post, l = pre ++ x :: post ∧ P x = true ∧ ∀ y, y ∈ pre → P y = false.
Proof.
  induction l as [|y l IH]; simpl; [done|].
  destruct (P y) eqn:Hy.
  - intros [= <-]. exists [], l. split; [done|]. split; [done|].
    intros z Hz. by apply elem_of_nil in Hz.
  - intros (pre & post & -> & Hx & Hpre)%IH.
    exists (y :: pre), post. split; [done|]. split; [done|].
    intros z [->|Hz]%elem_of_cons; [done|]. by apply Hpre.
Qed.

Lemma find_first_gen {A} (P : A → bool) (pre post : list A) (w : A) :
  P w = true → (∀ x, x ∈ pre → P x = false) →
  List.find P (pre ++ w :: post) = Some w.
Proof.
  intros Hw. induction pre as [|y pre IH]; intros Hpre; simpl.
  - by rewrite Hw.
  - rewrite (Hpre y) by set_solver. apply IH. intros x Hx. apply Hpre. set_solver.
Qed.

Lemma find_none_gen {A} (P : A → bool) (l : list A) :
  (∀ x, x ∈ l → P x = false) → List.find P l = None.
Proof.
  induction l as [|y l IH]; intros H; simpl; [done|].
  rewrite (H y) by set_solver. apply IH. intros x Hx. apply H. set_solver.
Qed.

Lemma update_where_id_other (id : nat) (f : rule_row → rule_row) (l : list rule_row) :
  id ∉ row_id <$> l → update_where_id id f l = l.
Proof.
  unfold update_where_id. induction l as [|x l IH]; [done|].
  rewrite !fmap_cons. intros H. apply not_elem_of_cons in H as [Hx Hl].
  rewrite bool_decide_eq_false_2 by done. by rewrite IH.
Qed.

Lemma update_where_id_split (f : rule_row → rule_row) (pre post : list rule_row)
    (row : rule_row) :
  NoDup (row_id <$> pre ++ row :: post) →
  update_where_id (row_id row) f (pre ++ row :: post) = pre ++ f row :: post.
Proof.
  rewrite fmap_app, fmap_cons. intros (H1 & H2 & H3)%NoDup_app.
  apply NoDup_cons in H3 as [H3 _].
  assert (update_where_id (row_id row) f (pre ++ row :: post)
          = update_where_id (row_id row) f pre
            ++ update_where_id (row_id row) f (row :: post)) as ->.
  { unfold update_where_id. by rewrite fmap_app. }
  rewrite update_where_id_other.
  2:{ intros Hin. apply (H2 _ Hin). set_solver. }
  f_equal. unfold update_where_id at 1. rewrite fmap_cons.
  rewrite bool_decide_eq_true_2 by done. f_equal.
  by apply update_where_id_other.
Qed.

Lemma update_where_id_names (id : nat) (f : rule_row → rule_row) (l : list rule_row) :
  (∀ x, row_name (f x) = row_name x) → (∀ x, row_position (f x) = row_position x) →
  c_name <$> (_row_to_rule <$> order_by_position (update_where_id id f l))
  = c_name <$> (_row_to_rule <$> order_by_position l)
  ∧ c_position <$> (_row_to_rule <$> order_by_position (update_where_id id f l))
    = c_position <$> (_row_to_rule <$> order_by_position l).
Proof.
  intros Hn Hp. unfold update_where_id.
  rewrite order_by_position_fmap.
  2:{ intros x. by destruct (bool_decide _). }
  rewrite <- !list_fmap_compose. split.
  - apply list_fmap_ext. intros i x _. simpl. by destruct (bool_decide _).
  - apply list_fmap_ext. intros i x _. simpl. by destruct (bool_decide _).
Qed.

Section CacheEditFacts.
Context `{EP : ExprParser}.
Implicit Types (db : cache_db) (row : rule_row) (e : MerchantEngine).

(** X7: for a pattern without the wild cards [%] and [_], [search_rules]
    returns, in the order of [get_rules], exactly the rules whose name or
    match expression contains the pattern up to the case of ASCII
    letters; the empty pattern returns every rule; and whatever the
    pattern, only rules of [get_rules] are returned. *)
Theorem search_rules_spec db :
  (∀ pattern,
     str_has_char pattern "%" = false → str_has_char pattern "_" = false →
     search_rules db pattern
     = List.filter
         (λ c, str_contains (str_lower (c_name c)) (str_lower pattern)
               || str_contains (str_lower (c_match_expr c)) (str_lower pattern))
         (get_rules db))
  ∧ search_rules db EmptyString = get_rules db
  ∧ (∀ pattern c, c ∈ search_rules db pattern → c ∈ get_rules db).
Proof.
  assert (∀ pattern,
            search_rules db pattern
            = List.filter
                (λ c, sql_like ("%" +:+ pattern +:+ "%") (c_name c)
                      || sql_like ("%" +:+ pattern +:+ "%") (c_match_expr c))
                (get_rules db)) as Hs.
  { intros pattern. unfold search_rules, get_rules. cbv zeta.
    rewrite order_by_position_filter. by apply filter_fmap_rules. }
  assert (∀ pattern,
            literal pattern →
            search_rules db pattern
            = List.filter
                (λ c, str_contains (str_lower (c_name c)) (str_lower pattern)
                      || str_contains (str_lower (c_match_expr c)) (str_lower pattern))
                (get_rules db)) as Hl.
  { intros pattern Hp. rewrite Hs. apply filter_ext. intros c.
    by rewrite !sql_like_contains. }
  split; [|split].
  - intros pattern H1 H2. by apply Hl.
  - rewrite Hl by done. simpl. clear Hs Hl.
    induction (get_rules db) as [|c l IH]; [done|].
    simpl. rewrite IH. by destruct (str_lower (c_name c)).
  - intros pattern c. rewrite Hs. intros Hc%list_elem_of_In%filter_In.
    apply list_elem_of_In. tauto.
Qed.

(** X8: [rebuild] followed by [get_rules] gives, at the index of each rule
    of the engine, a cached rule with the name, match expression,
    category, subcategory, let bindings and fields of that rule and its
    index as position; its tags are the tags of the rule as a list in
    ascending order without repetition; the priority is kept unless it
    is 0, and the merchant unless it is empty. *)
Theorem cached_rule_keeps_rule (h1 h2 now : string) e (transactions : list transaction)
    (ds : data_sources) (i : nat) (r : MerchantRule) :
  rules e !! i = Some r →
  ∃ c, get_rules (rebuild h1 h2 now e transactions ds) !! i = Some c
       ∧ c_name c = name r ∧ c_match_expr c = match_expr r
       ∧ c_category c = category r ∧ c_subcategory c = subcategory r
       ∧ c_position c = i ∧ c_source_line c = line_number r
       ∧ c_let_bindings c = let_bindings r ∧ c_fields c = fields r
       ∧ (∀ t, t ∈ c_tags c ↔ t ∈ tags r)
       ∧ NoDup (c_tags c)
       ∧ Sorted (λ a b, String.leb a b = true) (c_tags c)
       ∧ (priority r ≠ 0 → c_priority c = priority r)
       ∧ (has_merchant r = true → c_merchant c = merchant r).
Proof.
  intros Hr. exists (cached_rule_of i r).
  split; [by rewrite get_rules_rebuild, list_lookup_imap, Hr|].
  unfold cached_rule_of, _row_to_rule, rule_row_of. simpl.
  repeat (split; [done|]). split; [|split; [|split; [|split]]].
  - intros t. by rewrite py_sorted_elem, elem_of_elements.
  - apply py_sorted_nodup, NoDup_elements.
  - apply py_sorted_ordered.
  - intros Hp. apply Z.eqb_neq in Hp. by rewrite Hp.
  - unfold has_merchant. by intros ->.
Qed.

(** X9: [update_rule] changes nothing and returns nothing when no rule has
    the given name up to the case of ASCII letters.  Otherwise it changes
    the first such row of the table and no other: the rule returned keeps
    the stored name, match expression and position, takes the category
    and subcategory given, and its tags are those of the row and those
    to add, except those to remove, in ascending order without
    repetition; unless the priority given is 0, it is the rule that is
    read back from the changed row. *)
Theorem update_rule_spec db (name : string) (category subcategory : option string)
    (add_tags remove_tags : option (list string)) (priority : option Z) :
  ((∀ row, row ∈ db_rules db → str_lower (row_name row) ≠ str_lower name) →
   update_rule db name category subcategory add_tags remove_tags priority = (db, None))
  ∧ (∀ pre row post,
       db_rules db = pre ++ row :: post →
       NoDup (row_id <$> db_rules db) →
       str_lower (row_name row) = str_lower name →
       (∀ x, x ∈ pre → str_lower (row_name x) ≠ str_lower name) →
       ∃ row' c,
         update_rule db name category subcategory add_tags remove_tags priority
         = (with_rows db (pre ++ row' :: post), Some c)
         ∧ c_name c = row_name row ∧ c_match_expr c = row_match_expr row
         ∧ c_position c = row_position row
         ∧ c_category c = default (row_category row) category
         ∧ c_subcategory c = default (row_subcategory row) subcategory
         ∧ (∀ t, t ∈ c_tags c
                 ↔ (t ∈ row_tags row ∨ t ∈ default [] add_tags)
                   ∧ t ∉ default [] remove_tags)
         ∧ NoDup (c_tags c)
         ∧ Sorted (λ a b, String.leb a b = true) (c_tags c)
         ∧ row_id row' = row_id row
         ∧ (priority ≠ Some 0 → _row_to_rule row' = c)).
Proof.
  split.
  - intros Hno. unfold update_rule. rewrite find_none_gen; [done|].
    intros x Hx. apply bool_decide_eq_false. by apply Hno.
  - intros pre row post Hrows Hnd Hname Hpre.
    unfold update_rule. rewrite Hrows.
    rewrite (find_first_gen _ pre post row).
    2:{ by apply bool_decide_eq_true. }
    2:{ intros x Hx. apply bool_decide_eq_false. by apply Hpre. }
    rewrite Hrows in Hnd. rewrite update_where_id_split by done.
    eexists _, _. split; [reflexivity|]. simpl.
    repeat (split; [done|]). split; [|split; [|split; [|split]]].
    + intros t. rewrite py_sorted_elem, elem_of_elements. unfold updated_tag_set.
      rewrite elem_of_difference, elem_of_union, !elem_of_list_to_set. done.
    + apply py_sorted_nodup, NoDup_elements.
    + apply py_sorted_ordered.
    + done.
    + intros Hp. unfold _row_to_rule. simpl. f_equal.
      destruct priority as [z|]; simpl.
      * destruct (Z.eqb_spec z 0) as [->|]; [by destruct Hp|done].
      * destruct (row_priority row =? 0) eqn:Hr; [done|by rewrite Hr].
Qed.

(** X10: [add_or_update_rule] adds a rule when no row has the given name up
    to the case of ASCII letters and no row has the given match
    expression: the rule is read back last, after the rules that were
    there, with its tags sorted, the name as merchant when none is given
    and the priority 50 when none, or 0, is given. *)
Theorem add_rule_appends db (name match_expr : string)
    (category subcategory : option string) (tags : option (list string))
    (priority : option Z) (merchant : option string) :
  (∀ row, row ∈ db_rules db →
          str_lower (row_name row) ≠ str_lower name ∧ row_match_expr row ≠ match_expr) →
  (add_or_update_rule db name match_expr category subcategory tags priority merchant).2.2
  = "added"
  ∧ get_rules
      (add_or_update_rule db name match_expr category subcategory tags priority merchant).1
    = get_rules db
      ++ [mkCachedRule name match_expr (default EmptyString category)
            (default EmptyString subcategory)
            (str_or (default EmptyString merchant) name)
            (py_sorted (default [] tags))
            (if default 50 priority =? 0 then 50 else default 50 priority)
            (next_position (db_rules db)) 0 false [] []]
  ∧ c_name
      (add_or_update_rule db name match_expr category subcategory tags priority merchant).2.1
    = name
  ∧ c_tags
      (add_or_update_rule db name match_expr category subcategory tags priority merchant).2.1
    = default [] tags.
Proof.
  intros Hno. unfold add_or_update_rule.
  rewrite find_none_gen.
  2:{ intros x Hx. apply bool_decide_eq_false. by apply Hno. }
  rewrite find_none_gen.
  2:{ intros x Hx. apply bool_decide_eq_false. by apply Hno. }
  simpl. split; [done|]. split; [|done].
  unfold get_rules. simpl.
  rewrite order_by_position_snoc by apply next_position_above.
  rewrite fmap_app. f_equal. unfold _row_to_rule. simpl. f_equal. f_equal.
  unfold str_or. destruct (str_nonempty (default EmptyString merchant)) eqn:Hm.
  - by rewrite Hm.
  - by destruct (str_nonempty name).
Qed.

(** X11: [add_or_update_rule] updates a row instead of adding one when a
    row has the given name up to the case of ASCII letters, or else when
    a row has the given match expression; the first such row is changed
    and no other.  The row keeps its stored name, so in the second case
    the name given is dropped; it keeps its id, position, let bindings
    and fields, and the names and positions that [get_rules] lists are
    unchanged. *)
Theorem add_or_update_existing db (name match_expr : string)
    (category subcategory : option string) (tags : option (list string))
    (priority : option Z) (merchant : option string) (pre post : list rule_row) row :
  db_rules db = pre ++ row :: post →
  NoDup (row_id <$> db_rules db) →
  (same_name name row = true ∧ ∀ x, x ∈ pre → same_name name x = false)
  ∨ ((∀ x, x ∈ db_rules db → same_name name x = false)
     ∧ same_match match_expr row = true
     ∧ ∀ x, x ∈ pre → same_match match_expr x = false) →
  ∃ row' c,
    add_or_update_rule db name match_expr category subcategory tags priority merchant
    = (with_rows db (pre ++ row' :: post), (c, "updated"))
    ∧ row_name row' = row_name row ∧ c_name c = row_name row
    ∧ row_id row' = row_id row ∧ row_position row' = row_position row
    ∧ row_let_bindings row' = row_let_bindings row ∧ row_fields row' = row_fields row
    ∧ row_match_expr row' = match_expr
    ∧ row_tags row' = py_sorted (default (row_tags row) tags)
    ∧ c_name <$> get_rules (with_rows db (pre ++ row' :: post)) = c_name <$> get_rules db
    ∧ c_position <$> get_rules (with_rows db (pre ++ row' :: post))
      = c_position <$> get_rules db.
Proof.
  intros Hrows Hnd Hcase.
  assert (match List.find (same_name name) (db_rules db) with
          | Some row => Some row
          | None => List.find (same_match match_expr) (db_rules db)
          end = Some row) as Hfind.
  { destruct Hcase as [[Hrow Hpre]|(Hno & Hrow & Hpre)].
    - by rewrite Hrows, (find_first_gen _ pre post row).
    - rewrite (find_none_gen _ _ Hno). by rewrite Hrows, (find_first_gen _ pre post row). }
  unfold add_or_update_rule. rewrite Hfind.
  match goal with
  | |- context [update_where_id _ ?f _] => set (F := f)
  end.
  destruct (update_where_id_names (row_id row) F (db_rules db)) as [Hn Hp]; [done|done|].
  assert (update_where_id (row_id row) F (db_rules db) = pre ++ F row :: post) as Hupd.
  { rewrite Hrows. apply update_where_id_split. by rewrite <- Hrows. }
  rewrite Hupd in Hn, Hp. rewrite Hupd.
  exists (F row). eexists. split; [reflexivity|]. simpl.
  repeat (split; [done|]). exact Hp.
Qed.

End CacheEditFacts.

(** ** More on the result of [match] *)

Lemma filter_filter_and {A} (f g : A → bool) (l : list A) :
  List.filter f (List.filter g l) = List.filter (λ x, g x && f x) l.
Proof.
  induction l as [|x l IH]; simpl; [done|].
  destruct (g x); simpl; [|done]. destruct (f x); by rewrite IH.
Qed.

Lemma fold_fields_lookup {V} (ev : string → option V) (l : list (string * string))
    (acc : gmap string V) (k : string) :
  NoDup l.*1 →
  (k ∉ l.*1 →
   fold_left (λ evaluated '(field_name, expr),
                match ev expr with
                | Some result => <[field_name := result]> evaluated
                | None => evaluated
                end) l acc !! k = acc !! k)
  ∧ (∀ expr, (k, expr) ∈ l →
       fold_left (λ evaluated '(field_name, expr),
                    match ev expr with
                    | Some result => <[field_name := result]> evaluated
                    | None => evaluated
                    end) l acc !! k
       = match ev expr with
         | Some result => Some result
         | None => acc !! k
         end).
Proof.
  revert acc. induction l as [|[k0 e0] l IH]; intros acc Hnd.
  - split; [done|]. intros expr Hin. by apply elem_of_nil in Hin.
  - rewrite fmap_cons in Hnd. apply NoDup_cons in Hnd as [Hk0 Hnd]. simpl in Hk0.
    cbn [fold_left]. split.
    + rewrite fmap_cons. intros [Hne Hk]%not_elem_of_cons. simpl in Hne.
      rewrite (proj1 (IH _ Hnd) Hk).
      destruct (ev e0); [by rewrite lookup_insert_ne|done].
    + intros expr [Heq|Hin]%elem_of_cons.
      * injection Heq as -> ->.
        rewrite (proj1 (IH _ Hnd) Hk0).
        destruct (ev e0); [by rewrite lookup_insert_eq|done].
      * assert (k ≠ k0) as Hne.
        { intros ->. apply Hk0. apply list_elem_of_fmap. by exists (k0, expr). }
        rewrite (proj2 (IH _ Hnd) expr Hin).
        destruct (ev expr); [done|].
        destruct (ev e0); [by rewrite lookup_insert_ne|done].
Qed.

Section ResultFacts.
Context `{EP : ExprParser}.
Implicit Types (txn : transaction) (ds : data_sources) (G : gmap string value).
Implicit Types (r w : MerchantRule) (st : loop_state) (e : MerchantEngine).

Lemma claim_tags_snd r (S : gset string) acc (t : string) :
  (claim_tags r S acc).2 !! t
  = if decide (t ∈ acc.1) then acc.2 !! t
    else if decide (t ∈ S) then Some (source_of r) else acc.2 !! t.
Proof.
  assert ((claim_tags r S acc).1 = acc.1 ∪ S
          ∧ (t ∈ acc.1 → (claim_tags r S acc).2 !! t = acc.2 !! t)
          ∧ (t ∉ acc.1 → t ∈ S → (claim_tags r S acc).2 !! t = Some (source_of r))
          ∧ (t ∉ acc.1 → t ∉ S → (claim_tags r S acc).2 !! t = acc.2 !! t))
    as (_ & H1 & H2 & H3).
  { unfold claim_tags.
    apply (set_fold_ind_L
             (λ a X, a.1 = acc.1 ∪ X
                     ∧ (t ∈ acc.1 → a.2 !! t = acc.2 !! t)
                     ∧ (t ∉ acc.1 → t ∈ X → a.2 !! t = Some (source_of r))
                     ∧ (t ∉ acc.1 → t ∉ X → a.2 !! t = acc.2 !! t))).
    - split; [set_solver|]. split; [done|]. split; [set_solver|done].
    - intros x X a Hx (H1 & H2 & H3 & H4). case_decide as Hin; simpl.
      + split; [set_solver|]. split; [done|]. split.
        * intros Hn Ht. apply H3; [done|]. set_solver.
        * intros Hn Ht. apply H4; [done|]. set_solver.
      + split; [set_solver|].
        destruct (decide (t = x)) as [->|Hne].
        * rewrite lookup_insert_eq. split; [set_solver|]. split; [done|]. set_solver.
        * rewrite lookup_insert_ne by done. split; [done|]. split.
          -- intros Hn Ht. apply H3; [done|]. set_solver.
          -- intros Hn Ht. apply H4; [done|]. set_solver. }
  repeat case_decide; auto.
Qed.

Lemma loop_tag_rules txn ds G (l : list MerchantRule) st :
  tag_rules (fold_left (match_step txn ds G) l st)
  = tag_rules st
    ++ List.filter (λ r, matches_in txn ds G r && negb (is_categorization_rule r)) l.
Proof.
  revert st. induction l as [|r l IH]; intros st; simpl; [by rewrite app_nil_r|].
  destruct (matches_in txn ds G r) eqn:Hm; simpl.
  - rewrite IH, match_step_hit by done. simpl.
    destruct (is_categorization_rule r); simpl; [done|]. by rewrite <- app_assoc.
  - by rewrite match_step_skip.
Qed.

Lemma loop_sources txn ds G (l : list MerchantRule) st (t : string) :
  (all_tags (fold_left (match_step txn ds G) l st)).2 !! t
  = if decide (t ∈ (all_tags st).1) then (all_tags st).2 !! t
    else match List.find (λ r, bool_decide (t ∈ tags_of_rule txn ds G r))
                 (List.filter
                    (λ r, matches_in txn ds G r && negb (is_categorization_rule r)) l) with
         | Some r => Some (source_of r)
         | None => (all_tags st).2 !! t
         end.
Proof.
  revert st. induction l as [|r l IH]; intros st; simpl.
  - by case_decide.
  - destruct (matches_in txn ds G r) eqn:Hm; simpl.
    + rewrite IH, match_step_hit by done. simpl.
      destruct (is_categorization_rule r); simpl; [done|].
      rewrite claim_tags_fst, claim_tags_snd.
      case_bool_decide as Ht.
      * repeat case_decide; try done; set_solver.
      * repeat case_decide; try done; set_solver.
    + by rewrite match_step_skip.
Qed.

(** The fields of a result in terms of the rule that wins the category. *)
Lemma result_by_winner e txn ds :
  let R := engine_match e txn ds in
  let G := globals_of e txn ds in
  let st := match_loop (rules e) txn ds G in
  match res_matched_rule R with
  | Some w =>
      res_matched R = true ∧ res_category R = category w
      ∧ w ∈ matching_category_rules e txn ds
      ∧ res_extra_fields R = _evaluate_fields w txn (rule_scope w txn G ds) ds
      ∧ res_transform_description R
        = (if str_nonempty (transform w)
           then _evaluate_transform w txn (rule_scope w txn G ds) ds else EmptyString)
      ∧ res_tag_sources R
        = (if set_nonempty (tags w)
           then claim_tags w (tags_of_rule txn ds G w) (all_tags st) else all_tags st).2
      ∧ res_tag_rules R = tag_rules st ++ (if set_nonempty (tags w) then [w] else [])
  | None =>
      res_matched R = false ∧ res_category R = EmptyString
      ∧ matching_category_rules e txn ds = []
      ∧ res_extra_fields R = ∅
      ∧ res_transform_description R = EmptyString
      ∧ res_tag_sources R = (all_tags st).2
      ∧ res_tag_rules R = tag_rules st
  end.
Proof.
  intros R G st. subst R G st. unfold engine_match. fold (globals_of e txn ds).
  destruct (decide (match_mode e = "first_match")) as [Hmode|Hmode].
  - destruct (loop_spec txn ds (globals_of e txn ds) (rules e) (mkLoop [] None (∅, ∅) []))
      as (_ & H2 & _).
    unfold match_loop in *. rewrite H2. simpl.
    destruct (List.find _ (rules e)) as [w|] eqn:Hf; simpl.
    + apply find_some in Hf as [Hin Hw]. apply andb_true_iff in Hw as [Hm Hc].
      split; [done|]. split; [done|]. split.
      { unfold matching_category_rules, matching_of.
        apply list_elem_of_In, filter_In. split; [|done].
        apply filter_In. done. }
      split.
      { destruct (fields w) eqn:Hfs; simpl; [|done].
        unfold _evaluate_fields. by rewrite Hfs. }
      split; [done|]. split.
      { unfold tags_of_rule. by destruct (set_nonempty (tags w)). }
      destruct (set_nonempty (tags w)); [done|by rewrite app_nil_r].
    + split; [done|]. split; [done|]. split; [|done].
      apply (find_category_none e txn ds).
      intros r Hr Hm.
      pose proof (List.find_none _ _ Hf r) as Hn. simpl in Hn.
      unfold rule_matches in Hm. fold (globals_of e txn ds) in Hm.
      rewrite Hm in Hn. simpl in Hn. apply Hn. by apply list_elem_of_In.
  - destruct (field_winner e txn ds is_categorization_rule) as [Hnil Hne].
    fold (matching_category_rules e txn ds) in *. unfold match_loop in *.
    destruct (decide (matching_category_rules e txn ds = [])) as [Hc|Hc].
    + rewrite (Hnil Hc). simpl. done.
    + destruct (Hne Hc) as (w & -> & Hmax). simpl.
      split; [done|]. split; [done|]. split; [by apply first_maximal_elem|].
      split.
      { destruct (fields w) eqn:Hfs; simpl; [|done].
        unfold _evaluate_fields. by rewrite Hfs. }
      split; [done|]. split.
      { unfold tags_of_rule. by destruct (set_nonempty (tags w)). }
      destruct (set_nonempty (tags w)); [done|by rewrite app_nil_r].
Qed.

Lemma matching_tag_only_spec e txn ds :
  List.filter
    (λ r, matches_in txn ds (globals_of e txn ds) r && negb (is_categorization_rule r))
    (rules e)
  = matching_tag_only_rules e txn ds.
Proof.
  unfold matching_tag_only_rules, matching_of. by rewrite filter_filter_and.
Qed.

(** X12: [tag_sources] records, for every tag of the result, the name and
    match expression of the first rule that resolves to the tag among
    the matching rules without a category, taken in file order, followed
    by the rule that wins the category; a tag that no such rule resolves
    to has no entry. *)
Theorem tag_source_is_first_contributor e txn ds (t : string) :
  res_tag_sources (engine_match e txn ds) !! t
  = source_of <$> List.find (resolves_to e txn ds t) (tag_contributors e txn ds).
Proof.
  pose proof (result_by_winner e txn ds) as Hw. cbv zeta in Hw.
  destruct (loop_spec txn ds (globals_of e txn ds) (rules e) (mkLoop [] None (∅, ∅) []))
    as (_ & _ & _ & Hdom).
  specialize (Hdom dom_empty_L).
  pose proof (loop_sources txn ds (globals_of e txn ds) (rules e)
                (mkLoop [] None (∅, ∅) []) t) as Hsrc.
  simpl in Hsrc. rewrite decide_False in Hsrc by set_solver.
  rewrite matching_tag_only_spec, lookup_empty in Hsrc.
  fold (match_loop (rules e) txn ds (globals_of e txn ds)) in Hsrc, Hdom.
  unfold tag_contributors. rewrite find_append.
  fold (resolves_to e txn ds t) in Hsrc.
  assert (t ∈ (all_tags (match_loop (rules e) txn ds (globals_of e txn ds))).1
          ↔ is_Some (List.find (resolves_to e txn ds t) (matching_tag_only_rules e txn ds)))
    as Hin.
  { rewrite <- Hdom, elem_of_dom, Hsrc.
    destruct (List.find _ _); split; intros [? ?]; by eauto. }
  destruct (res_matched_rule (engine_match e txn ds)) as [w|] eqn:Hr.
  - destruct Hw as (_ & _ & _ & _ & _ & -> & _).
    destruct (set_nonempty (tags w)) eqn:Ht.
    + rewrite claim_tags_snd.
      destruct (List.find _ (matching_tag_only_rules e txn ds)) as [r|] eqn:Hf.
      * rewrite decide_True by (apply Hin; eauto). by rewrite Hsrc.
      * rewrite decide_False by (intros [? ?]%Hin; done).
        simpl. unfold resolves_to. rewrite Hsrc.
        case_decide; [by rewrite bool_decide_eq_true_2|by rewrite bool_decide_eq_false_2].
    + rewrite Hsrc.
      destruct (List.find _ (matching_tag_only_rules e txn ds)) as [r|] eqn:Hf; [done|].
      simpl. unfold resolves_to, tags_of_rule.
      rewrite resolve_tags_no_tags by done.
      by rewrite bool_decide_eq_false_2 by set_solver.
  - destruct Hw as (_ & _ & _ & _ & _ & -> & _). rewrite Hsrc. simpl.
    by destruct (List.find _ _).
Qed.

(** X13: a result is matched exactly when some matching rule declares a
    category, in either mode; the matched rule is then one of these
    rules and gives the category; [tag_rules] lists the matching rules
    without a category in file order, followed by the matched rule when
    it declares tags; and every rule of [tag_rules] is among
    [all_matching_rules]. *)
Theorem matched_iff_category_rule_matches e txn ds :
  (res_matched (engine_match e txn ds) = true ↔ matching_category_rules e txn ds ≠ [])
  ∧ (res_matched (engine_match e txn ds) = true
     ↔ is_Some (res_matched_rule (engine_match e txn ds)))
  ∧ (∀ w, res_matched_rule (engine_match e txn ds) = Some w →
          w ∈ matching_category_rules e txn ds
          ∧ res_category (engine_match e txn ds) = category w)
  ∧ res_tag_rules (engine_match e txn ds)
    = matching_tag_only_rules e txn ds
      ++ match res_matched_rule (engine_match e txn ds) with
         | Some w => if set_nonempty (tags w) then [w] else []
         | None => []
         end
  ∧ (∀ r, r ∈ res_tag_rules (engine_match e txn ds) →
          r ∈ res_all_matching_rules (engine_match e txn ds)).
Proof.
  pose proof (result_by_winner e txn ds) as Hw. cbv zeta in Hw.
  pose proof (loop_tag_rules txn ds (globals_of e txn ds) (rules e)
                (mkLoop [] None (∅, ∅) [])) as Htr.
  simpl in Htr. rewrite matching_tag_only_spec in Htr.
  fold (match_loop (rules e) txn ds (globals_of e txn ds)) in Htr.
  assert (res_tag_rules (engine_match e txn ds)
          = matching_tag_only_rules e txn ds
            ++ match res_matched_rule (engine_match e txn ds) with
               | Some w => if set_nonempty (tags w) then [w] else []
               | None => []
               end) as Htag.
  { destruct (res_matched_rule (engine_match e txn ds)) as [w|].
    - destruct Hw as (_ & _ & _ & _ & _ & _ & ->). by rewrite Htr.
    - destruct Hw as (_ & _ & _ & _ & _ & _ & ->). by rewrite Htr, app_nil_r. }
  split; [|split; [|split; [|split]]].
  - destruct (res_matched_rule (engine_match e txn ds)) as [w|].
    + destruct Hw as (-> & _ & Hin & _). split; [|done].
      intros _ Hnil. rewrite Hnil in Hin. by apply elem_of_nil in Hin.
    + destruct Hw as (-> & _ & -> & _). done.
  - destruct (res_matched_rule (engine_match e txn ds)) as [w|].
    + destruct Hw as (-> & _). split; [by eauto|done].
    + destruct Hw as (-> & _). split; [done|by intros [? ?]].
  - intros w Hr. rewrite Hr in Hw. by destruct Hw as (_ & -> & Hin & _).
  - exact Htag.
  - intros r. rewrite Htag, all_matching_rules_spec.
    intros [Hr|Hr]%elem_of_app.
    + unfold matching_tag_only_rules in Hr.
      apply list_elem_of_In, filter_In in Hr as [Hr _]. by apply list_elem_of_In.
    + destruct (res_matched_rule (engine_match e txn ds)) as [w|];
        [|by apply elem_of_nil in Hr].
      destruct Hw as (_ & _ & Hin & _).
      destruct (set_nonempty (tags w)); [|by apply elem_of_nil in Hr].
      apply list_elem_of_singleton in Hr as ->.
      unfold matching_category_rules in Hin.
      apply list_elem_of_In, filter_In in Hin as [Hin _]. by apply list_elem_of_In.
Qed.

(** X14: the extra fields of a result come from the rule that wins the
    category and from no other: with no such rule there are none, and
    the transform description is empty; otherwise, for field names that
    the rule declares once, a field whose expression evaluates, in the
    scope of the rule, has that value, a field whose expression fails is
    left out, and names that the rule does not declare are absent. *)
Theorem extra_fields_of_winner e txn ds :
  (res_matched_rule (engine_match e txn ds) = None →
   res_extra_fields (engine_match e txn ds) = ∅
   ∧ res_transform_description (engine_match e txn ds) = EmptyString)
  ∧ (∀ w, res_matched_rule (engine_match e txn ds) = Some w →
          NoDup (fields w).*1 →
          (∀ k expr, (k, expr) ∈ fields w →
             res_extra_fields (engine_match e txn ds) !! k
             = evaluate_transaction expr txn
                 (rule_scope w txn (globals_of e txn ds) ds) ds)
          ∧ (∀ k, k ∉ (fields w).*1 →
                  res_extra_fields (engine_match e txn ds) !! k = None)).
Proof.
  pose proof (result_by_winner e txn ds) as Hw. cbv zeta in Hw. split.
  - intros Hr. rewrite Hr in Hw. by destruct Hw as (_ & _ & _ & -> & -> & _).
  - intros w Hr Hnd. rewrite Hr in Hw. destruct Hw as (_ & _ & _ & -> & _).
    unfold _evaluate_fields. split.
    + intros k expr Hin.
      rewrite (proj2 (fold_fields_lookup
                 (λ x, evaluate_transaction x txn
                         (rule_scope w txn (globals_of e txn ds) ds) ds)
                 (fields w) ∅ k Hnd) expr Hin).
      by destruct (evaluate_transaction _ _ _ _).
    + intros k Hk.
      by rewrite (proj1 (fold_fields_lookup
                    (λ x, evaluate_transaction x txn
                            (rule_scope w txn (globals_of e txn ds) ds) ds)
                    (fields w) ∅ k Hnd) Hk).
Qed.

(** X15: in a mode other than [first_match] the merchant and the
    subcategory are resolved on their own: each is taken from the first
    rule of maximal specificity among all matching rules that set it,
    rules without a category included, so a result can carry a merchant
    or a subcategory without being matched; with no matching rule that
    sets it the field is empty.  In [first_match] mode both come from
    the matched rule only. *)
Theorem fields_resolved_one_by_one e txn ds :
  (match_mode e = "first_match" →
   res_merchant_rule (engine_match e txn ds) = res_matched_rule (engine_match e txn ds)
   ∧ res_merchant (engine_match e txn ds)
     = from_option merchant EmptyString (res_matched_rule (engine_match e txn ds))
   ∧ res_subcategory (engine_match e txn ds)
     = from_option subcategory EmptyString (res_matched_rule (engine_match e txn ds)))
  ∧ (match_mode e ≠ "first_match" →
     (List.filter has_merchant (matching_of e txn ds) = [] →
      res_merchant_rule (engine_match e txn ds) = None
      ∧ res_merchant (engine_match e txn ds) = EmptyString)
     ∧ (List.filter has_merchant (matching_of e txn ds) ≠ [] →
        ∃ w, res_merchant_rule (engine_match e txn ds) = Some w
             ∧ res_merchant (engine_match e txn ds) = merchant w
             ∧ first_maximal w (List.filter has_merchant (matching_of e txn ds)))
     ∧ (List.filter has_subcategory (matching_of e txn ds) = [] →
        res_subcategory_rule (engine_match e txn ds) = None
        ∧ res_subcategory (engine_match e txn ds) = EmptyString)
     ∧ (List.filter has_subcategory (matching_of e txn ds) ≠ [] →
        ∃ w, res_subcategory_rule (engine_match e txn ds) = Some w
             ∧ res_subcategory (engine_match e txn ds) = subcategory w
             ∧ first_maximal w (List.filter has_subcategory (matching_of e txn ds)))).
Proof.
  split.
  - intros Hmode. unfold engine_match. rewrite decide_True by done.
    destruct (first_category_rule _) as [[w V]|]; simpl; [|done].
    by rewrite subcategory_if.
  - intros Hmode.
    destruct (field_winner e txn ds has_merchant) as [Hnil Hne].
    destruct (field_winner e txn ds has_subcategory) as [Hnil' Hne'].
    unfold engine_match. rewrite decide_False by done.
    fold (globals_of e txn ds). split; [|split; [|split]].
    + intros Hc. rewrite (Hnil Hc). done.
    + intros Hc. destruct (Hne Hc) as (w & -> & Hmax). exists w. done.
    + intros Hc. rewrite (Hnil' Hc). done.
    + intros Hc. destruct (Hne' Hc) as (w & -> & Hmax). exists w. done.
Qed.

Lemma matching_category_perm e txn ds (rules' : list MerchantRule) (x : MerchantRule) :
  rules' ≡ₚ rules e →
  x ∈ matching_category_rules (with_rules e rules') txn ds
  ↔ x ∈ matching_category_rules e txn ds.
Proof.
  intros Hp. unfold matching_category_rules, matching_of.
  change (rule_matches (with_rules e rules') txn ds) with (rule_matches e txn ds).
  change (rules (with_rules e rules')) with rules'.
  rewrite !list_elem_of_In, !filter_In, <- !list_elem_of_In.
  split; intros [[H1 H2] H3]; (split; [split|]; try done).
  - by rewrite <- Hp.
  - by rewrite Hp.
Qed.

Lemma tag_only_union_perm txn ds G (l1 l2 : list MerchantRule) :
  l1 ≡ₚ l2 → tag_only_union txn ds G l1 = tag_only_union txn ds G l2.
Proof.
  intros Hp. apply set_eq. intros t. unfold tag_only_union.
  rewrite !elem_of_union_list. split.
  - intros (X & (r & -> & Hr)%list_elem_of_fmap & Ht).
    exists (tags_of_rule txn ds G r). split; [|done].
    apply list_elem_of_fmap. exists r. split; [done|].
    apply list_elem_of_In, filter_In. apply list_elem_of_In, filter_In in Hr as [Hr HP].
    split; [|done]. apply list_elem_of_In. rewrite <- Hp. by apply list_elem_of_In.
  - intros (X & (r & -> & Hr)%list_elem_of_fmap & Ht).
    exists (tags_of_rule txn ds G r). split; [|done].
    apply list_elem_of_fmap. exists r. split; [done|].
    apply list_elem_of_In, filter_In. apply list_elem_of_In, filter_In in Hr as [Hr HP].
    split; [|done]. apply list_elem_of_In. rewrite Hp. by apply list_elem_of_In.
Qed.

Lemma unique_maximal_wins e txn ds w :
  match_mode e ≠ "first_match" →
  w ∈ matching_category_rules e txn ds →
  (∀ x, x ∈ matching_category_rules e txn ds →
        x = w ∨ spec_lt (calculate_specificity x) (calculate_specificity w)) →
  res_matched_rule (engine_match e txn ds) = Some w
  ∧ res_category (engine_match e txn ds) = category w.
Proof.
  intros Hmode Hin Hmax.
  destruct (most_specific_category e txn ds Hmode) as [_ Hne].
  destruct Hne as (w' & _ & Hr & Hc & Hfm).
  { intros Hnil. rewrite Hnil in Hin. by apply elem_of_nil in Hin. }
  assert (w' = w) as ->; [|done].
  pose proof (first_maximal_elem _ _ Hfm) as Hin'.
  destruct (Hmax w' Hin') as [->|Hlt]; [done|]. exfalso.
  destruct Hfm as (pre & post & Heq & Hpre & Hpost).
  rewrite Heq in Hin.
  apply elem_of_app in Hin as [Hin|Hin].
  - apply (spec_lt_irrefl (calculate_specificity w)).
    eapply spec_lt_trans; [by apply Hpre|done].
  - apply elem_of_cons in Hin as [->|Hin].
    + by apply (spec_lt_irrefl (calculate_specificity w')).
    + by apply (Hpost w Hin).
Qed.

(** X16: in a mode other than [first_match], when one matching rule with a
    category has a specificity key greater than that of every other
    such rule, it wins the category wherever it stands in the file:
    every reordering of the rules gives the same matched rule, the same
    category and the same tags. *)
Theorem most_specific_ignores_order e txn ds (rules' : list MerchantRule) w :
  match_mode e ≠ "first_match" →
  rules' ≡ₚ rules e →
  w ∈ matching_category_rules e txn ds →
  (∀ x, x ∈ matching_category_rules e txn ds →
        x = w ∨ spec_lt (calculate_specificity x) (calculate_specificity w)) →
  res_matched_rule (engine_match (with_rules e rules') txn ds) = Some w
  ∧ res_matched_rule (engine_match e txn ds) = Some w
  ∧ res_category (engine_match (with_rules e rules') txn ds) = category w
  ∧ res_tags (engine_match (with_rules e rules') txn ds)
    = res_tags (engine_match e txn ds).
Proof.
  intros Hmode Hp Hin Hmax.
  destruct (unique_maximal_wins e txn ds w Hmode Hin Hmax) as [H1 H2].
  destruct (unique_maximal_wins (with_rules e rules') txn ds w) as [H3 H4].
  - done.
  - by apply matching_category_perm.
  - intros x Hx. apply Hmax. by apply (matching_category_perm e txn ds rules').
  - split; [done|]. split; [done|]. split; [done|].
    rewrite (result_tags (with_rules e rules')), (result_tags e), H1, H3.
    f_equal. by apply tag_only_union_perm.
Qed.

End ResultFacts.

(** ** More on texts *)

Lemma append_nil_r (s : string) : s +:+ EmptyString = s.
Proof. induction s as [|c s IH]; [done|]. by rewrite append_cons, IH. Qed.

Lemma append_assoc (a b c : string) : (a +:+ b) +:+ c = a +:+ (b +:+ c).
Proof. induction a as [|x a IH]; [done|]. by rewrite !append_cons, IH. Qed.

Lemma append_snoc (a : string) (c : ascii) (b : string) :
  (a +:+ String c EmptyString) +:+ b = a +:+ String c b.
Proof. by rewrite append_assoc. Qed.

Lemma str_forall_app (p : ascii → bool) (a b : string) :
  str_forall p (a +:+ b) = str_forall p a && str_forall p b.
Proof.
  induction a as [|c a IH]; [done|].
  rewrite append_cons. simpl. by rewrite IH, andb_assoc.
Qed.

Lemma str_forall_impl (p q : ascii → bool) (s : string) :
  (∀ c, p c = true → q c = true) → str_forall p s = true → str_forall q s = true.
Proof.
  intros Hpq. induction s as [|c s IH]; simpl; [done|].
  intros [Hc Hs]%andb_true_iff. by rewrite (Hpq c Hc), IH.
Qed.

Lemma str_rstrip_not_space (s : string) : str_forall not_space s = true → str_rstrip s = s.
Proof.
  induction s as [|c s IH]; simpl; [done|].
  intros [Hc Hs]%andb_true_iff. rewrite IH by done.
  unfold not_space in Hc. apply negb_true_iff in Hc. rewrite Hc. by destruct s.
Qed.

Lemma str_strip_not_space (s : string) : str_forall not_space s = true → str_strip s = s.
Proof.
  intros Hs. unfold str_strip.
  assert (str_lstrip s = s) as ->; [|by apply str_rstrip_not_space].
  destruct s as [|c s]; [done|]. simpl in *.
  apply andb_true_iff in Hs as [Hc _].
  unfold not_space in Hc. apply negb_true_iff in Hc. by rewrite Hc.
Qed.

(** ** [int] reads what [str] writes *)

Lemma digit_char (d : N) :
  (d < 10)%N →
  is_digit (pretty_N_char d) = true
  ∧ Z.of_N (N_of_ascii (pretty_N_char d)) - 48 = Z.of_N d.
Proof.
  intros Hd.
  assert (d = 0 ∨ d = 1 ∨ d = 2 ∨ d = 3 ∨ d = 4 ∨ d = 5 ∨ d = 6 ∨ d = 7 ∨ d = 8 ∨ d = 9)%N
    as Hcases by lia.
  repeat (destruct Hcases as [->|Hcases]; [done|]). by subst.
Qed.

Lemma is_digit_not_space (c : ascii) : is_digit c = true → not_space c = true.
Proof.
  unfold is_digit, not_space, py_isspace.
  generalize (N_of_ascii c). intros n H.
  apply andb_true_iff in H as [H1 H2].
  apply N.leb_le in H1, H2. apply negb_true_iff, orb_false_iff.
  split; apply andb_false_iff; rewrite !N.leb_gt; lia.
Qed.

Lemma is_digit_not_sign (c : ascii) :
  is_digit c = true → c ≠ "-"%char ∧ c ≠ "+"%char ∧ c ≠ "_"%char.
Proof. intros H. repeat split; intros ->; done. Qed.

(** The digits that [pretty] writes for a positive number: [int] reads
    them back, and none of them is white space. *)
Lemma pretty_go_digits (x : N) :
  ∀ (s : string) (acc : Z) (after_digit : bool),
    (0 < x)%N →
    (∃ acc',
       digits_value (pretty_N_go x s) acc after_digit = digits_value s acc' true
       ∧ (acc = 0 → acc' = Z.of_N x))
    ∧ ∃ d c d', pretty_N_go x s = d +:+ s ∧ d = String c d'
                ∧ str_forall is_digit d = true.
Proof.
  induction (N.lt_wf_0 x) as [x _ IH]. intros s acc ad Hx.
  rewrite pretty_N_go_step by done.
  destruct (digit_char (x `mod` 10)%N) as [Hd Hv]; [by apply N.mod_lt|].
  destruct (N.eq_0_gt_0_cases (x `div` 10)%N) as [Hz|Hpos].
  - rewrite Hz, pretty_N_go_0. split.
    + eexists. split; [simpl; by rewrite Hd|].
      intros ->. rewrite Hv.
      assert (x = x `mod` 10)%N as <-; [|lia].
      rewrite (N.div_mod x 10) at 1 by done. lia.
    + exists (String (pretty_N_char (x `mod` 10)) EmptyString). eexists _, _.
      split; [done|]. split; [done|]. simpl. by rewrite Hd.
  - destruct (IH (x `div` 10)%N) with
      (s := String (pretty_N_char (x `mod` 10)) s) (acc := acc) (after_digit := ad)
      as [(acc1 & H1 & H2) (d & c & d' & H3 & H4 & H5)].
    { by apply N.div_lt. }
    { done. }
    split.
    + eexists. split; [rewrite H1; simpl; by rewrite Hd|].
      intros Hacc. rewrite (H2 Hacc), Hv.
      rewrite (N.div_mod x 10) at 3 by done. lia.
    + exists (d +:+ String (pretty_N_char (x `mod` 10)) EmptyString), c,
        (d' +:+ String (pretty_N_char (x `mod` 10)) EmptyString).
      split; [by rewrite H3, append_snoc|]. split; [by rewrite H4, append_cons|].
      rewrite str_forall_app, H5. simpl. by rewrite Hd.
Qed.

Lemma pretty_positive_digits (p : positive) :
  ∃ c d, pretty p = String c d
         ∧ str_forall is_digit (String c d) = true
         ∧ digits_value (String c d) 0 false = Some (Z.pos p).
Proof.
  unfold pretty, pretty_positive, pretty, pretty_N.
  rewrite decide_False by done.
  destruct (pretty_go_digits (N.pos p) EmptyString 0 false)
    as [(acc' & H1 & H2) (d & c & d' & H3 & H4 & H5)]; [done|].
  rewrite append_nil_r in H3. rewrite H4 in H3, H5. clear H4.
  exists c, d'. split; [done|]. split; [done|].
  rewrite <- H3, H1. simpl. by rewrite H2.
Qed.

Lemma py_int_pretty (z : Z) : py_int (pretty z) = Some z.
Proof.
  destruct z as [|p|p].
  - done.
  - change (pretty (Z.pos p)) with (pretty p).
    destruct (pretty_positive_digits p) as (c & d & -> & Hd & Hv).
    unfold py_int.
    rewrite str_strip_not_space
      by (eapply str_forall_impl; [apply is_digit_not_space|done]).
    simpl in Hd. apply andb_true_iff in Hd as [Hc _].
    destruct (is_digit_not_sign c Hc) as (H1 & H2 & _).
    destruct (ascii_dec c "-"); [done|]. destruct (ascii_dec c "+"); [done|]. done.
  - change (pretty (Z.neg p)) with ("-" +:+ pretty p).
    destruct (pretty_positive_digits p) as (c & d & -> & Hd & Hv).
    change ("-" +:+ String c d) with (String "-" (String c d)).
    unfold py_int.
    rewrite str_strip_not_space.
    2:{ change (str_forall not_space (String "-" (String c d)))
          with (str_forall not_space (String c d)).
        eapply str_forall_impl; [apply is_digit_not_space|done]. }
    simpl. simpl in Hv. by rewrite Hv.
Qed.

(** ** The [tags:] property *)

Lemma add_tag_elem (current : string) (tags : gset string) (t : string) :
  t ∈ add_tag current tags
  ↔ (t = str_strip current ∧ t ≠ EmptyString) ∨ t ∈ tags.
Proof.
  unfold add_tag. destruct (str_nonempty (str_strip current)) eqn:Hne.
  - rewrite elem_of_union, elem_of_singleton. split; [|tauto].
    intros [->|H]; [|tauto]. left. split; [done|]. by destruct (str_strip current).
  - split; [tauto|]. intros [[-> Ht]|H]; [|done]. by destruct (str_strip current).
Qed.

Lemma scan_plain (seg rest : string) (depth : Z) (current : string) (tags : gset string) :
  str_forall tag_char seg = true →
  parse_tags_from (seg +:+ rest) depth current tags
  = parse_tags_from rest depth (current +:+ seg) tags.
Proof.
  revert current. induction seg as [|c seg IH]; intros current Hs.
  - by rewrite append_nil_l, append_nil_r.
  - simpl in Hs. apply andb_true_iff in Hs as [Hc Hs].
    unfold tag_char in Hc.
    apply andb_true_iff in Hc as [[H1 H2]%andb_true_iff H3].
    apply negb_true_iff, bool_decide_eq_false in H1, H2, H3.
    rewrite append_cons. simpl.
    destruct (ascii_dec c "("); [done|]. destruct (ascii_dec c ")"); [done|].
    rewrite bool_decide_eq_false_2 by done. simpl.
    rewrite IH by done. by rewrite append_snoc.
Qed.

Lemma scan_inside (seg rest : string) (depth : Z) (current : string) (tags : gset string) :
  depth ≠ 0 → str_forall not_paren seg = true →
  parse_tags_from (seg +:+ rest) depth current tags
  = parse_tags_from rest depth (current +:+ seg) tags.
Proof.
  intros Hd. revert current. induction seg as [|c seg IH]; intros current Hs.
  - by rewrite append_nil_l, append_nil_r.
  - simpl in Hs. apply andb_true_iff in Hs as [Hc Hs].
    unfold not_paren in Hc. apply andb_true_iff in Hc as [H1 H2].
    apply negb_true_iff, bool_decide_eq_false in H1, H2.
    rewrite append_cons. simpl.
    destruct (ascii_dec c "("); [done|]. destruct (ascii_dec c ")"); [done|].
    apply Z.eqb_neq in Hd. rewrite Hd, andb_false_r.
    rewrite IH by done. by rewrite append_snoc.
Qed.

Lemma scan_items (items : list string) (tags : gset string) (current : string) (t : string) :
  Forall (λ s, str_forall tag_char s = true) items →
  t ∈ parse_tags_from (str_join "," items) 0 current tags
  ↔ match items with
    | [] => t ∈ add_tag current tags
    | first :: others =>
        (t = str_strip (current +:+ first) ∧ t ≠ EmptyString)
        ∨ (∃ s, s ∈ others ∧ t = str_strip s ∧ t ≠ EmptyString)
        ∨ t ∈ tags
    end.
Proof.
  intros Hall. revert current tags.
  induction Hall as [|a items Ha Hall IH]; intros current tags; [done|].
  destruct items as [|b items].
  - simpl. rewrite <- (append_nil_r a) at 1. rewrite scan_plain by done.
    simpl. rewrite add_tag_elem. split; [|by intros [?|[(s & Hs & _)|?]]; [left|set_solver|right]].
    intros [?|?]; [by left|by right; right].
  - change (str_join "," (a :: b :: items)) with (a +:+ "," +:+ str_join "," (b :: items)).
    rewrite scan_plain by done.
    change ("," +:+ str_join "," (b :: items)) with (String "," (str_join "," (b :: items))).
    simpl parse_tags_from.
    rewrite (IH EmptyString (add_tag (current +:+ a) tags)).
    rewrite append_nil_l, add_tag_elem. split.
    + intros [H|[(s & Hs & H)|[H|H]]].
      * right. left. exists b. split; [by left|done].
      * right. left. exists s. split; [by right|done].
      * by left.
      * by right; right.
    + intros [H|[(s & Hs & H)|H]].
      * right. right. by left.
      * apply elem_of_cons in Hs as [->|Hs]; [by left|].
        right. left. by exists s.
      * right. right. by right.
Qed.

Lemma parse_tags_items (items : list string) (t : string) :
  Forall (λ s, str_forall tag_char s = true) items →
  t ∈ parse_tags (str_join "," items)
  ↔ ∃ s, s ∈ items ∧ t = str_strip s ∧ t ≠ EmptyString.
Proof.
  intros Hall. unfold parse_tags. rewrite scan_items by done.
  destruct items as [|a items].
  - rewrite add_tag_elem. split.
    + intros [[-> Ht]|Ht]; [done|by apply not_elem_of_empty in Ht].
    + intros (s & Hs & _). by apply elem_of_nil in Hs.
  - rewrite append_nil_l. split.
    + intros [H|[(s & Hs & H)|H]].
      * exists a. split; [by left|done].
      * exists s. split; [by right|done].
      * by apply not_elem_of_empty in H.
    + intros (s & [->|Hs]%elem_of_cons & H); [by left|].
      right. left. by exists s.
Qed.

(** X17: the tags of a [tags:] property are never empty and carry no white
    space at either end; a value made of items without parentheses,
    separated by commas, gives the set of its stripped non-empty items;
    and a comma between a pair of parentheses does not split: a single
    parenthesised text is one tag. *)
Theorem parse_tags_spec :
  (∀ value t, t ∈ parse_tags value → t ≠ EmptyString ∧ str_strip t = t)
  ∧ (∀ items t,
       Forall (λ s, str_forall tag_char s = true) items →
       t ∈ parse_tags (str_join "," items)
       ↔ ∃ s, s ∈ items ∧ t = str_strip s ∧ t ≠ EmptyString)
  ∧ (∀ pre inner post,
       str_forall tag_char pre = true → str_forall not_paren inner = true →
       str_forall tag_char post = true →
       parse_tags (pre +:+ "(" +:+ inner +:+ ")" +:+ post)
       = add_tag (pre +:+ "(" +:+ inner +:+ ")" +:+ post) ∅).
Proof.
  split; [|split].
  - intros value. unfold parse_tags.
    assert (∀ depth current (tags : gset string) t,
              (∀ x, x ∈ tags → x ≠ EmptyString ∧ str_strip x = x) →
              t ∈ parse_tags_from value depth current tags →
              t ≠ EmptyString ∧ str_strip t = t) as H.
    { induction value as [|c value IH]; intros depth current tags t Htags; simpl.
      - intros [[-> Ht]|Ht]%add_tag_elem; [|by apply Htags].
        split; [done|apply str_strip_idem].
      - assert (∀ x, x ∈ add_tag current tags → x ≠ EmptyString ∧ str_strip x = x) as Hadd.
        { intros x [[-> Hx]|Hx]%add_tag_elem; [|by apply Htags].
          split; [done|apply str_strip_idem]. }
        repeat case_match; by eapply IH. }
    intros t. apply H. intros x Hx. by apply not_elem_of_empty in Hx.
  - intros items t. apply parse_tags_items.
  - intros pre inner post Hpre Hinner Hpost. unfold parse_tags.
    rewrite scan_plain by done.
    change ("(" +:+ inner +:+ ")" +:+ post) with (String "(" (inner +:+ ")" +:+ post)).
    simpl parse_tags_from. rewrite scan_inside by done.
    change (")" +:+ post) with (String ")" post).
    simpl parse_tags_from.
    rewrite <- (append_nil_r post) at 1. rewrite scan_plain by done. simpl.
    f_equal. rewrite !append_nil_l, !append_assoc. done.
Qed.

(** ** What the parser stores *)

Lemma span_spec (p : ascii → bool) (s a b : string) :
  span p s = (a, b) →
  s = a +:+ b ∧ str_forall p a = true
  ∧ match b with
    | EmptyString => True
    | String c _ => p c = false
    end.
Proof.
  revert a b. induction s as [|c s IH]; intros a b; simpl.
  - by intros [= <- <-].
  - destruct (p c) eqn:Hc.
    + destruct (span p s) as [a' b'] eqn:Hs. intros [= <- <-].
      destruct (IH a' b' eq_refl) as (-> & Ha & Hb).
      rewrite append_cons. simpl. by rewrite Hc, Ha.
    + intros [= <- <-]. by rewrite Hc.
Qed.

Lemma stripped_rstrip (s : string) : stripped s → str_rstrip s = s.
Proof.
  unfold stripped, str_strip. intros H. rewrite <- H at 1. by rewrite str_rstrip_idem.
Qed.

Lemma rstrip_suffix (a b : string) :
  str_rstrip (a +:+ b) = a +:+ b → b ≠ EmptyString → str_rstrip b = b.
Proof.
  intros H Hb. induction a as [|c a IH]; [done|].
  apply IH. rewrite append_cons in H. simpl in H.
  destruct (str_rstrip (a +:+ b)) as [|d r] eqn:Hr.
  - exfalso. destruct (py_isspace c); [done|].
    injection H as H. destruct a; [|done]. by rewrite append_nil_l in H.
  - by injection H.
Qed.

Lemma rstrip_spaces (w : string) : str_forall py_isspace w = true → str_rstrip w = EmptyString.
Proof.
  induction w as [|c w IH]; simpl; [done|].
  intros [Hc Hw]%andb_true_iff. by rewrite IH, Hc.
Qed.

Lemma stripped_suffix (s a : string) (c : ascii) (b : string) :
  stripped s → s = a +:+ String c b → py_isspace c = false → stripped (String c b).
Proof.
  intros Hs -> Hc. apply stripped_rstrip in Hs.
  unfold stripped, str_strip. simpl. rewrite Hc.
  by apply (rstrip_suffix a).
Qed.

Lemma stripped_lstrip (s : string) : stripped s → str_lstrip s = s.
Proof.
  unfold stripped, str_strip. intros H.
  pose proof (str_lstrip_head s) as Hh.
  destruct (str_lstrip s) as [|c t] eqn:Hl.
  - simpl in H. by subst.
  - destruct (str_rstrip_head c t Hh) as [r Hr]. rewrite Hr in H. subst s.
    simpl in Hl. rewrite Hh in Hl. by rewrite Hl.
Qed.

Lemma lstrip_spaces (ws s : string) :
  str_forall py_isspace ws = true → str_lstrip (ws +:+ s) = str_lstrip s.
Proof.
  induction ws as [|c ws IH]; [done|].
  intros [Hc Hw]%andb_true_iff. rewrite append_cons. simpl. by rewrite Hc, IH.
Qed.

Lemma rstrip_app_spaces (s ws : string) :
  str_forall py_isspace ws = true → str_rstrip (s +:+ ws) = str_rstrip s.
Proof.
  intros Hw. induction s as [|c s IH].
  - rewrite append_nil_l. by apply rstrip_spaces.
  - rewrite append_cons. simpl. by rewrite IH.
Qed.

(** [strip] removes the white space around a stripped text. *)
Lemma strip_padded (ws1 s ws2 : string) :
  stripped s → str_forall py_isspace ws1 = true → str_forall py_isspace ws2 = true →
  str_strip (ws1 +:+ s +:+ ws2) = s.
Proof.
  intros Hs H1 H2. unfold str_strip. rewrite lstrip_spaces by done.
  destruct s as [|c s].
  - rewrite append_nil_l.
    rewrite <- (append_nil_r ws2), lstrip_spaces by done. done.
  - pose proof (stripped_lstrip _ Hs) as Hl.
    pose proof (str_lstrip_head (String c s)) as Hh. rewrite Hl in Hh.
    rewrite append_cons. simpl. rewrite Hh. rewrite <- append_cons.
    rewrite rstrip_app_spaces by done. by apply stripped_rstrip.
Qed.

Lemma strip_space_before (s : string) : stripped s → str_strip (String " " s) = s.
Proof.
  intros Hs.
  change (String " " s) with (" " +:+ s). rewrite <- (append_nil_r s) at 1.
  by apply strip_padded.
Qed.

Lemma pretty_not_space (z : Z) :
  str_forall not_space (pretty z) = true ∧ pretty z ≠ EmptyString.
Proof.
  destruct z as [|p|p].
  - done.
  - change (pretty (Z.pos p)) with (pretty p).
    destruct (pretty_positive_digits p) as (c & d & -> & Hd & _).
    split; [|done]. eapply str_forall_impl; [apply is_digit_not_space|done].
  - change (pretty (Z.neg p)) with ("-" +:+ pretty p).
    destruct (pretty_positive_digits p) as (c & d & -> & Hd & _).
    split; [|done].
    change (str_forall not_space ("-" +:+ String c d))
      with (str_forall not_space (String c d)).
    eapply str_forall_impl; [apply is_digit_not_space|done].
Qed.

(** X18: [int] reads back every integer as [str] writes it, also between
    white space: the parser of the [priority:] property accepts what the
    cache writes for a priority. *)
Theorem py_int_reads_pretty (z : Z) (before after : string) :
  str_forall py_isspace before = true → str_forall py_isspace after = true →
  py_int (before +:+ pretty z +:+ after) = Some z.
Proof.
  intros H1 H2.
  assert (stripped (pretty z)) as Hs.
  { apply str_strip_not_space, pretty_not_space. }
  pose proof (py_int_pretty z) as Hz. unfold py_int in *.
  rewrite strip_padded by done. by rewrite Hs in Hz.
Qed.

Lemma match_assignment_stripped (value id expr : string) :
  stripped value → match_assignment value = Some (id, expr) →
  stripped expr ∧ expr ≠ EmptyString.
Proof.
  intros Hv. unfold match_assignment, match_ident, match_rest.
  destruct value as [|c s]; [done|].
  destruct (is_ident_start c); [|done].
  destruct (span is_ident_char s) as [a rest] eqn:Hs.
  destruct (span_spec _ _ _ _ Hs) as (-> & _ & _).
  destruct (span py_isspace rest) as [ws r1] eqn:Hr.
  destruct (span_spec _ _ _ _ Hr) as (-> & _ & _). simpl.
  destruct r1 as [|e r2]; [done|].
  destruct (ascii_dec e "="); [|done].
  destruct (span py_isspace r2) as [w r3] eqn:Hw.
  destruct (span_spec _ _ _ _ Hw) as (-> & Hspaces & Hfirst).
  destruct r3 as [|d r3].
  - destruct (str_last w) as [l|] eqn:Hl; [|done]. intros _. exfalso.
    assert (w ≠ EmptyString) as Hne by (by destruct w).
    rewrite append_nil_r in Hv. apply stripped_rstrip in Hv.
    assert (String c (a +:+ ws +:+ String e w) = (String c (a +:+ ws +:+ String e EmptyString)) +:+ w)
      as Heq.
    { by rewrite append_cons, !append_assoc. }
    rewrite Heq in Hv. apply rstrip_suffix in Hv; [|done].
    rewrite rstrip_spaces in Hv by done. by destruct w.
  - intros [= <- <-]. split; [|done].
    apply (stripped_suffix (String c (a +:+ ws +:+ String e (w +:+ String d r3)))
             (String c (a +:+ ws +:+ String e w)) d r3); [done| |done].
    by rewrite append_cons, !append_assoc.
Qed.

Lemma dict_set_keys (k v : string) (d : list (string * string)) :
  (dict_set k v d).*1 = if bool_decide (k ∈ d.*1) then d.*1 else d.*1 ++ [k].
Proof.
  induction d as [|[k' v'] d IH]; [done|].
  cbn [dict_set]. destruct (decide (k' = k)) as [->|Hk].
  - rewrite bool_decide_eq_true_2 by (rewrite fmap_cons; by left). done.
  - rewrite !fmap_cons, IH. simpl.
    destruct (bool_decide (k ∈ d.*1)) eqn:Hin.
    + apply bool_decide_eq_true in Hin. by rewrite bool_decide_eq_true_2 by by right.
    + apply bool_decide_eq_false in Hin.
      rewrite bool_decide_eq_false_2; [done|].
      intros [?|?]%elem_of_cons; [by subst|done].
Qed.

Lemma dict_set_nodup (k v : string) (d : list (string * string)) :
  NoDup d.*1 → NoDup (dict_set k v d).*1.
Proof.
  intros Hnd. rewrite dict_set_keys. case_bool_decide as Hk; [done|].
  apply NoDup_app. split; [done|]. split; [|apply NoDup_singleton].
  intros x Hx ->%list_elem_of_singleton. done.
Qed.

Lemma dict_set_Forall (P : string * string → Prop) (k v : string)
    (d : list (string * string)) :
  Forall P d → P (k, v) → Forall P (dict_set k v d).
Proof.
  intros Hd Hkv. induction Hd as [|[k' v'] d Hx Hd IH]; simpl.
  - by constructor.
  - case_decide; by constructor.
Qed.

Lemma parse_tags_shape (value t : string) :
  t ∈ parse_tags value → t ≠ EmptyString ∧ stripped t.
Proof.
  unfold parse_tags.
  assert (∀ depth current (tags : gset string),
            (∀ x, x ∈ tags → x ≠ EmptyString ∧ stripped x) →
            t ∈ parse_tags_from value depth current tags →
            t ≠ EmptyString ∧ stripped t) as H.
  { induction value as [|c value IH]; intros depth current tags Htags; simpl.
    - intros [[-> Ht]|Ht]%add_tag_elem; [|by apply Htags].
      split; [done|apply str_strip_idem].
    - assert (∀ x, x ∈ add_tag current tags → x ≠ EmptyString ∧ stripped x) as Hadd.
      { intros x [[-> Hx]|Hx]%add_tag_elem; [|by apply Htags].
        split; [done|apply str_strip_idem]. }
      repeat case_match; by eapply IH. }
  apply H. intros x Hx. by apply not_elem_of_empty in Hx.
Qed.

Lemma new_rule_data_ok (rule_name : string) :
  rule_name ≠ EmptyString → stripped rule_name → rule_data_ok (new_rule_data rule_name).
Proof.
  intros H1 H2. unfold rule_data_ok, new_rule_data. simpl.
  split_and!; try done; constructor.
Qed.

Lemma set_property_ok (rd : rule_data) (k v : string) (n : nat) (rd' : rule_data) :
  rule_data_ok rd → set_property rd k v n = Ok rd' →
  rule_data_ok rd' ∧ rd_name rd' = rd_name rd.
Proof.
  intros (H1 & H2 & H3 & H4 & H5 & H6 & H7 & H8 & H9 & H10 & H11).
  assert (stripped (str_strip v)) as Hv by apply str_strip_idem.
  unfold set_property. destruct rd. simpl in *.
  repeat case_decide.
  - destruct (match_assignment (str_strip v)) as [[var expr]|] eqn:Hm; [|done].
    intros [= <-]. split; [|done]. unfold rule_data_ok. simpl.
    split_and!; try done.
    apply Forall_app. split; [done|]. constructor; [|constructor].
    simpl. split; [apply str_lower_idem|].
    by destruct (match_assignment_stripped _ _ _ Hv Hm).
  - destruct (match_assignment (str_strip v)) as [[var expr]|] eqn:Hm; [|done].
    intros [= <-]. split; [|done]. unfold rule_data_ok. simpl.
    split_and!; try done; [|by apply dict_set_nodup].
    apply dict_set_Forall; [done|].
    simpl. split; [apply str_lower_idem|].
    by destruct (match_assignment_stripped _ _ _ Hv Hm).
  - intros [= <-]. split; [|done]. unfold rule_data_ok. simpl.
    split_and!; try done. by intros ? [= <-].
  - intros [= <-]. split; [|done]. unfold rule_data_ok. simpl.
    split_and!; try done. by intros ? [= <-].
  - intros [= <-]. split; [|done]. unfold rule_data_ok. simpl.
    split_and!; try done. by intros ? [= <-].
  - intros [= <-]. split; [|done]. unfold rule_data_ok. simpl.
    split_and!; try done. by intros ? [= <-].
  - intros [= <-]. split; [|done]. unfold rule_data_ok. simpl.
    split_and!; try done. by intros ? [= <-].
  - intros [= <-]. split; [|done]. unfold rule_data_ok. simpl.
    split_and!; try done. intros tg t [= <-]. apply parse_tags_shape.
  - destruct (py_int (str_strip v)); [|done].
    intros [= <-]. split; [|done]. unfold rule_data_ok. simpl. done.
  - done.
Qed.

Section StoredRules.
Context `{EP : ExprParser}.
Implicit Types (st : parse_state) (rd : rule_data) (en : MerchantEngine).
Implicit Types (L : list string).

Lemma find_none_Forall {A} (P : A → bool) (l : list A) :
  List.find (λ x, negb (P x)) l = None → Forall (λ x, P x = true) l.
Proof.
  intros H. apply Forall_forall. intros x Hx.
  pose proof (List.find_none _ _ H x) as Hn. simpl in Hn.
  apply negb_false_iff, Hn. by apply list_elem_of_In.
Qed.

Lemma add_rule_ok rd (ln : nat) (r : MerchantRule) :
  rule_data_ok rd → _add_rule rd ln = Ok r →
  well_formed_rule r ∧ name r = rd_name rd ∧ line_number r = ln.
Proof.
  intros (H1 & H2 & H3 & H4 & H5 & H6 & H7 & H8 & H9 & H10 & H11).
  unfold _add_rule.
  destruct (rd_match_expr rd) as [m|] eqn:Hm; [|done].
  destruct (negb (from_option str_nonempty false (rd_category rd))
            && negb (from_option set_nonempty false (rd_tags rd))) eqn:Hct; [done|].
  destruct (List.find _ (default [] (rd_let_bindings rd))) as [[? ?]|] eqn:Hl; [done|].
  destruct (List.find _ (default [] (rd_fields rd))) as [[? ?]|] eqn:Hf; [done|].
  destruct (parse_expression m) eqn:Hp; [|done]. simpl.
  intros [= <-]. split; [|done].
  unfold well_formed_rule, MerchantRule_init. simpl.
  assert (∀ o : option string, (∀ v, o = Some v → stripped v) →
                               stripped (default EmptyString o)) as Hdef.
  { intros [v|] Hv; [by apply Hv|done]. }
  split; [done|]. split; [done|]. split.
  { destruct (str_nonempty _) eqn:Hne; [|done]. by destruct (default EmptyString _). }
  split.
  { destruct (str_nonempty _); [by apply Hdef|done]. }
  split; [done|]. split; [by apply H3|]. split.
  { apply andb_false_iff in Hct as [Hc|Ht].
    - left. apply negb_false_iff in Hc.
      destruct (rd_category rd) as [c|]; [|done]. simpl in *. by destruct c.
    - right. apply negb_false_iff in Ht.
      destruct (rd_tags rd) as [tg|]; [|done]. simpl in *.
      unfold set_nonempty in Ht. apply negb_true_iff, bool_decide_eq_false in Ht. done. }
  split; [by apply Hdef|]. split; [by apply Hdef|]. split; [by apply Hdef|]. split.
  { destruct (rd_tags rd) as [tg|]; simpl.
    - intros t Ht. by apply (H8 tg).
    - intros t Ht. by apply not_elem_of_empty in Ht. }
  apply (find_none_Forall (λ b, parse_expression b.2)) in Hl, Hf.
  split; [|split; [|done]].
  - apply Forall_forall. intros b Hb.
    rewrite Forall_forall in Hl, H9. destruct (H9 b Hb). split; [by apply Hl|done].
  - apply Forall_forall. intros b Hb.
    rewrite Forall_forall in Hf, H10. destruct (H10 b Hb). split; [by apply Hf|done].
Qed.

Lemma rules_ok_snoc L (rules : list MerchantRule) (r : MerchantRule) :
  rules_ok L rules → well_formed_rule r → header_at L (line_number r) (name r) →
  (∀ x, x ∈ rules → (line_number x < line_number r)%nat) →
  rules_ok L (rules ++ [r]).
Proof.
  intros [Hs Hall] Hw Hh Hlt. split.
  - rewrite fmap_app. clear Hall.
    induction rules as [|x rules IH]; simpl.
    + repeat constructor.
    + rewrite fmap_cons in Hs. apply StronglySorted_inv in Hs as [Hs Hx].
      constructor.
      * apply IH; [done|]. intros y Hy. apply Hlt. by right.
      * apply Forall_app. split; [done|]. constructor; [|constructor].
        apply Hlt. by left.
  - intros x [Hx|Hx]%elem_of_app; [by apply Hall|].
    apply list_elem_of_singleton in Hx as ->. done.
Qed.

(** [save_current] on a state that satisfies the invariant. *)
Lemma save_current_ok L st (n : nat) st1 (r : option MerchantParseError) :
  state_ok L st n → save_current st = (st1, r) →
  rules_ok L (p_rules st1)
  ∧ (r = None → ∀ x, x ∈ p_rules st1 → (line_number x < n)%nat).
Proof.
  intros (Hrules & Hnone & Hsome). unfold save_current.
  destruct (current_rule st) as [rd|] eqn:Hc.
  - destruct (Hsome rd eq_refl) as (Hrd & Hh & Hlt & Hbefore).
    destruct (_add_rule rd (rule_start_line st)) as [rule|e] eqn:Ha.
    + intros [= <- <-]. simpl.
      destruct (add_rule_ok _ _ _ Hrd Ha) as (Hw & Hname & Hline).
      split.
      * apply rules_ok_snoc; [done|done| |].
        -- by rewrite Hline, Hname.
        -- intros x Hx. rewrite Hline. by apply Hbefore.
      * intros _ x [Hx|Hx]%elem_of_app.
        -- specialize (Hbefore x Hx). lia.
        -- apply list_elem_of_singleton in Hx as ->. lia.
    + intros [= <- <-]. split; [done|]. done.
  - intros [= <- <-]. split; [done|]. intros _ x Hx.
    rewrite (Hnone eq_refl) in Hx. by apply elem_of_nil in Hx.
Qed.

Lemma parse_line_ok L st (n : nat) (line : string) st' (r : option MerchantParseError) :
  state_ok L st n → (1 ≤ n)%nat → L !! (n - 1)%nat = Some line →
  parse_line st n line = (st', r) →
  rules_ok L (p_rules st') ∧ (r = None → state_ok L st' (S n)).
Proof.
  intros Hok Hn Hline.
  pose proof Hok as (Hrules & Hnone & Hsome).
  assert (state_ok L st (S n)) as Hnext.
  { split; [done|]. split; [done|]. intros rd Hrd.
    destruct (Hsome rd Hrd) as (H1 & H2 & H3 & H4). split_and!; try done. lia. }
  destruct (is_blank_or_comment (str_strip line)) eqn:Hb.
  { rewrite parse_line_blank by done. by intros [= <- <-]. }
  destruct (is_header (str_strip line)) eqn:Hh.
  { rewrite parse_line_header by done.
    destruct (save_current st) as [st1 [e|]] eqn:Hsave.
    - intros [= <- <-]. split; [|done].
      by destruct (save_current_ok L st n st1 (Some e) Hok Hsave).
    - destruct (save_current_ok L st n st1 None Hok Hsave) as [Hr1 Hlt].
      destruct (str_nonempty (str_strip (str_inner (str_strip line)))) eqn:Hne; simpl.
      + intros [= <- <-]. simpl. split; [done|]. intros _.
        split; [done|]. split; [done|]. simpl. intros rd [= <-].
        split.
        { apply new_rule_data_ok; [|apply str_strip_idem].
          intros Heq. by rewrite Heq in Hne. }
        split.
        { split; [done|]. exists line. done. }
        split; [lia|]. by apply Hlt.
      + intros [= <- <-]. done. }
  destruct (current_rule st) as [rd|] eqn:Hc.
  - rewrite (parse_line_in_rule st n line rd) by done.
    destruct (str_split_once _ _) as [[k v]|]; [|by intros [= <- <-]].
    destruct (set_property rd k v n) as [rd'|e] eqn:Hp; intros [= <- <-]; [|done].
    simpl. split; [done|]. intros _.
    destruct (Hsome rd eq_refl) as (H1 & H2 & H3 & H4).
    destruct (set_property_ok _ _ _ _ _ H1 Hp) as [Hrd' Hname].
    split; [done|]. split; [done|]. simpl. intros rd0 [= <-].
    rewrite Hname. split_and!; try done. lia.
  - intros Hp. destruct (parse_line_top_level _ _ _ _ _ Hc Hh Hp) as (-> & Hc' & Hr' & _).
    rewrite Hr'. split; [done|]. intros _.
    split; [by rewrite Hr'|]. split; [by rewrite Hr'; auto|].
    intros rd Hrd. congruence.
Qed.

Lemma parse_lines_ok L (l : list string) st (n : nat) st' (r : option MerchantParseError) :
  state_ok L st n → (1 ≤ n)%nat →
  (∀ i line, l !! i = Some line → L !! (n - 1 + i)%nat = Some line) →
  parse_lines st n l = (st', r) →
  rules_ok L (p_rules st') ∧ (r = None → state_ok L st' (n + length l)).
Proof.
  revert st n. induction l as [|x l IH]; intros st n Hok Hn Hl; simpl.
  - intros [= <- <-]. rewrite Nat.add_0_r. split; [by destruct Hok|done].
  - assert (L !! (n - 1)%nat = Some x) as Hx.
    { specialize (Hl 0%nat x eq_refl). by rewrite Nat.add_0_r in Hl. }
    destruct (parse_line st n x) as [st1 [e|]] eqn:Hp.
    + intros [= <- <-]. destruct (parse_line_ok L _ _ _ _ _ Hok Hn Hx Hp). done.
    + destruct (parse_line_ok L _ _ _ _ _ Hok Hn Hx Hp) as [_ Hst1].
      intros Hrest. rewrite Nat.add_succ_r.
      apply (IH st1 (S n)); [by apply Hst1|lia| |done].
      intros i line Hi. specialize (Hl (S i) line Hi).
      replace (S n - 1 + i)%nat with (n - 1 + S i)%nat by lia. done.
Qed.

Lemma initial_state_ok L : state_ok L initial_state 1.
Proof.
  split; [|split; [done|done]]. split; [constructor|].
  intros r Hr. by apply elem_of_nil in Hr.
Qed.

Lemma parse_rules_ok en (content : string) en' (r : option MerchantParseError) :
  parse en content = (en', r) → rules_ok (str_split_lines content) (rules en').
Proof.
  unfold parse. fold initial_state.
  destruct (parse_lines initial_state 1 (str_split_lines content)) as [st [e|]] eqn:Hl.
  - intros [= <- <-]. simpl.
    destruct (parse_lines_ok (str_split_lines content) _ _ _ _ _
                (initial_state_ok _) (le_n 1) (λ i line H, H) Hl) as [H _]. done.
  - destruct (parse_lines_ok (str_split_lines content) _ _ _ _ _
                (initial_state_ok _) (le_n 1) (λ i line H, H) Hl) as [_ Hst].
    specialize (Hst eq_refl).
    destruct (save_current st) as [st1 r1] eqn:Hsave. intros [= <- <-]. simpl.
    by destruct (save_current_ok _ _ _ _ _ Hst Hsave).
Qed.

(** X19: every rule that [parse] stores, also when a later line makes it
    raise, is well formed: its name and merchant are not empty, its
    match expression and the expressions of its let bindings and fields
    parse, it has a category or a tag, its texts carry no white space at
    either end, its tags are not empty, the names of its let bindings
    and fields are in lower case, and no field is declared twice. *)
Theorem parsed_rules_are_well_formed en (content : string) en'
    (r : option MerchantParseError) (rule : MerchantRule) :
  parse en content = (en', r) → rule ∈ rules en' → well_formed_rule rule.
Proof.
  intros Hp Hin. destruct (parse_rules_ok _ _ _ _ Hp) as [_ H].
  by destruct (H rule Hin).
Qed.

(** X20: the rules that [parse] stores stand in the order of their blocks:
    their line numbers increase strictly, and the line number of each
    rule is that of a header line of the text, counted from 1, whose
    stripped inside is the name of the rule. *)
Theorem parsed_rules_follow_headers en (content : string) en'
    (r : option MerchantParseError) :
  parse en content = (en', r) →
  StronglySorted lt (line_number <$> rules en')
  ∧ ∀ rule, rule ∈ rules en' →
            header_at (str_split_lines content) (line_number rule) (name rule).
Proof.
  intros Hp. destruct (parse_rules_ok _ _ _ _ Hp) as [Hs H].
  split; [done|]. intros rule Hin. by destruct (H rule Hin).
Qed.

(** *** More lines that raise *)

Lemma split_once_none (s : string) (c : ascii) :
  str_has_char s c = false → str_split_once s c = None.
Proof.
  induction s as [|a s IH]; simpl; [done|].
  destruct (ascii_dec a c); [done|]. intros H. by rewrite IH.
Qed.

(** A line of a rule block that raises whatever the open rule holds. *)
Lemma block_line_raises en (content hdr line : string) (i j : nat)
    (kind : parse_error_kind) :
  (j < i)%nat →
  str_split_lines content !! j = Some hdr → header_line hdr →
  str_split_lines content !! i = Some line →
  (∀ st rd, current_rule st = Some rd →
            parse_line st (S i) line = (st, Some (mkParseError kind (S i)))) →
  ∃ en' err,
    parse en content = (en', Some err)
    ∧ (1 ≤ err_line_number err ≤ S i)%nat
    ∧ (∀ st,
         parse_lines initial_state 1 (take i (str_split_lines content)) = (st, None) →
         err = mkParseError kind (S i)).
Proof.
  intros Hj Hhdr Hh Hi Hline.
  assert (∀ st, parse_lines initial_state 1 (take i (str_split_lines content)) = (st, None) →
                parse_line st (S i) line = (st, Some (mkParseError kind (S i)))) as Hraise.
  { intros st Hpre.
    pose proof (parse_lines_inv _ _ _ _ _ initial_ok (le_n 1) Hpre) as (_ & _ & Hcur).
    destruct Hcur as [rd Hrd].
    { exists hdr. split; [|done]. by eapply take_has_line. }
    by apply (Hline st rd). }
  destruct (parse_raises_at en content line i Hi) as (en' & err & Hp & Hbd & Hex).
  { intros st Hpre. rewrite (Hraise st Hpre). eauto. }
  exists en', err. split; [done|]. split; [done|].
  intros st Hpre.
  destruct (Hex st Hpre) as [H|[st' H]]; rewrite (Hraise st Hpre) in H; congruence.
Qed.

(** X21: inside a rule block, a line that is neither blank, a comment nor
    a header and holds no colon raises [Unexpected content], and a
    [priority:] whose value [int] does not read raises
    [Invalid priority value]; the error carries the number of the line
    when the text before it parses, and a number from 1 up to it
    otherwise.  So an assignment [name = expression] placed after the
    first header is an error. *)
Theorem stray_line_and_priority_raise en (content : string) :
  (∀ (i j : nat) hdr line,
     (j < i)%nat →
     str_split_lines content !! j = Some hdr → header_line hdr →
     str_split_lines content !! i = Some line →
     is_blank_or_comment (str_strip line) = false →
     is_header (str_strip line) = false →
     str_has_char (str_strip line) ":" = false →
     ∃ en' err,
       parse en content = (en', Some err)
       ∧ (1 ≤ err_line_number err ≤ S i)%nat
       ∧ (∀ st,
            parse_lines initial_state 1 (take i (str_split_lines content)) = (st, None) →
            err = mkParseError UnexpectedContent (S i)))
  ∧ (∀ (i j : nat) hdr line value,
       (j < i)%nat →
       str_split_lines content !! j = Some hdr → header_line hdr →
       str_split_lines content !! i = Some line →
       property_line line "priority" value →
       py_int value = None →
       ∃ en' err,
         parse en content = (en', Some err)
         ∧ (1 ≤ err_line_number err ≤ S i)%nat
         ∧ (∀ st,
              parse_lines initial_state 1 (take i (str_split_lines content)) = (st, None) →
              err = mkParseError (InvalidPriority value) (S i))).
Proof.
  split.
  - intros i j hdr line Hj Hhdr Hh Hi Hb Hnh Hcolon.
    apply (block_line_raises en content hdr line i j); try done.
    intros st rd Hrd.
    rewrite (parse_line_in_rule st (S i) line rd) by done.
    by rewrite split_once_none.
  - intros i j hdr line value Hj Hhdr Hh Hi (Hb & Hnh & k & v & Hs & Hk & ->) Hint.
    apply (block_line_raises en content hdr line i j); try done.
    intros st rd Hrd.
    rewrite (parse_line_in_rule st (S i) line rd), Hs by done.
    unfold set_property. destruct rd. cbv zeta. rewrite <- Hk.
    repeat (rewrite decide_False by done). rewrite decide_True by done.
    by rewrite Hint.
Qed.

End StoredRules.

(** ** The regenerated rule file *)

(** *** Lines *)

Lemma split_lines_nonempty (s : string) : str_split_lines s ≠ [].
Proof.
  induction s as [|c s IH]; simpl; [done|].
  destruct (ascii_dec c newline); [done|]. by destruct (str_split_lines s).
Qed.

Lemma split_lines_plain (s : string) :
  str_has_char s newline = false → str_split_lines s = [s].
Proof.
  induction s as [|c s IH]; simpl; [done|].
  destruct (ascii_dec c newline); [done|]. intros H. by rewrite IH.
Qed.

Lemma split_lines_app (a b : string) :
  str_split_lines (a +:+ String newline b) = str_split_lines a ++ str_split_lines b.
Proof.
  induction a as [|c a IH].
  - rewrite append_nil_l. simpl. by destruct (ascii_dec newline newline).
  - rewrite append_cons. simpl.
    destruct (ascii_dec c newline); [by rewrite IH|].
    rewrite IH. pose proof (split_lines_nonempty a) as Hne.
    by destruct (str_split_lines a).
Qed.

Lemma join_cons (sep x y : string) (l : list string) :
  str_join sep (x :: y :: l) = x +:+ sep +:+ str_join sep (y :: l).
Proof. reflexivity. Qed.

Lemma split_lines_join (lines : list string) :
  lines ≠ [] → Forall (λ l, str_has_char l newline = false) lines →
  str_split_lines (str_join nl lines) = lines.
Proof.
  intros Hne Hall. induction Hall as [|x lines Hx Hall IH]; [done|].
  destruct lines as [|y lines].
  - by apply split_lines_plain.
  - rewrite join_cons.
    change (x +:+ nl +:+ str_join nl (y :: lines))
      with (x +:+ String newline (str_join nl (y :: lines))).
    rewrite split_lines_app, split_lines_plain by done.
    simpl. f_equal. by apply IH.
Qed.

Lemma split_lines_sections (sections : list (list string)) :
  Forall (λ ls, ls ≠ [] ∧ Forall (λ l, str_has_char l newline = false) ls) sections →
  str_split_lines (str_join (nl +:+ nl) (str_join nl <$> sections))
  = section_lines sections.
Proof.
  induction 1 as [|ls sections [Hne Hls] Hall IH]; [done|].
  destruct sections as [|ls2 sections].
  - simpl. by apply split_lines_join.
  - rewrite !fmap_cons, join_cons.
    change (str_join nl ls +:+ (nl +:+ nl) +:+ str_join (nl +:+ nl)
              (str_join nl ls2 :: (str_join nl <$> sections)))
      with (str_join nl ls +:+ String newline
              (EmptyString +:+ String newline
                 (str_join (nl +:+ nl) (str_join nl <$> ls2 :: sections)))).
    rewrite !split_lines_app, split_lines_join by done.
    rewrite IH. done.
Qed.

Lemma rstrip_app_fixed (a b : string) :
  str_rstrip b = b → b ≠ EmptyString → str_rstrip (a +:+ b) = a +:+ b.
Proof.
  intros Hb Hne. induction a as [|c a IH]; [done|].
  rewrite append_cons. simpl. rewrite IH.
  destruct (a +:+ b) eqn:Hab; [|done].
  destruct a; [|done]. by rewrite append_nil_l in Hab.
Qed.

Lemma rstrip_join (sep : string) (l : list string) :
  Forall (λ s, str_rstrip s = s ∧ s ≠ EmptyString) l →
  str_rstrip (str_join sep l) = str_join sep l.
Proof.
  induction 1 as [|x l [Hx Hne] Hall IH]; [done|].
  destruct l as [|y l]; [done|].
  rewrite join_cons, <- append_assoc.
  apply rstrip_app_fixed; [done|].
  apply Forall_cons in Hall as [[_ Hy] _].
  destruct l; simpl; [done|]. by destruct y.
Qed.

Lemma join_nonempty (sep : string) (l : list string) :
  l ≠ [] → Forall (λ s, s ≠ EmptyString) l → str_join sep l ≠ EmptyString.
Proof.
  intros Hne Hall. destruct Hall as [|x l Hx Hall]; [done|].
  destruct l as [|y l]; [done|]. rewrite join_cons. by destruct x.
Qed.

Lemma join_no_newline (sep : string) (l : list string) :
  str_has_char sep newline = false →
  Forall (λ s, str_has_char s newline = false) l →
  str_has_char (str_join sep l) newline = false.
Proof.
  intros Hsep. assert (∀ a b, str_has_char a newline = false →
                              str_has_char b newline = false →
                              str_has_char (a +:+ b) newline = false) as Happ.
  { intros a b Ha Hb. induction a as [|c a IH]; [done|].
    rewrite append_cons. simpl in *. destruct (ascii_dec c newline); [done|]. by apply IH. }
  induction 1 as [|x l Hx Hall IH]; [done|].
  destruct l as [|y l]; [done|].
  rewrite join_cons. apply Happ; [done|]. by apply Happ.
Qed.

Lemma has_char_app (a b : string) (c : ascii) :
  str_has_char (a +:+ b) c = str_has_char a c || str_has_char b c.
Proof.
  induction a as [|x a IH]; [done|].
  rewrite append_cons. simpl. by destruct (ascii_dec x c).
Qed.
(** *** Lines of a rule block *)

Lemma clean_text_spec (s : string) :
  clean_text s = true → s ≠ EmptyString ∧ stripped s ∧ str_has_char s newline = false.
Proof.
  unfold clean_text. intros [[H1 H2]%andb_true_iff H3]%andb_true_iff.
  apply bool_decide_eq_true in H2. apply negb_true_iff in H3.
  split; [by destruct s|done].
Qed.

Lemma clean_text_head (s : string) :
  clean_text s = true → ∃ c s', s = String c s' ∧ py_isspace c = false.
Proof.
  intros (Hne & Hs & _)%clean_text_spec. destruct s as [|c s']; [done|].
  exists c, s'. split; [done|].
  pose proof (stripped_lstrip _ Hs) as Hl.
  pose proof (str_lstrip_head (String c s')) as Hh. by rewrite Hl in Hh.
Qed.

Lemma strip_line (c : ascii) (a b : string) :
  py_isspace c = false → stripped b → b ≠ EmptyString →
  str_strip (String c a +:+ b) = String c a +:+ b.
Proof.
  intros Hc Hb Hne. unfold str_strip. rewrite append_cons. simpl. rewrite Hc.
  rewrite <- append_cons. apply rstrip_app_fixed; [by apply stripped_rstrip|done].
Qed.

Lemma split_once_key (key rest : string) :
  str_has_char key ":" = false →
  str_split_once (key +:+ String ":" rest) ":" = Some (key, rest).
Proof.
  induction key as [|c key IH].
  - intros _. rewrite append_nil_l. simpl. by destruct (ascii_dec ":" ":").
  - intros H. rewrite append_cons. simpl in *.
    destruct (ascii_dec c ":"); [done|]. by rewrite IH.
Qed.

Lemma startswith_other (a c : ascii) (s : string) :
  c ≠ a → str_startswith (String c s) (String a EmptyString) = false.
Proof. intros H. cbn [str_startswith]. destruct (ascii_dec a c); [by subst|done]. Qed.

Lemma span_app (p : ascii → bool) (a b : string) :
  str_forall p a = true →
  match b with
  | EmptyString => True
  | String c _ => p c = false
  end →
  span p (a +:+ b) = (a, b).
Proof.
  intros Ha Hb. induction a as [|c a IH].
  - rewrite append_nil_l. destruct b as [|d b]; [done|]. simpl. by rewrite Hb.
  - simpl in Ha. apply andb_true_iff in Ha as [Hc Ha].
    rewrite append_cons. simpl. by rewrite Hc, IH.
Qed.

Lemma match_assignment_binding (v e : string) :
  is_identifier v = true → clean_text e = true →
  match_assignment (v +:+ " = " +:+ e) = Some (v, e).
Proof.
  intros Hv He. destruct v as [|c v]; [done|].
  simpl in Hv. apply andb_true_iff in Hv as [Hc Hv].
  destruct (clean_text_head e He) as (d & e' & -> & Hd).
  unfold match_assignment, match_ident. rewrite append_cons, Hc.
  rewrite (span_app is_ident_char v (" = " +:+ String d e')) by done.
  unfold match_rest.
  change (" = " +:+ String d e') with (String " " (String "=" (String " " (String d e')))).
  simpl. by rewrite Hd.
Qed.

Lemma not_space_no_newline (s : string) :
  str_forall not_space s = true → str_has_char s newline = false.
Proof.
  induction s as [|c s IH]; simpl; [done|].
  intros [Hc Hs]%andb_true_iff. destruct (ascii_dec c newline) as [->|]; [done|by apply IH].
Qed.

Lemma pretty_clean (z : Z) : clean_text (pretty z) = true.
Proof.
  destruct (pretty_not_space z) as [H1 H2]. unfold clean_text.
  rewrite (str_strip_not_space _ H1), (not_space_no_newline _ H1).
  rewrite bool_decide_eq_true_2 by done. by destruct (pretty z).
Qed.

Lemma dict_set_new (k v : string) (d : list (string * string)) :
  k ∉ d.*1 → dict_set k v d = d ++ [(k, v)].
Proof.
  induction d as [|[k' v'] d IH]; [done|].
  rewrite fmap_cons. intros [H1 H2]%not_elem_of_cons. simpl in *.
  rewrite decide_False by done. by rewrite IH.
Qed.

Lemma substring_prefix (s t : string) : String.substring 0 (String.length s) (s +:+ t) = s.
Proof.
  induction s as [|c s IH].
  - rewrite append_nil_l. by destruct t.
  - rewrite append_cons. simpl. by rewrite IH.
Qed.

Lemma substring_last (s : string) (c : ascii) :
  String.substring (String.length s) 1 (s +:+ String c EmptyString) = String c EmptyString.
Proof.
  induction s as [|x s IH]; [done|]. rewrite append_cons. simpl. apply IH.
Qed.

Lemma header_text (nm : string) :
  clean_text nm = true →
  str_strip ("[" +:+ nm +:+ "]") = "[" +:+ nm +:+ "]"
  ∧ is_header ("[" +:+ nm +:+ "]") = true
  ∧ str_strip (str_inner ("[" +:+ nm +:+ "]")) = nm.
Proof.
  intros (Hne & Hs & _)%clean_text_spec.
  change ("[" +:+ nm +:+ "]") with (String "[" (nm +:+ "]")).
  assert (String.length (String "[" (nm +:+ "]")) = S (S (String.length nm))) as Hlen.
  { simpl. by rewrite length_snoc. }
  split; [|split].
  - rewrite <- append_cons. by apply strip_line.
  - unfold is_header, str_endswith. rewrite Hlen. simpl.
    rewrite substring_last. by destruct (nm +:+ "]").
  - unfold str_inner. rewrite Hlen.
    replace (S (S (String.length nm)) - 2)%nat with (String.length nm) by lia.
    cbn [String.substring]. by rewrite substring_prefix.
Qed.

Lemma join_comma_space (y : string) (l : list string) :
  " " +:+ str_join ", " (y :: l) = str_join "," ((λ s, " " +:+ s) <$> y :: l).
Proof.
  revert y. induction l as [|z l IH]; intros y; [done|].
  rewrite !fmap_cons, !join_cons. rewrite <- fmap_cons, <- IH.
  by rewrite !append_assoc.
Qed.

Lemma stripped_join (sep : string) (l : list string) :
  l ≠ [] → Forall (λ s, clean_text s = true) l → stripped (str_join sep l).
Proof.
  intros Hne Hall. unfold stripped, str_strip.
  assert (str_lstrip (str_join sep l) = str_join sep l) as ->.
  { destruct Hall as [|x l Hx Hall]; [done|].
    destruct (clean_text_head x Hx) as (c & x' & -> & Hc).
    destruct l; simpl; by rewrite Hc. }
  apply rstrip_join. eapply Forall_impl; [exact Hall|].
  intros s (H1 & H2 & _)%clean_text_spec. split; [by apply stripped_rstrip|done].
Qed.

(** The tags that the parser reads from the line that the cache writes. *)
Lemma parse_tags_joined (items : list string) :
  Forall (λ s, clean_tag s = true) items →
  parse_tags (str_join ", " items) = list_to_set items.
Proof.
  intros Hall.
  assert (∀ s, s ∈ items → str_forall tag_char s = true ∧ stripped s ∧ s ≠ EmptyString)
    as Hitem.
  { intros s Hs. rewrite Forall_forall in Hall. specialize (Hall s Hs).
    unfold clean_tag in Hall. apply andb_true_iff in Hall as [H1 H2].
    apply clean_text_spec in H1 as (? & ? & _). done. }
  destruct items as [|x items].
  { apply set_eq. intros t.
    change (str_join ", " []) with (str_join "," []).
    rewrite (parse_tags_items [] t) by apply Forall_nil_2.
    rewrite elem_of_list_to_set.
    split; [intros (s & Hs & _)|intros Hs]; by apply elem_of_nil in Hs. }
  assert (str_join ", " (x :: items)
          = str_join "," (x :: ((λ s, " " +:+ s) <$> items))) as ->.
  { destruct items as [|y items]; [done|].
    rewrite join_cons.
    change (x +:+ ", " +:+ str_join ", " (y :: items))
      with (x +:+ "," +:+ (" " +:+ str_join ", " (y :: items))).
    by rewrite join_comma_space. }
  apply set_eq. intros t. rewrite parse_tags_items.
  2:{ constructor; [apply Hitem; by left|].
      apply Forall_fmap, Forall_forall. intros s Hs. simpl.
      apply Hitem. by right. }
  rewrite elem_of_list_to_set. split.
  - intros (s & [->|Hs]%elem_of_cons & -> & Hne).
    + destruct (Hitem x) as (_ & -> & _); [by left|]. by left.
    + apply list_elem_of_fmap in Hs as (y & -> & Hy).
      destruct (Hitem y) as (_ & Hst & _); [by right|].
      change (" " +:+ y) with (String " " y). rewrite strip_space_before by done.
      by right.
  - intros [->|Ht]%elem_of_cons.
    + exists x. destruct (Hitem x) as (_ & Hst & Hne); [by left|].
      split; [by left|]. by rewrite Hst.
    + exists (" " +:+ t). destruct (Hitem t) as (_ & Hst & Hne); [by right|].
      split; [right; apply list_elem_of_fmap; by exists t|].
      change (" " +:+ t) with (String " " t). by rewrite strip_space_before.
Qed.

Section RoundTripLines.
Context `{EP : ExprParser}.
Implicit Types (rd : rule_data) (st : parse_state).

Lemma steps_nil rd : steps [] rd rd.
Proof. by intros R V T start n. Qed.

Lemma steps_app (l1 l2 : list string) rd rd1 rd2 :
  steps l1 rd rd1 → steps l2 rd1 rd2 → steps (l1 ++ l2) rd rd2.
Proof.
  intros H1 H2 R V T start n. by rewrite parse_lines_app, H1, H2.
Qed.

Lemma steps_if (b : bool) (line : string) rd rd' :
  (b = true → steps [line] rd rd') →
  steps (if b then [line] else []) rd (if b then rd' else rd).
Proof. destruct b; intros H; [by apply H|apply steps_nil]. Qed.

(** A property line [key: value] of the regenerated file. *)
Lemma property_line_step (c : ascii) (k value : string) rd rd' :
  py_isspace c = false → c ≠ "#"%char → c ≠ "["%char →
  str_has_char (String c k) ":" = false →
  clean_text value = true →
  (∀ n, set_property rd (String c k) (String " " value) n = Ok rd') →
  steps [String c k +:+ ": " +:+ value] rd rd'.
Proof.
  intros Hc H1 H2 Hk (Hne & Hs & _)%clean_text_spec Hset R V T start n.
  assert (str_strip (String c k +:+ ": " +:+ value) = String c k +:+ ": " +:+ value)
    as Hstrip.
  { rewrite <- append_assoc, append_cons. by apply strip_line. }
  cbn [parse_lines].
  rewrite (parse_line_in_rule _ n _ rd); rewrite ?Hstrip; try done.
  - change (String c k +:+ ": " +:+ value) with (String c k +:+ String ":" (String " " value)).
    rewrite split_once_key by done. by rewrite Hset.
  - rewrite append_cons. unfold is_blank_or_comment.
    by rewrite startswith_other.
  - rewrite append_cons. unfold is_header. by rewrite startswith_other.
Qed.

Lemma match_line_step (nm : string) M C S Me T Tg P L F (value : string) :
  clean_text value = true →
  steps ["match: " +:+ value] (mkRuleData nm M C S Me T Tg P L F)
    (mkRuleData nm (Some value) C S Me T Tg P L F).
Proof.
  intros Hv. apply (property_line_step "m" "atch"); try done.
  intros n. unfold set_property.
  destruct (clean_text_spec _ Hv) as (_ & Hs & _).
  rewrite strip_space_before by done.
  change (str_lower (str_strip "match")) with "match". cbv zeta.
  repeat (rewrite decide_False by done). by rewrite decide_True.
Qed.

Lemma category_line_step (nm : string) M C S Me T Tg P L F (value : string) :
  clean_text value = true →
  steps ["category: " +:+ value] (mkRuleData nm M C S Me T Tg P L F)
    (mkRuleData nm M (Some value) S Me T Tg P L F).
Proof.
  intros Hv. apply (property_line_step "c" "ategory"); try done.
  intros n. unfold set_property.
  destruct (clean_text_spec _ Hv) as (_ & Hs & _).
  rewrite strip_space_before by done.
  change (str_lower (str_strip "category")) with "category". cbv zeta.
  repeat (rewrite decide_False by done). by rewrite decide_True.
Qed.

Lemma subcategory_line_step (nm : string) M C S Me T Tg P L F (value : string) :
  clean_text value = true →
  steps ["subcategory: " +:+ value] (mkRuleData nm M C S Me T Tg P L F)
    (mkRuleData nm M C (Some value) Me T Tg P L F).
Proof.
  intros Hv. apply (property_line_step "s" "ubcategory"); try done.
  intros n. unfold set_property.
  destruct (clean_text_spec _ Hv) as (_ & Hs & _).
  rewrite strip_space_before by done.
  change (str_lower (str_strip "subcategory")) with "subcategory". cbv zeta.
  repeat (rewrite decide_False by done). by rewrite decide_True.
Qed.

Lemma merchant_line_step (nm : string) M C S Me T Tg P L F (value : string) :
  clean_text value = true →
  steps ["merchant: " +:+ value] (mkRuleData nm M C S Me T Tg P L F)
    (mkRuleData nm M C S (Some value) T Tg P L F).
Proof.
  intros Hv. apply (property_line_step "m" "erchant"); try done.
  intros n. unfold set_property.
  destruct (clean_text_spec _ Hv) as (_ & Hs & _).
  rewrite strip_space_before by done.
  change (str_lower (str_strip "merchant")) with "merchant". cbv zeta.
  repeat (rewrite decide_False by done). by rewrite decide_True.
Qed.

Lemma priority_line_step (nm : string) M C S Me T Tg P L F (p : Z) :
  steps ["priority: " +:+ pretty p] (mkRuleData nm M C S Me T Tg P L F)
    (mkRuleData nm M C S Me T Tg (Some p) L F).
Proof.
  apply (property_line_step "p" "riority"); try done; [apply pretty_clean|].
  intros n. unfold set_property.
  destruct (clean_text_spec _ (pretty_clean p)) as (_ & Hs & _).
  rewrite strip_space_before by done.
  change (str_lower (str_strip "priority")) with "priority". cbv zeta.
  repeat (rewrite decide_False by done). rewrite decide_True by done.
  by rewrite py_int_pretty.
Qed.

Lemma tags_line_step (nm : string) M C S Me T Tg P L F (items : list string) :
  items ≠ [] → Forall (λ s, clean_tag s = true) items →
  steps ["tags: " +:+ str_join ", " items] (mkRuleData nm M C S Me T Tg P L F)
    (mkRuleData nm M C S Me T (Some (list_to_set items)) P L F).
Proof.
  intros Hne Hall.
  assert (Forall (λ s, clean_text s = true) items) as Hclean.
  { eapply Forall_impl; [exact Hall|]. intros s Hs. unfold clean_tag in Hs.
    by apply andb_true_iff in Hs as [? _]. }
  assert (stripped (str_join ", " items)) as Hs by by apply stripped_join.
  assert (clean_text (str_join ", " items) = true) as Hv.
  { unfold clean_text. rewrite bool_decide_eq_true_2 by done.
    rewrite join_no_newline; [| done |].
    - rewrite andb_true_r. simpl.
      assert (str_join ", " items ≠ EmptyString) as Hj.
      { apply join_nonempty; [done|]. eapply Forall_impl; [exact Hclean|].
        by intros s (? & _)%clean_text_spec. }
      by destruct (str_join ", " items).
    - eapply Forall_impl; [exact Hclean|]. by intros s (_ & _ & ?)%clean_text_spec. }
  apply (property_line_step "t" "ags"); try done.
  intros n. unfold set_property.
  rewrite strip_space_before by done.
  change (str_lower (str_strip "tags")) with "tags". cbv zeta.
  repeat (rewrite decide_False by done). rewrite decide_True by done.
  by rewrite parse_tags_joined.
Qed.

Lemma binding_clean (b : string * string) :
  clean_binding b = true →
  is_identifier b.1 = true ∧ str_lower b.1 = b.1 ∧ clean_text b.2 = true
  ∧ clean_text (b.1 +:+ " = " +:+ b.2) = true.
Proof.
  unfold clean_binding. intros [[H1 H2]%andb_true_iff H3]%andb_true_iff.
  apply bool_decide_eq_true in H2. split; [done|]. split; [done|]. split; [done|].
  destruct (clean_text_spec _ H3) as (Hne & Hs & Hn).
  destruct b as [v e]. simpl in *. destruct v as [|c v]; [done|].
  apply andb_true_iff in H1 as [Hc Hv].
  assert (py_isspace c = false) as Hsp.
  { clear -Hc. unfold is_ident_start, py_isspace in *.
    generalize dependent (N_of_ascii c). intros k Hk.
    apply orb_false_iff. split; apply andb_false_iff; rewrite !N.leb_gt.
    - destruct (N.leb_spec 9 k); [|by left]. right.
      repeat (apply orb_true_iff in Hk as [Hk|Hk]);
        rewrite ?andb_true_iff, ?N.leb_le, ?N.eqb_eq in Hk; lia.
    - destruct (N.leb_spec 28 k); [|by left]. right.
      repeat (apply orb_true_iff in Hk as [Hk|Hk]);
        rewrite ?andb_true_iff, ?N.leb_le, ?N.eqb_eq in Hk; lia. }
  assert (str_has_char (String c v) newline = false) as Hvn.
  { assert (∀ s, str_forall is_ident_char s = true → str_has_char s newline = false) as Hid.
    { induction s as [|x s IH]; simpl; [done|].
      intros [Hx Hs']%andb_true_iff.
      destruct (ascii_dec x newline) as [->|]; [done|by apply IH]. }
    simpl. destruct (ascii_dec c newline) as [->|]; [done|by apply Hid]. }
  assert (str_strip (String c v +:+ " = " +:+ e) = String c v +:+ " = " +:+ e) as Hst.
  { rewrite <- append_assoc, append_cons. by apply strip_line. }
  unfold clean_text. rewrite !has_char_app, Hvn, Hn.
  rewrite bool_decide_eq_true_2 by done. by rewrite append_cons.
Qed.

Lemma let_line_step (nm : string) M C S Me T Tg P L F (b : string * string) :
  clean_binding b = true →
  steps ["let: " +:+ b.1 +:+ " = " +:+ b.2] (mkRuleData nm M C S Me T Tg P L F)
    (mkRuleData nm M C S Me T Tg P (Some (default [] L ++ [b])) F).
Proof.
  intros (Hid & Hlow & Hv & Hline)%binding_clean.
  apply (property_line_step "l" "et"); try done.
  intros n. unfold set_property.
  destruct (clean_text_spec _ Hline) as (_ & Hs & _).
  rewrite strip_space_before by done.
  change (str_lower (str_strip "let")) with "let". cbv zeta.
  rewrite decide_True by done.
  rewrite match_assignment_binding by done. rewrite Hlow. by destruct b.
Qed.

Lemma field_line_step (nm : string) M C S Me T Tg P L F (b : string * string) :
  clean_binding b = true → b.1 ∉ (default [] F).*1 →
  steps ["field: " +:+ b.1 +:+ " = " +:+ b.2] (mkRuleData nm M C S Me T Tg P L F)
    (mkRuleData nm M C S Me T Tg P L (Some (default [] F ++ [b]))).
Proof.
  intros (Hid & Hlow & Hv & Hline)%binding_clean Hnew.
  apply (property_line_step "f" "ield"); try done.
  intros n. unfold set_property.
  destruct (clean_text_spec _ Hline) as (_ & Hs & _).
  rewrite strip_space_before by done.
  change (str_lower (str_strip "field")) with "field". cbv zeta.
  rewrite decide_False by done. rewrite decide_True by done.
  rewrite match_assignment_binding by done. rewrite Hlow.
  rewrite dict_set_new by done. by destruct b.
Qed.

Lemma lets_steps (nm : string) M C S Me T Tg P F (lets : list (string * string)) :
  Forall (λ b, clean_binding b = true) lets →
  ∀ L,
    steps ((λ b, "let: " +:+ b.1 +:+ " = " +:+ b.2) <$> lets)
      (mkRuleData nm M C S Me T Tg P L F)
      (mkRuleData nm M C S Me T Tg P
         (match lets with [] => L | _ => Some (default [] L ++ lets) end) F).
Proof.
  induction 1 as [|b lets Hb Hall IH]; intros L; [apply steps_nil|].
  rewrite fmap_cons.
  apply (steps_app [_] _ _ _ _ (let_line_step nm M C S Me T Tg P L F b Hb)).
  specialize (IH (Some (default [] L ++ [b]))).
  destruct lets as [|b2 lets]; [apply steps_nil|].
  simpl in IH. by rewrite <- app_assoc in IH.
Qed.

Lemma fields_steps (nm : string) M C S Me T Tg P L (fs : list (string * string)) :
  Forall (λ b, clean_binding b = true) fs →
  ∀ F,
    NoDup ((default [] F).*1 ++ fs.*1) →
    steps ((λ b, "field: " +:+ b.1 +:+ " = " +:+ b.2) <$> fs)
      (mkRuleData nm M C S Me T Tg P L F)
      (mkRuleData nm M C S Me T Tg P L
         (match fs with [] => F | _ => Some (default [] F ++ fs) end)).
Proof.
  induction 1 as [|b fs Hb Hall IH]; intros F Hnd; [apply steps_nil|].
  rewrite fmap_cons.
  assert (b.1 ∉ (default [] F).*1) as Hnew.
  { apply NoDup_app in Hnd as (_ & Hd & _). intros Hin. apply (Hd _ Hin).
    rewrite fmap_cons. by left. }
  apply (steps_app [_] _ _ _ _ (field_line_step nm M C S Me T Tg P L F b Hb Hnew)).
  specialize (IH (Some (default [] F ++ [b]))).
  destruct fs as [|b2 fs]; [apply steps_nil|].
  simpl in IH. rewrite <- app_assoc in IH. apply IH.
  rewrite fmap_app, <- app_assoc. done.
Qed.

(** The header line of the regenerated file. *)
Lemma header_line_step st st' (n : nat) (nm : string) :
  clean_text nm = true → save_current st = (st', None) →
  parse_line st n ("[" +:+ nm +:+ "]")
  = (mkParse (p_rules st') (p_variables st') (p_transforms st')
       (Some (new_rule_data nm)) n, None).
Proof.
  intros Hnm Hsave. destruct (header_text nm Hnm) as (H1 & H2 & H3).
  rewrite parse_line_header by (unfold header_line; by rewrite H1).
  rewrite Hsave, H1, H3.
  destruct (clean_text_spec _ Hnm) as (Hne & _). by destruct nm.
Qed.

End RoundTripLines.
(** *** Blocks *)

Lemma forallb_all {A} (f : A → bool) (l : list A) :
  forallb f l = true → Forall (λ x, f x = true) l.
Proof.
  intros H. apply Forall_forall. intros x Hx.
  by apply (proj1 (forallb_forall f l) H), list_elem_of_In.
Qed.

Lemma line_clean (c : ascii) (a b : string) :
  py_isspace c = false → str_has_char (String c a) newline = false →
  clean_text b = true → clean_text (String c a +:+ b) = true.
Proof.
  intros Hc Ha Hb. destruct (clean_text_spec _ Hb) as (Hne & Hs & Hn).
  unfold clean_text. rewrite has_char_app, Ha, Hn, strip_line by done.
  rewrite bool_decide_eq_true_2 by done. by rewrite append_cons.
Qed.

Lemma join_clean (sep : string) (l : list string) :
  l ≠ [] → str_has_char sep newline = false →
  Forall (λ s, clean_text s = true) l → clean_text (str_join sep l) = true.
Proof.
  intros Hne Hsep Hall. unfold clean_text.
  rewrite bool_decide_eq_true_2 by by apply stripped_join.
  rewrite join_no_newline; [|done|].
  - rewrite andb_true_r.
    assert (str_join sep l ≠ EmptyString) as Hj.
    { apply join_nonempty; [done|]. eapply Forall_impl; [exact Hall|].
      by intros s (? & _)%clean_text_spec. }
    by destruct (str_join sep l).
  - eapply Forall_impl; [exact Hall|]. by intros s (_ & _ & ?)%clean_text_spec.
Qed.

Lemma header_clean (nm : string) :
  clean_text nm = true → clean_text ("[" +:+ nm +:+ "]") = true.
Proof. intros H. by apply (line_clean "[" nm "]"); [|apply clean_text_spec in H as (_ & _ & ?)|]. Qed.

Lemma sorted_tags (T : gset string) :
  list_to_set (py_sorted (py_sorted (elements T))) = T.
Proof.
  apply set_eq. intros t.
  by rewrite elem_of_list_to_set, !py_sorted_elem, elem_of_elements.
Qed.

Lemma py_sorted_nonempty (l : list string) :
  dict_nonempty (py_sorted l) = dict_nonempty l.
Proof.
  destruct l as [|x l]; [done|].
  destruct (py_sorted (x :: l)) eqn:Hl; [|done].
  pose proof (py_sorted_perm (x :: l)) as Hp. rewrite Hl in Hp.
  by apply Permutation_nil_l in Hp.
Qed.

Lemma sorted_nonempty (T : gset string) :
  dict_nonempty (py_sorted (elements T)) = set_nonempty T.
Proof.
  unfold set_nonempty. case_bool_decide as HT.
  - subst T. by rewrite elements_empty.
  - destruct (py_sorted (elements T)) as [|x l] eqn:Hl; [|done].
    exfalso. apply HT, leibniz_equiv, elements_empty_inv.
    pose proof (py_sorted_perm (elements T)) as Hp. rewrite Hl in Hp.
    by apply Permutation_nil_l in Hp as ->.
Qed.

Lemma default_bindings (l : list (string * string)) :
  default [] (match l with [] => None | _ => Some (default [] None ++ l) end) = l.
Proof. by destruct l. Qed.

Section RoundTrip.
Context `{EP : ExprParser}.
Implicit Types (r : MerchantRule) (rd : rule_data) (st : parse_state).

Lemma regenerable_spec r :
  regenerable r = true →
  clean_text (name r) = true ∧ clean_text (match_expr r) = true
  ∧ parse_expression (match_expr r) = true
  ∧ clean_text (merchant r) = true
  ∧ (str_nonempty (category r) || set_nonempty (tags r)) = true
  ∧ optional_clean (category r) = true ∧ optional_clean (subcategory r) = true
  ∧ transform r = EmptyString
  ∧ priority r ≠ 0
  ∧ Forall (λ b, clean_binding b = true ∧ parse_expression b.2 = true) (let_bindings r)
  ∧ Forall (λ b, clean_binding b = true ∧ parse_expression b.2 = true) (fields r)
  ∧ NoDup (fields r).*1
  ∧ Forall (λ t, clean_tag t = true) (elements (tags r)).
Proof.
  unfold regenerable. rewrite !andb_true_iff.
  intros ((((((((((((H1 & H2) & H3) & H4) & H5) & H6) & H7) & H8) & H9) & H10) & H11)
            & H12) & H13).
  split_and!; try done.
  - apply negb_true_iff in H8. by destruct (transform r).
  - apply negb_true_iff, Z.eqb_neq in H9. done.
  - apply forallb_all in H10. eapply Forall_impl; [exact H10|].
    intros b Hb. by apply andb_true_iff in Hb.
  - apply forallb_all in H11. eapply Forall_impl; [exact H11|].
    intros b Hb. by apply andb_true_iff in Hb.
  - by apply bool_decide_eq_true in H12.
  - by apply forallb_all.
Qed.

Lemma optional_clean_spec (s : string) :
  optional_clean s = true → str_nonempty s = true → clean_text s = true.
Proof. unfold optional_clean. by intros [H|H]%orb_true_iff Hs; [rewrite Hs in H|]. Qed.

Lemma priority_opt (nm : string) M C S Me T Tg P L F (b : bool) (p : Z) :
  steps (if b then ["priority: " +:+ pretty p] else [])
    (mkRuleData nm M C S Me T Tg P L F)
    (mkRuleData nm M C S Me T Tg (if b then Some p else P) L F).
Proof. destruct b; [apply priority_line_step|apply steps_nil]. Qed.

Lemma merchant_opt (nm : string) M C S Me T Tg P L F (b : bool) (v : string) :
  (b = true → clean_text v = true) →
  steps (if b then ["merchant: " +:+ v] else [])
    (mkRuleData nm M C S Me T Tg P L F)
    (mkRuleData nm M C S (if b then Some v else Me) T Tg P L F).
Proof. destruct b; intros H; [by apply merchant_line_step, H|apply steps_nil]. Qed.

Lemma category_opt (nm : string) M C S Me T Tg P L F (b : bool) (v : string) :
  (b = true → clean_text v = true) →
  steps (if b then ["category: " +:+ v] else [])
    (mkRuleData nm M C S Me T Tg P L F)
    (mkRuleData nm M (if b then Some v else C) S Me T Tg P L F).
Proof. destruct b; intros H; [by apply category_line_step, H|apply steps_nil]. Qed.

Lemma subcategory_opt (nm : string) M C S Me T Tg P L F (b : bool) (v : string) :
  (b = true → clean_text v = true) →
  steps (if b then ["subcategory: " +:+ v] else [])
    (mkRuleData nm M C S Me T Tg P L F)
    (mkRuleData nm M C (if b then Some v else S) Me T Tg P L F).
Proof. destruct b; intros H; [by apply subcategory_line_step, H|apply steps_nil]. Qed.

Lemma tags_opt (nm : string) M C S Me T Tg P L F (items : list string) :
  Forall (λ s, clean_tag s = true) items →
  steps (if dict_nonempty items then ["tags: " +:+ str_join ", " items] else [])
    (mkRuleData nm M C S Me T Tg P L F)
    (mkRuleData nm M C S Me T
       (if dict_nonempty items then Some (list_to_set items) else Tg) P L F).
Proof.
  intros H. destruct items as [|x items]; [apply steps_nil|].
  by apply tags_line_step.
Qed.

Lemma sorted_clean_tags (T : gset string) :
  Forall (λ t, clean_tag t = true) (elements T) →
  Forall (λ t, clean_tag t = true) (py_sorted (py_sorted (elements T))).
Proof.
  rewrite !Forall_forall. intros H t Ht. apply H.
  by rewrite !py_sorted_elem in Ht.
Qed.

(** The lines of the block of a rule are clean. *)
Lemma rule_lines_clean (i : nat) r :
  regenerable r = true →
  Forall (λ l, clean_text l = true) (rule_lines (cached_rule_of i r)).
Proof.
  intros (Hn & Hm & _ & Hme & _ & Hc & Hs & _ & Hp & Hl & Hf & _ & Ht)%regenerable_spec.
  unfold rule_lines, cached_rule_of, _row_to_rule, rule_row_of.
  cbn [c_name c_match_expr c_category c_subcategory c_merchant c_tags c_priority
       c_let_bindings c_fields row_name row_match_expr row_category row_subcategory
       row_merchant row_tags row_priority row_let_bindings row_fields].
  repeat (apply Forall_app; split).
  - apply Forall_singleton. by apply header_clean.
  - destruct (negb _); [|done]. apply Forall_singleton.
    apply (line_clean "p" "riority: "); [done|done|apply pretty_clean].
  - apply Forall_fmap. eapply Forall_impl; [exact Hl|].
    intros b [(_ & _ & _ & Hb)%binding_clean _]. simpl.
    by apply (line_clean "l" "et: ").
  - apply Forall_singleton. by apply (line_clean "m" "atch: ").
  - destruct (_ && _) eqn:Hb; [|done]. apply Forall_singleton.
    apply andb_true_iff in Hb as [Hb _].
    destruct (str_nonempty (merchant r)); by apply (line_clean "m" "erchant: ").
  - destruct (str_nonempty (category r)) eqn:Hb; [|done]. apply Forall_singleton.
    apply (line_clean "c" "ategory: "); [done|done|by apply optional_clean_spec].
  - destruct (str_nonempty (subcategory r)) eqn:Hb; [|done]. apply Forall_singleton.
    apply (line_clean "s" "ubcategory: "); [done|done|by apply optional_clean_spec].
  - apply Forall_fmap. eapply Forall_impl; [exact Hf|].
    intros b [(_ & _ & _ & Hb)%binding_clean _]. simpl.
    by apply (line_clean "f" "ield: ").
  - destruct (dict_nonempty _) eqn:Hb; [|done]. apply Forall_singleton.
    apply (line_clean "t" "ags: "); [done|done|].
    apply join_clean; [|done|].
    { intros Hnil. by rewrite <- py_sorted_nonempty, Hnil in Hb. }
    eapply Forall_impl; [apply sorted_clean_tags, Ht|].
    intros t Hc'. unfold clean_tag in Hc'. by apply andb_true_iff in Hc' as [? _].
Qed.

Lemma save_current_keeps st st1 :
  save_current st = (st1, None) →
  p_variables st1 = p_variables st ∧ p_transforms st1 = p_transforms st.
Proof.
  unfold save_current. destruct (current_rule st); [|by intros [= <-]].
  destruct (_add_rule _ _); [|done]. by intros [= <-].
Qed.

(** The parser on the block of a rule: the header closes the rule before
    it, and the property lines build a rule that [_add_rule] accepts as
    the rule that was written. *)
Lemma block_parses (i : nat) r st st1 (n : nat) :
  regenerable r = true → save_current st = (st1, None) →
  ∃ rd,
    parse_lines st n (rule_lines (cached_rule_of i r))
    = (mkParse (p_rules st1) (p_variables st1) (p_transforms st1) (Some rd) n, None)
    ∧ _add_rule rd n = Ok (at_line n r).
Proof.
  intros Hreg Hsave.
  destruct (regenerable_spec r Hreg)
    as (Hn & Hm & Hpm & Hme & Hct & Hc & Hs & Htr & Hp & Hl & Hf & Hnd & Ht).
  unfold rule_lines, cached_rule_of, _row_to_rule, rule_row_of.
  cbn [c_name c_match_expr c_category c_subcategory c_merchant c_tags c_priority
       c_let_bindings c_fields row_name row_match_expr row_category row_subcategory
       row_merchant row_tags row_priority row_let_bindings row_fields].
  assert (str_nonempty (merchant r) = true) as Hmne.
  { apply clean_text_spec in Hme as (? & _). by destruct (merchant r). }
  rewrite Hmne. apply Z.eqb_neq in Hp. rewrite Hp. cbn [andb].
  rewrite <- (py_sorted_nonempty (py_sorted (elements (tags r)))).
  eexists. split.
  - rewrite parse_lines_app. cbn [parse_lines].
    rewrite (header_line_step st st1 n (name r) Hn Hsave). unfold new_rule_data.
    eapply steps_app; [apply priority_opt|].
    eapply steps_app.
    { apply lets_steps. eapply Forall_impl; [exact Hl|]. by intros b [? _]. }
    eapply steps_app; [by apply match_line_step|].
    eapply steps_app; [apply merchant_opt; by intros _|].
    eapply steps_app; [apply category_opt; by apply optional_clean_spec|].
    eapply steps_app; [apply subcategory_opt; by apply optional_clean_spec|].
    eapply steps_app.
    { apply fields_steps; [|done]. eapply Forall_impl; [exact Hf|]. by intros b [? _]. }
    apply tags_opt. by apply sorted_clean_tags.
  - unfold _add_rule.
    cbn [rd_name rd_match_expr rd_category rd_subcategory rd_merchant rd_transform
         rd_tags rd_priority rd_let_bindings rd_fields].
    rewrite py_sorted_nonempty, sorted_nonempty, sorted_tags, !default_bindings.
    assert ((negb (from_option str_nonempty false
                     (if str_nonempty (category r) then Some (category r) else None))
             && negb (from_option set_nonempty false
                        (if set_nonempty (tags r) then Some (tags r) else None)))
            = false) as ->.
    { destruct (str_nonempty (category r)) eqn:H1; simpl; [by rewrite H1|].
      simpl in Hct. rewrite Hct. simpl. by rewrite Hct. }
    rewrite (find_none_gen _ (let_bindings r)).
    2:{ intros b Hb. rewrite Forall_forall in Hl. destruct (Hl b Hb) as [_ ->]. done. }
    rewrite (find_none_gen _ (fields r)).
    2:{ intros b Hb. rewrite Forall_forall in Hf. destruct (Hf b Hb) as [_ ->]. done. }
    rewrite Hpm. cbn [negb]. f_equal.
    unfold MerchantRule_init, at_line. destruct r as [nm m c s me T p ln L F tr].
    simpl in *. subst tr. f_equal.
    + by destruct c.
    + by destruct s.
    + rewrite Hmne. case_bool_decide as Heq; simpl; [by subst|by rewrite Hmne].
    + unfold set_nonempty. case_bool_decide as HT; by simpl.
    + destruct (p =? 50) eqn:H50; simpl; [|done]. by apply Z.eqb_eq in H50.
Qed.

Lemma at_line_twice (n m : nat) r : at_line m (at_line n r) = at_line m r.
Proof. done. Qed.

(** The parser after the block of one more rule. *)
Lemma block_so_far e (i : nat) r st (n : nat) (done : list MerchantRule) :
  regenerable r = true → parsed_so_far e st done →
  ∃ st', parse_lines st n (rule_lines (cached_rule_of i r)) = (st', None)
         ∧ parsed_so_far e st' (done ++ [r]).
Proof.
  intros Hreg (Hv & Ht & st1 & Hsave & Hrules).
  destruct (block_parses i r st st1 n Hreg Hsave) as (rd & Hparse & Hadd).
  destruct (save_current_keeps _ _ Hsave) as [Hv1 Ht1].
  eexists. split; [exact Hparse|].
  split; [by rewrite <- Hv|]. split; [by rewrite <- Ht|].
  eexists. split.
  - unfold save_current. cbn [current_rule rule_start_line]. by rewrite Hadd.
  - cbn [p_rules]. by rewrite !fmap_app, Hrules.
Qed.

Lemma blocks_parse e (rs : list MerchantRule) :
  Forall (λ r, regenerable r = true) rs → rs ≠ [] →
  ∀ st (n : nat) (done : list MerchantRule),
    parsed_so_far e st done →
    ∃ st', parse_lines st n (section_lines ((λ r, rule_lines (cached_rule_of 0 r)) <$> rs))
           = (st', None)
           ∧ parsed_so_far e st' (done ++ rs).
Proof.
  induction 1 as [|r rs Hr Hall IH]; [done|]. intros _ st n done Hso.
  destruct (block_so_far e 0 r st n done Hr Hso) as (st1 & Hp1 & Hso1).
  destruct rs as [|r2 rs].
  - exists st1. by split.
  - change (section_lines ((λ r, rule_lines (cached_rule_of 0 r)) <$> r :: r2 :: rs))
      with (rule_lines (cached_rule_of 0 r)
            ++ EmptyString
               :: section_lines ((λ r, rule_lines (cached_rule_of 0 r)) <$> r2 :: rs)).
    rewrite parse_lines_app, Hp1. cbn [parse_lines].
    rewrite parse_line_blank by done.
    destruct (IH ltac:(done) st1 (S (n + length (rule_lines (cached_rule_of 0 r))))
                (done ++ [r]) Hso1) as (st2 & Hp2 & Hso2).
    exists st2. split; [done|]. by rewrite <- app_assoc in Hso2.
Qed.

Lemma format_blocks (rs : list MerchantRule) :
  _format_cached_rule <$> imap cached_rule_of rs
  = str_join nl <$> ((λ r, rule_lines (cached_rule_of 0 r)) <$> rs).
Proof.
  rewrite fmap_imap, <- list_fmap_compose.
  etrans; [|apply imap_const]. by apply imap_ext.
Qed.

(** *** The preamble *)

Lemma ident_start_char (c : ascii) : is_ident_start c = true → is_ident_char c = true.
Proof. unfold is_ident_char. by intros ->. Qed.

Lemma startswith_ident (p v rest : string) :
  str_forall is_ident_char v = true → str_forall is_ident_char p = false →
  str_has_char p " " = false →
  str_startswith (v +:+ String " " rest) p = false.
Proof.
  revert p. induction v as [|c v IH]; intros p Hv Hp Hsp.
  - rewrite append_nil_l. destruct p as [|a p]; [done|]. cbn [str_startswith].
    simpl in Hsp. by destruct (ascii_dec a " ").
  - rewrite append_cons. destruct p as [|a p]; [done|]. cbn [str_startswith].
    simpl in Hv. apply andb_true_iff in Hv as [Hc Hv].
    destruct (ascii_dec a c) as [->|]; [|done].
    simpl in Hp, Hsp. rewrite Hc in Hp. simpl in Hp.
    destruct (ascii_dec c " "); [done|]. by apply IH.
Qed.

Lemma startswith_ident_only (p v : string) :
  str_forall is_ident_char v = true → str_forall is_ident_char p = false →
  str_startswith v p = false.
Proof.
  revert p. induction v as [|c v IH]; intros p Hv Hp; destruct p as [|a p]; try done.
  cbn [str_startswith]. simpl in Hv. apply andb_true_iff in Hv as [Hc Hv].
  destruct (ascii_dec a c) as [->|]; [|done].
  simpl in Hp. rewrite Hc in Hp. by apply IH.
Qed.

Lemma substring_all (s : string) : String.substring 0 (String.length s) s = s.
Proof. induction s as [|c s IH]; simpl; [done|]. by rewrite IH. Qed.

Lemma startswith_split (s p : string) :
  str_startswith s p = true →
  s = p +:+ String.substring (String.length p) (String.length s - String.length p) s.
Proof.
  revert s. induction p as [|a p IH]; intros s Hs.
  - rewrite append_nil_l. simpl. by rewrite Nat.sub_0_r, substring_all.
  - destruct s as [|b s]; [done|]. cbn [str_startswith] in Hs.
    destruct (ascii_dec a b) as [->|]; [|done].
    rewrite append_cons. simpl. f_equal. by apply IH.
Qed.

Lemma field_path_rest (rest : string) :
  String.substring 6 (String.length ("field." +:+ rest) - 6) ("field." +:+ rest) = rest.
Proof.
  change ("field." +:+ rest)
    with (String "f" (String "i" (String "e" (String "l" (String "d" (String "." rest)))))).
  simpl. rewrite Nat.sub_0_r. apply substring_all.
Qed.

Lemma has_equals (a b : string) : str_has_char (a +:+ " = " +:+ b) "=" = true.
Proof.
  rewrite !has_char_app. change (str_has_char " = " "=") with true.
  by destruct (str_has_char a "=").
Qed.

(** A line [name = expression] of the preamble before the first header. *)
Lemma variable_line st (n : nat) (b : string * string) :
  current_rule st = None → clean_binding b = true → b.1 ∉ (p_variables st).*1 →
  parse_line st n (b.1 +:+ " = " +:+ b.2)
  = (mkParse (p_rules st) (p_variables st ++ [b]) (p_transforms st) None
       (rule_start_line st), None).
Proof.
  intros Hc Hb Hnew. destruct (binding_clean b Hb) as (Hid & Hlow & He & Hline).
  destruct (clean_text_spec _ Hline) as (_ & Hs & _).
  destruct b as [v e]. simpl in *. destruct v as [|c v]; [done|].
  assert (is_ident_start c = true ∧ str_forall is_ident_char v = true) as [Hc1 Hv].
  { simpl in Hid. by apply andb_true_iff in Hid. }
  assert (str_forall is_ident_char (String c v) = true) as Hcv.
  { simpl. by rewrite (ident_start_char c Hc1), Hv. }
  unfold parse_line. rewrite Hs, has_equals, Hc.
  assert (is_blank_or_comment (String c v +:+ " = " +:+ e) = false) as ->.
  { rewrite append_cons. unfold is_blank_or_comment.
    rewrite startswith_other; [done|]. by intros ->. }
  assert (is_header (String c v +:+ " = " +:+ e) = false) as ->.
  { rewrite append_cons. unfold is_header.
    rewrite startswith_other; [done|]. by intros ->. }
  rewrite bool_decide_eq_false_2 by by intros [? ?]. cbn [andb negb].
  unfold match_toplevel.
  change (String c v +:+ " = " +:+ e) with (String c v +:+ String " " ("= " +:+ e)) at 1.
  rewrite startswith_ident by done.
  rewrite match_assignment_binding by done.
  rewrite startswith_ident_only by done.
  by rewrite Hlow, dict_set_new.
Qed.

(** A line [field.name = expression] of the preamble. *)
Lemma transform_line st (n : nat) (b : string * string) :
  current_rule st = None → clean_transform b = true →
  parse_line st n (b.1 +:+ " = " +:+ b.2)
  = (mkParse (p_rules st) (p_variables st) (p_transforms st ++ [b]) None
       (rule_start_line st), None).
Proof.
  intros Hc Hb. unfold clean_transform in Hb.
  apply andb_true_iff in Hb as [[Hf Hid]%andb_true_iff He].
  destruct b as [path e]. simpl in *.
  pose proof (startswith_split _ _ Hf) as Hpath.
  set (x := String.substring (String.length "field.")
              (String.length path - String.length "field.") path) in *.
  change (String.substring 6 (String.length path - 6) path) with x in Hid.
  clearbody x. subst path.
  destruct (clean_text_spec _ He) as (Hne & Hse & Hn).
  assert (str_strip (("field." +:+ x) +:+ " = " +:+ e) = ("field." +:+ x) +:+ " = " +:+ e)
    as Hs.
  { rewrite <- append_assoc.
    change (("field." +:+ x) +:+ " = ") with (String "f" (("ield." +:+ x) +:+ " = ")).
    by apply strip_line. }
  unfold parse_line. rewrite Hs, has_equals, Hc.
  assert (is_blank_or_comment (("field." +:+ x) +:+ " = " +:+ e) = false) as -> by done.
  assert (is_header (("field." +:+ x) +:+ " = " +:+ e) = false) as -> by done.
  rewrite bool_decide_eq_false_2 by by intros [? ?]. cbn [andb negb].
  unfold match_toplevel.
  assert (str_startswith (("field." +:+ x) +:+ " = " +:+ e) "field." = true) as ->.
  { rewrite append_assoc. by destruct (x +:+ " = " +:+ e). }
  rewrite (append_assoc "field." x), field_path_rest.
  rewrite match_assignment_binding by done.
  by rewrite Hf.
Qed.

Lemma variable_lines (vars : list (string * string)) :
  Forall (λ b, clean_binding b = true) vars →
  ∀ st (n : nat),
    current_rule st = None → NoDup ((p_variables st).*1 ++ vars.*1) →
    parse_lines st n ((λ b, b.1 +:+ " = " +:+ b.2) <$> vars)
    = (mkParse (p_rules st) (p_variables st ++ vars) (p_transforms st) None
         (rule_start_line st), None).
Proof.
  induction 1 as [|b vars Hb Hall IH]; intros st n Hc Hnd.
  - rewrite app_nil_r. destruct st. simpl in *. by subst.
  - rewrite fmap_cons. cbn [parse_lines].
    rewrite variable_line; [|done|done|].
    + rewrite IH; cbn [p_rules p_variables p_transforms rule_start_line current_rule].
      * by rewrite <- app_assoc.
      * done.
      * rewrite fmap_app, <- app_assoc. done.
    + apply NoDup_app in Hnd as (_ & Hd & _). intros Hin. apply (Hd _ Hin).
      rewrite fmap_cons. by left.
Qed.

Lemma transform_lines (ts : list (string * string)) :
  Forall (λ b, clean_transform b = true) ts →
  ∀ st (n : nat),
    current_rule st = None →
    parse_lines st n ((λ b, b.1 +:+ " = " +:+ b.2) <$> ts)
    = (mkParse (p_rules st) (p_variables st) (p_transforms st ++ ts) None
         (rule_start_line st), None).
Proof.
  induction 1 as [|b ts Hb Hall IH]; intros st n Hc.
  - rewrite app_nil_r. destruct st. simpl in *. by subst.
  - rewrite fmap_cons. cbn [parse_lines]. rewrite transform_line by done.
    rewrite IH by done.
    cbn [p_rules p_variables p_transforms rule_start_line]. by rewrite <- app_assoc.
Qed.

Lemma clean_preamble_spec e :
  clean_preamble e = true →
  Forall (λ b, clean_binding b = true) (variables e)
  ∧ NoDup (variables e).*1
  ∧ Forall (λ b, clean_transform b = true) (transforms e).
Proof.
  unfold clean_preamble. intros [[H1 H2]%andb_true_iff H3]%andb_true_iff.
  split; [by apply forallb_all|]. split; [by apply bool_decide_eq_true in H2|].
  by apply forallb_all.
Qed.

(** The parser on the lines of the preamble. *)
Lemma preamble_parses e (n : nat) :
  clean_preamble e = true →
  parse_lines (mkParse [] [] [] None 0) n (_store_preamble e)
  = (mkParse [] (variables e) (transforms e) None 0, None).
Proof.
  intros (Hv & Hnd & Ht)%clean_preamble_spec. unfold _store_preamble.
  rewrite parse_lines_app, variable_lines by done.
  by rewrite transform_lines.
Qed.

Lemma transform_line_clean (b : string * string) :
  clean_transform b = true → clean_text (b.1 +:+ " = " +:+ b.2) = true.
Proof.
  unfold clean_transform. intros [[Hf Hid]%andb_true_iff He]%andb_true_iff.
  destruct b as [path e]. simpl in *.
  pose proof (startswith_split _ _ Hf) as Hpath.
  set (x := String.substring (String.length "field.")
              (String.length path - String.length "field.") path) in *.
  change (String.substring 6 (String.length path - 6) path) with x in Hid.
  clearbody x. subst path.
  assert (str_has_char x newline = false) as Hx.
  { destruct x as [|c x]; [done|]. simpl in Hid. apply andb_true_iff in Hid as [Hc Hid].
    assert (∀ s, str_forall is_ident_char s = true → str_has_char s newline = false) as Hn.
    { induction s as [|a s IH]; simpl; [done|]. intros [Ha Hs]%andb_true_iff.
      destruct (ascii_dec a newline) as [->|]; [done|by apply IH]. }
    simpl. destruct (ascii_dec c newline) as [->|]; [done|by apply Hn]. }
  rewrite <- append_assoc.
  change (("field." +:+ x) +:+ " = ") with (String "f" (("ield." +:+ x) +:+ " = ")).
  apply line_clean; [done| |done].
  change (String "f" (("ield." +:+ x) +:+ " = ")) with (("field." +:+ x) +:+ " = ").
  by rewrite !has_char_app, Hx.
Qed.

Lemma preamble_clean e :
  clean_preamble e = true → Forall (λ l, clean_text l = true) (_store_preamble e).
Proof.
  intros (Hv & _ & Ht)%clean_preamble_spec. unfold _store_preamble.
  apply Forall_app. split; apply Forall_fmap.
  - eapply Forall_impl; [exact Hv|]. by intros b (_ & _ & _ & ?)%binding_clean.
  - eapply Forall_impl; [exact Ht|]. intros b Hb. by apply transform_line_clean.
Qed.

(** *** The whole file *)

(** The sections of the regenerated file, each as its lines. *)
Lemma regenerated_lines (h1 h2 now : string) e (transactions : list transaction)
    (ds : data_sources) :
  clean_preamble e = true →
  Forall (λ r, regenerable r = true) (rules e) →
  str_split_lines (regenerate_rules_file (rebuild h1 h2 now e transactions ds))
  = section_lines
      ((if dict_nonempty (_store_preamble e) then [_store_preamble e] else [])
       ++ ((λ r, rule_lines (cached_rule_of 0 r)) <$> rules e))
    ++ [EmptyString].
Proof.
  intros Hpre Hall. unfold regenerate_rules_file. rewrite get_rules_rebuild.
  unfold rebuild. cbn [db_preamble from_option id]. rewrite format_blocks.
  set (blocks := (λ r, rule_lines (cached_rule_of 0 r)) <$> rules e).
  set (secs := (if dict_nonempty (_store_preamble e) then [_store_preamble e] else [])
               ++ blocks).
  assert ((if dict_nonempty (_store_preamble e)
           then [str_join nl (_store_preamble e)] else [])
          ++ (str_join nl <$> blocks) = str_join nl <$> secs) as ->.
  { unfold secs. rewrite fmap_app. by destruct (dict_nonempty (_store_preamble e)). }
  assert (Forall (λ ls, ls ≠ [] ∧ Forall (λ l, clean_text l = true) ls) secs) as Hb.
  { apply Forall_app. split.
    - destruct (_store_preamble e) as [|l ls] eqn:Hp; [done|].
      apply Forall_singleton. split; [done|]. rewrite <- Hp. by apply preamble_clean.
    - apply Forall_fmap. eapply Forall_impl; [exact Hall|]. intros r Hr. simpl.
      split; [done|by apply rule_lines_clean]. }
  assert (str_rstrip (str_join (nl +:+ nl) (str_join nl <$> secs))
          = str_join (nl +:+ nl) (str_join nl <$> secs)) as ->.
  { apply rstrip_join, Forall_fmap. eapply Forall_impl; [exact Hb|].
    intros ls [Hne Hls]. simpl.
    assert (Forall (λ s, str_rstrip s = s ∧ s ≠ EmptyString) ls) as Hls'.
    { eapply Forall_impl; [exact Hls|]. intros s (? & ? & _)%clean_text_spec.
      split; [by apply stripped_rstrip|done]. }
    split; [by apply rstrip_join|]. apply join_nonempty; [done|].
    eapply Forall_impl; [exact Hls'|]. by intros s [_ ?]. }
  change (?a +:+ nl) with (a +:+ String newline EmptyString).
  rewrite split_lines_app, split_lines_sections; [done|].
  eapply Forall_impl; [exact Hb|]. intros ls [Hne Hls]. split; [done|].
  eapply Forall_impl; [exact Hls|]. by intros s (_ & _ & ?)%clean_text_spec.
Qed.

(** The parser on the sections of the regenerated file. *)
Lemma sections_parse e :
  clean_preamble e = true →
  Forall (λ r, regenerable r = true) (rules e) →
  ∃ st, parse_lines (mkParse [] [] [] None 0) 1
          (section_lines
             ((if dict_nonempty (_store_preamble e) then [_store_preamble e] else [])
              ++ ((λ r, rule_lines (cached_rule_of 0 r)) <$> rules e)))
        = (st, None)
        ∧ parsed_so_far e st (rules e).
Proof.
  intros Hpre Hall.
  assert (parsed_so_far e (mkParse [] (variables e) (transforms e) None 0) []) as Hso.
  { split; [done|]. split; [done|]. by eexists. }
  destruct (_store_preamble e) as [|l ls] eqn:Hp.
  - assert (variables e = [] ∧ transforms e = []) as [Hv Ht].
    { unfold _store_preamble in Hp. apply app_eq_nil in Hp as [H1 H2].
      by apply fmap_nil_inv in H1, H2. }
    rewrite Hv, Ht in Hso. cbn [dict_nonempty app].
    destruct (rules e) as [|r rs] eqn:Hrs.
    + cbn [fmap list_fmap section_lines parse_lines].
      rewrite parse_line_blank by done. eexists. split; [done|exact Hso].
    + destruct (blocks_parse e (r :: rs) Hall ltac:(done) _ 1%nat [] Hso)
        as (st & Hst & Hso').
      by exists st.
  - cbn [dict_nonempty app]. rewrite <- Hp.
    destruct (rules e) as [|r rs] eqn:Hrs.
    + cbn [fmap list_fmap section_lines]. rewrite preamble_parses by done.
      eexists. by split.
    + change (section_lines
                (_store_preamble e :: ((λ r, rule_lines (cached_rule_of 0 r)) <$> r :: rs)))
        with (_store_preamble e
              ++ EmptyString
                 :: section_lines ((λ r, rule_lines (cached_rule_of 0 r)) <$> r :: rs)).
      rewrite parse_lines_app, preamble_parses by done. cbn [parse_lines].
      rewrite parse_line_blank by done.
      destruct (blocks_parse e (r :: rs) Hall ltac:(done) _
                  (S (1 + length (_store_preamble e))) [] Hso) as (st & Hst & Hso').
      by exists st.
Qed.

(** X22: for an engine whose preamble is clean (variables with distinct
    names that are identifiers in lower case, transforms of the form
    [field.<identifier>], clean expressions) and whose rules are
    regenerable (clean texts, expressions that parse, a category or a
    tag, no transform, a priority other than 0, distinct field names,
    tags without comma and parenthesis), the text that
    [regenerate_rules_file] writes after [rebuild] is accepted by
    [parse_merchants], and the engine it gives has the same variables,
    the same transforms and the same rules in the same order, up to the
    line numbers of the rules. *)
Theorem regenerated_file_parses_back (h1 h2 now mode : string) e
    (transactions : list transaction) (ds : data_sources) :
  clean_preamble e = true →
  forallb regenerable (rules e) = true →
  ∃ e', parse_merchants (regenerate_rules_file (rebuild h1 h2 now e transactions ds)) mode
        = Ok e'
        ∧ variables e' = variables e ∧ transforms e' = transforms e
        ∧ match_mode e' = mode
        ∧ at_line 0 <$> rules e' = at_line 0 <$> rules e.
Proof.
  intros Hpre Hall%forallb_all.
  unfold parse_merchants, parse. rewrite regenerated_lines by done.
  cbn [match_mode].
  destruct (sections_parse e Hpre Hall) as (st & Hp & Hv & Ht & st' & Hsave & Hrules).
  rewrite parse_lines_app, Hp. cbn [parse_lines].
  rewrite parse_line_blank by done. rewrite Hsave.
  destruct (save_current_keeps _ _ Hsave) as [Hv1 Ht1].
  eexists. split; [done|]. cbn [engine_of variables transforms match_mode rules].
  by rewrite Hv1, Ht1.
Qed.

End RoundTrip.

(** ** The two lists of rules *)

Section RuleLists.
Context `{EP : ExprParser}.

(** X23: every rule of an engine that [parse_merchants] returns is in
    exactly one of [categorization_rules] and [tag_only_rules]; a rule of
    [categorization_rules] has a category, and a rule of
    [tag_only_rules] has none and at least one tag. *)
Theorem parsed_rules_partition (content mode : string) e (r : MerchantRule) :
  parse_merchants content mode = Ok e → r ∈ rules e →
  (r ∈ categorization_rules e ∧ (r ∉ tag_only_rules e) ∧ category r ≠ EmptyString)
  ∨ (r ∈ tag_only_rules e ∧ (r ∉ categorization_rules e)
     ∧ category r = EmptyString ∧ tags r ≠ ∅).
Proof.
  unfold parse_merchants. intros Hp Hr.
  destruct (parse (mkEngine [] [] [] mode) content) as [en' [err|]] eqn:Hparse; [done|].
  injection Hp as ->.
  destruct (parse_rules_ok _ _ _ _ Hparse) as [_ Hok].
  destruct (Hok r Hr) as [(_ & _ & _ & _ & _ & _ & Hct & _) _].
  unfold categorization_rules, tag_only_rules.
  rewrite !list_elem_of_In, !filter_In, <- !list_elem_of_In.
  unfold is_categorization_rule.
  destruct (category r) as [|c s] eqn:Hc; simpl.
  - right. split_and!; try done; [by intros [_ ?]|by destruct Hct].
  - left. split_and!; try done. by intros [_ ?].
Qed.

End RuleLists.

(** ** Files without a rule block, and the file-level variables *)

Section TopLevel.
Context `{EP : ExprParser}.

Lemma headerless_lines (lines : list string) :
  Forall (λ line, is_header (str_strip line) = false) lines →
  ∀ st (n : nat),
    current_rule st = None →
    ∃ st', parse_lines st n lines = (st', None)
           ∧ current_rule st' = None ∧ p_rules st' = p_rules st.
Proof.
  induction 1 as [|line lines Hh Hall IH]; intros st n Hc.
  - by exists st.
  - cbn [parse_lines]. destruct (parse_line st n line) as [st1 r] eqn:Hp.
    destruct (parse_line_top_level _ _ _ _ _ Hc Hh Hp) as (-> & Hc1 & Hr1 & _).
    destruct (IH st1 (S n) Hc1) as (st' & Hp' & Hc' & Hr').
    exists st'. split; [done|]. split; [done|]. by rewrite Hr'.
Qed.

(** X24: a rule file without a header line is accepted whatever else it
    holds: every line that is not blank, not a comment and not a
    top-level assignment is passed over, no error is raised, and the
    engine has no rule. *)
Theorem headerless_file_has_no_rules (content mode : string) :
  (∀ line, line ∈ str_split_lines content → is_header (str_strip line) = false) →
  ∃ e, parse_merchants content mode = Ok e ∧ rules e = [] ∧ match_mode e = mode.
Proof.
  intros Hall. unfold parse_merchants, parse.
  destruct (headerless_lines (str_split_lines content) (proj2 (Forall_forall _ _) Hall)
              (mkParse [] [] [] None 0) 1%nat eq_refl) as (st & -> & Hc & Hr).
  unfold save_current. rewrite Hc. eexists. split; [done|]. by split.
Qed.

(** X25: the file-level variables are evaluated each on its own, in the
    empty variable scope: for distinct names, the value of a variable is
    that of its expression, a variable whose expression fails is absent,
    and so is every name that is not declared; hence neither the scope
    nor the result of [match] depends on the order of the variables. *)
Theorem global_variables_evaluated_alone e txn ds :
  NoDup (variables e).*1 →
  (∀ name expr, (name, expr) ∈ variables e →
     globals_of e txn ds !! name = evaluate_transaction expr txn ∅ ds)
  ∧ (∀ name, name ∉ (variables e).*1 → globals_of e txn ds !! name = None)
  ∧ (∀ vars', vars' ≡ₚ variables e →
       _evaluate_variables vars' txn ds = globals_of e txn ds
       ∧ engine_match (mkEngine (rules e) vars' (transforms e) (match_mode e)) txn ds
         = engine_match e txn ds).
Proof.
  intros Hnd.
  assert (∀ vars name,
            NoDup vars.*1 →
            (name ∉ vars.*1 → _evaluate_variables vars txn ds !! name = None)
            ∧ (∀ expr, (name, expr) ∈ vars →
                 _evaluate_variables vars txn ds !! name
                 = evaluate_transaction expr txn ∅ ds)) as Hlook.
  { intros vars name Hn. unfold _evaluate_variables.
    destruct (fold_fields_lookup (λ expr, evaluate_transaction expr txn ∅ ds) vars ∅ name Hn)
      as [H1 H2].
    split.
    - intros Hout. by rewrite H1.
    - intros expr Hin. rewrite (H2 expr Hin).
      by destruct (evaluate_transaction expr txn ∅ ds). }
  split; [|split].
  - intros name expr Hin. by apply (Hlook (variables e) name Hnd).
  - intros name Hout. by apply (Hlook (variables e) name Hnd).
  - intros vars' Hp.
    assert (_evaluate_variables vars' txn ds = globals_of e txn ds) as Heq.
    { assert (NoDup vars'.*1) as Hnd' by by rewrite Hp.
      apply map_eq. intros name. unfold globals_of.
      destruct (decide (name ∈ (variables e).*1)) as [Hin|Hout].
      - apply list_elem_of_fmap in Hin as ([k expr] & -> & Hin). simpl.
        rewrite (proj2 (Hlook (variables e) k Hnd) expr Hin).
        apply (Hlook vars' k Hnd'). by rewrite Hp.
      - rewrite (proj1 (Hlook (variables e) name Hnd) Hout).
        apply (Hlook vars' name Hnd'). by rewrite Hp. }
    split; [done|]. unfold engine_match. cbn [variables rules match_mode].
    by rewrite Heq.
Qed.

End TopLevel.

(** ** The transformed description *)

Section Transform.
Context `{EP : ExprParser}.

(** X26: the transformed description of a result comes from the rule
    that wins the category, in either mode: it is empty when that rule
    has no transform, when the expression fails and when it evaluates to
    [None]; otherwise it is the text of the value of the expression in
    the scope of that rule. *)
Theorem transform_of_winner e txn ds (w : MerchantRule) :
  res_matched_rule (engine_match e txn ds) = Some w →
  res_transform_description (engine_match e txn ds)
  = if str_nonempty (transform w) then
      match evaluate_transaction (transform w) txn
              (rule_scope w txn (globals_of e txn ds) ds) ds with
      | Some v => if is_none v then EmptyString else py_str v
      | None => EmptyString
      end
    else EmptyString.
Proof.
  intros Hw. pose proof (result_by_winner e txn ds) as H. cbv zeta in H.
  rewrite Hw in H. by destruct H as (_ & _ & _ & _ & -> & _).
Qed.

End Transform.

(** ** The scenarios *)

Import Scenario.

Lemma tag_rules_parse (mode : string) :
  parse_merchants tag_rules_text mode = Ok (tag_engine mode).
Proof. reflexivity. Qed.

Lemma overlap_rules_parse (mode : string) :
  parse_merchants overlap_text mode = Ok (overlap_engine mode).
Proof. reflexivity. Qed.

(** Witness of C1: the first of two matching category rules wins, though
    the second has the greater priority. *)
Lemma first_match_winner_witness :
  res_matched (engine_match (overlap_engine "first_match") christmas ∅) = true
  ∧ res_matched_rule (engine_match (overlap_engine "first_match") christmas ∅) = Some rule_a
  ∧ res_category (engine_match (overlap_engine "first_match") christmas ∅) = category rule_a
  ∧ res_merchant (engine_match (overlap_engine "first_match") christmas ∅) = merchant rule_a
  ∧ res_subcategory (engine_match (overlap_engine "first_match") christmas ∅)
    = subcategory rule_a.
Proof.
  apply (proj1 (first_match_winner (EP:=fragment) (overlap_engine "first_match") christmas ∅ eq_refl)
           [] rule_a [rule_b]).
  - reflexivity.
  - reflexivity.
  - reflexivity.
  - intros x Hx. apply elem_of_nil in Hx. destruct Hx.
Defined.


(** Counterexample to C3: with two matching category rules that carry
    different tags, the two modes select different winners and return
    different tag sets. *)
Lemma modes_give_different_tags :
  res_tags (engine_match (overlap_engine "first_match") christmas ∅) = {[ "a" ]}
  ∧ res_tags (engine_match (overlap_engine "most_specific") christmas ∅) = {[ "b" ]}
  ∧ res_tags (engine_match (overlap_engine "first_match") christmas ∅)
    ≠ res_tags (engine_match (overlap_engine "most_specific") christmas ∅).
Proof.
  assert (res_tags (engine_match (overlap_engine "first_match") christmas ∅) = {[ "a" ]})
    as Ha by (vm_compute; reflexivity).
  assert (res_tags (engine_match (overlap_engine "most_specific") christmas ∅) = {[ "b" ]})
    as Hb by (vm_compute; reflexivity).
  split; [done|]. split; [done|].
  rewrite Ha, Hb. intros H.
  assert ("a" ∈ ({[ "b" ]} : gset string)) as Hin by (rewrite <- H; set_solver).
  apply elem_of_singleton in Hin. discriminate.
Qed.

(** Witness of C3: with one category rule both modes select it, and the
    tag sets agree. *)
Lemma tags_per_mode_witness :
  res_tags (engine_match (with_mode (shop_engine "first_match") "first_match") christmas ∅)
  = res_tags
      (engine_match (with_mode (shop_engine "first_match") "most_specific") christmas ∅).
Proof.
  apply (proj2 (tags_per_mode (EP:=fragment) (shop_engine "first_match") christmas ∅)).
  vm_compute. reflexivity.
Defined.

(** Witness of C4, the scenario of the claim: two tag-only rules, a
    transaction of 750 on 2025-12-25. *)
Lemma unmatched_keeps_tags_witness :
  parse_merchants tag_rules_text "first_match" = Ok (tag_engine "first_match")
  ∧ res_matched (engine_match (tag_engine "first_match") christmas ∅) = false
  ∧ res_tags (engine_match (tag_engine "first_match") christmas ∅)
    = {[ "large"; "holiday" ]}.
Proof.
  split; [reflexivity|].
  destruct (unmatched_keeps_tags (EP:=fragment) (tag_engine "first_match") christmas ∅) as (H1 & _ & H3).
  - intros r Hr _.
    apply elem_of_cons in Hr as [->|Hr]; [reflexivity|].
    apply elem_of_cons in Hr as [->|Hr]; [reflexivity|].
    apply elem_of_nil in Hr. destruct Hr.
  - split; [exact H1|]. rewrite H3. vm_compute. reflexivity.
Defined.

(** Counterexample to C5: after [parse] has raised on the empty name in
    line 4, the engine holds the rule of the first block and categorises
    with it; and an unknown [key: value] line before the first rule block
    raises nothing. *)
Lemma partial_rules_survive_failure :
  (parse (mkEngine [] [] [] "first_match") partial_text).2
  = Some (mkParseError EmptyRuleName 4)
  ∧ rules (parse (mkEngine [] [] [] "first_match") partial_text).1
    = [mkMerchantRule "A" "true" "X" EmptyString "A" ∅ 50 1 [] [] EmptyString]
  ∧ res_matched
      (engine_match (parse (mkEngine [] [] [] "first_match") partial_text).1 christmas ∅)
    = true
  ∧ res_category
      (engine_match (parse (mkEngine [] [] [] "first_match") partial_text).1 christmas ∅)
    = "X"
  ∧ (parse (mkEngine [] [] [] "first_match") stray_text).2 = None.
Proof. vm_compute. repeat split; reflexivity. Qed.

Lemma not_known_colour : "colour" ∉ known_keys.
Proof.
  unfold known_keys. intros H.
  repeat (apply elem_of_cons in H as [H|H]; [discriminate H|]).
  apply elem_of_nil in H. destruct H.
Defined.

(** Witness of C5: an empty rule name, an unknown property, a malformed
    [let:], a rule without [match:], a rule without [category:] and
    [tags:], and a rule whose last [category:] line is empty and whose
    [tags:] line holds no tag. *)
Lemma parse_fails_closed_witness :
  (∃ en' err,
     parse (mkEngine [] [] [] "first_match") partial_text = (en', Some err)
     ∧ (1 ≤ err_line_number err ≤ 4)%nat)
  ∧ (∃ en' err,
       parse (mkEngine [] [] [] "first_match") unknown_key_text = (en', Some err)
       ∧ (1 ≤ err_line_number err ≤ 4)%nat
       ∧ err = mkParseError (UnknownProperty "colour") 4)
  ∧ (∃ en' err,
       parse (mkEngine [] [] [] "first_match") bad_let_text = (en', Some err)
       ∧ (1 ≤ err_line_number err ≤ 2)%nat
       ∧ err = mkParseError InvalidLetSyntax 2)
  ∧ (∃ en' err,
       parse (mkEngine [] [] [] "first_match") no_match_text = (en', Some err)
       ∧ err_line_number err = 1%nat)
  ∧ (∃ en' err,
       parse (mkEngine [] [] [] "first_match") no_category_text = (en', Some err)
       ∧ err_line_number err = 1%nat
       ∧ err_kind err = MissingCategoryOrTags "A")
  ∧ (∃ en' err,
       parse (mkEngine [] [] [] "first_match") empty_category_text = (en', Some err)
       ∧ err_line_number err = 1%nat
       ∧ err_kind err = MissingCategoryOrTags "A")
  ∧ parse_merchants partial_text "first_match" = Err (mkParseError EmptyRuleName 4)
  ∧ load_merchants_file partial_text "first_match" = Err (mkParseError EmptyRuleName 4).
Proof.
  split; [|split; [|split; [|split; [|split; [|split]]]]].
  - destruct (parse_fails_closed (EP:=fragment) (mkEngine [] [] [] "first_match")
                partial_text) as (H1 & _).
    destruct (H1 3%nat "[]" eq_refl (conj eq_refl eq_refl)) as (en' & err & Hp & Hb & _).
    exists en', err. split; [exact Hp|exact Hb].
  - destruct (parse_fails_closed (EP:=fragment) (mkEngine [] [] [] "first_match")
                unknown_key_text) as (_ & H2 & _).
    destruct (H2 3%nat 0%nat "[A]" "colour: red" "colour" "red" (UnknownProperty "colour"))
      as (en' & err & Hp & Hb & Hex).
    + lia.
    + reflexivity.
    + reflexivity.
    + reflexivity.
    + split; [reflexivity|]. split; [reflexivity|].
      exists "colour", " red". split; [reflexivity|]. split; reflexivity.
    + apply unknown_key. exact not_known_colour.
    + exists en', err. split; [exact Hp|]. split; [exact Hb|].
      eapply Hex. vm_compute. reflexivity.
  - destruct (parse_fails_closed (EP:=fragment) (mkEngine [] [] [] "first_match")
                bad_let_text) as (_ & H2 & _).
    destruct (H2 1%nat 0%nat "[A]" "let: total" "let" "total" InvalidLetSyntax)
      as (en' & err & Hp & Hb & Hex).
    + lia.
    + reflexivity.
    + reflexivity.
    + reflexivity.
    + split; [reflexivity|]. split; [reflexivity|].
      exists "let", " total". split; [reflexivity|]. split; reflexivity.
    + apply malformed_let. reflexivity.
    + exists en', err. split; [exact Hp|]. split; [exact Hb|].
      eapply Hex. vm_compute. reflexivity.
  - destruct (parse_fails_closed (EP:=fragment) (mkEngine [] [] [] "first_match")
                no_match_text) as (_ & _ & H3 & _).
    destruct (H3 [] "[A]" ["category: X"] []) as (en' & err & Hp & _ & Hex).
    + reflexivity.
    + reflexivity.
    + intros l Hl. apply list_elem_of_singleton in Hl. subst l. split.
      * intros Hh. discriminate Hh.
      * intros value (_ & _ & k & v & Hs & Hk & _).
        vm_compute in Hs. injection Hs as <- <-. discriminate Hk.
    + left. reflexivity.
    + exists en', err. split; [exact Hp|]. eapply Hex. vm_compute. reflexivity.
  - destruct (parse_fails_closed (EP:=fragment) (mkEngine [] [] [] "first_match")
                no_category_text) as (_ & _ & _ & H4 & _).
    destruct (H4 [] "[A]" ["match: true"] []) as (en' & err & Hp & _ & Hex).
    + reflexivity.
    + reflexivity.
    + intros l Hl. apply list_elem_of_singleton in Hl. subst l.
      intros Hh. discriminate Hh.
    + split; vm_compute; reflexivity.
    + left. reflexivity.
    + exists en', err. split; [exact Hp|]. eapply Hex. vm_compute. reflexivity.
  - destruct (parse_fails_closed (EP:=fragment) (mkEngine [] [] [] "first_match")
                empty_category_text) as (_ & _ & _ & H4 & _).
    destruct (H4 [] "[A]" ["match: true"; "category: X"; "category:"; "tags: ,"] [])
      as (en' & err & Hp & _ & Hex).
    + reflexivity.
    + reflexivity.
    + intros l Hl.
      apply elem_of_cons in Hl as [->|Hl]; [intros Hh; discriminate Hh|].
      apply elem_of_cons in Hl as [->|Hl]; [intros Hh; discriminate Hh|].
      apply elem_of_cons in Hl as [->|Hl]; [intros Hh; discriminate Hh|].
      apply elem_of_cons in Hl as [->|Hl]; [intros Hh; discriminate Hh|].
      apply elem_of_nil in Hl. destruct Hl.
    + split; vm_compute; reflexivity.
    + left. reflexivity.
    + exists en', err. split; [exact Hp|]. eapply Hex. vm_compute. reflexivity.
  - destruct (parse_fails_closed (EP:=fragment) (mkEngine [] [] [] "first_match")
                partial_text) as (_ & _ & _ & _ & _ & _ & H5 & _).
    eapply H5. vm_compute. reflexivity.
Defined.

(** C6, at the failing inputs: a rule with priority 0 is read back from
    the cache with priority 50, and a [transform:] directive is not
    written to the regenerated file; in both cases the regenerated file
    parses, and the engine parsed from it gives a different result. *)
Theorem regenerated_rules_differ :
  parse_merchants priority_zero_text "most_specific"
    = Ok (parsed priority_zero_text "most_specific")
  ∧ parse_merchants (regenerated priority_zero_text "most_specific") "most_specific"
    = Ok (reparsed priority_zero_text "most_specific")
  ∧ priority <$> rules (parsed priority_zero_text "most_specific") = [0; 10]
  ∧ priority <$> rules (reparsed priority_zero_text "most_specific") = [50; 10]
  ∧ res_category (engine_match (parsed priority_zero_text "most_specific") christmas ∅)
    = "Y"
  ∧ res_category (engine_match (reparsed priority_zero_text "most_specific") christmas ∅)
    = "X"
  ∧ parse_merchants transform_text "first_match" = Ok (parsed transform_text "first_match")
  ∧ parse_merchants (regenerated transform_text "first_match") "first_match"
    = Ok (reparsed transform_text "first_match")
  ∧ res_transform_description
      (engine_match (parsed transform_text "first_match") christmas ∅) = "Hello"
  ∧ res_transform_description
      (engine_match (reparsed transform_text "first_match") christmas ∅) = EmptyString.
Proof. vm_compute. repeat split; reflexivity. Qed.

(** Witness of C7: the first binding fails, the second is evaluated, and
    the rule matches. *)
Lemma failed_let_binding_witness :
  rule_scope let_rule christmas (globals_of let_engine christmas ∅) ∅ !! "missing"
  = Some (Atom ANone)
  ∧ let_rule ∈ res_all_matching_rules (engine_match let_engine christmas ∅).
Proof.
  destruct (failed_let_binding_is_none (EP:=fragment) let_engine let_rule christmas ∅
              [] [("ok", "true")] "missing" "undefined_name")
    as (_ & _ & _ & H4 & _ & H6).
  - reflexivity.
  - reflexivity.
  - split.
    + apply H4. intros b Hb. apply list_elem_of_singleton in Hb. subst b. discriminate.
    + apply H6.
      * apply list_elem_of_singleton. reflexivity.
      * reflexivity.
Defined.

(** Witness of C8: the holiday rule matched two distinct transactions of
    a batch of three, one of them twice in the batch. *)
Lemma cache_counts_witness :
  get_match_counts
    (rebuild EmptyString EmptyString EmptyString (tag_engine "first_match")
       [christmas; christmas; boxing_day] ∅) !! "Holiday" = Some 2%nat
  ∧ get_match_counts
      (rebuild EmptyString EmptyString EmptyString (tag_engine "first_match")
         [christmas; christmas; boxing_day] ∅) !! "Large" = Some 1%nat.
Proof.
  destruct (cache_counts_and_unused (EP:=fragment) EmptyString EmptyString EmptyString
              (tag_engine "first_match") [christmas; christmas; boxing_day] ∅)
    as (H1 & _).
  split.
  - etrans; [apply (H1 1%nat holiday_rule)|vm_compute; reflexivity].
    + reflexivity.
    + intros j r' Hj _. destruct j as [|[|j]]; [lia|lia|discriminate Hj].
  - etrans; [apply (H1 0%nat large_rule)|vm_compute; reflexivity].
    + reflexivity.
    + intros j r' Hj Hn. destruct j as [|[|j]]; [lia| |discriminate Hj].
      injection Hj as <-. discriminate Hn.
Defined.

(** C9, at the failing input: a dynamic tag that evaluates to a list with
    an item of one space adds the empty string to the tags of the result
    and to the keys of [tag_sources], in both modes. *)
Theorem list_item_gives_empty_tag :
  res_tags (engine_match (label_engine "first_match") christmas blank_labels)
  = {[ EmptyString; "food" ]}
  ∧ res_tags (engine_match (label_engine "most_specific") christmas blank_labels)
    = {[ EmptyString; "food" ]}
  ∧ dom (res_tag_sources (engine_match (label_engine "first_match") christmas blank_labels))
    = {[ EmptyString; "food" ]}
  ∧ ¬ normalized_tag EmptyString.
Proof.
  split; [vm_compute; reflexivity|]. split; [vm_compute; reflexivity|].
  split; [vm_compute; reflexivity|]. intros [H _]. by apply H.
Qed.

(** Witness of C10: in [most_specific] mode a tag-only rule sets the
    merchant of a result that is not matched. *)
Lemma merchant_is_always_set_witness :
  (∃ w, res_merchant_rule (engine_match (tag_engine "most_specific") christmas ∅) = Some w
        ∧ res_merchant (engine_match (tag_engine "most_specific") christmas ∅) = merchant w
        ∧ merchant w ≠ EmptyString
        ∧ first_maximal w (matching_of (tag_engine "most_specific") christmas ∅))
  ∧ res_merchant (engine_match (tag_engine "most_specific") christmas ∅) = "Large"
  ∧ res_matched (engine_match (tag_engine "most_specific") christmas ∅) = false
  ∧ merchant (MerchantRule_init "Large" "amount > 500" EmptyString EmptyString EmptyString
                {[ "large" ]} 50 1 [] [] EmptyString) = "Large".
Proof.
  destruct (merchant_is_always_set (EP:=fragment)) as (H1 & _ & H3).
  split; [|split; [|split]].
  - apply H3.
    + discriminate.
    + intros r Hr.
      apply elem_of_cons in Hr as [->|Hr]; [reflexivity|].
      apply elem_of_cons in Hr as [->|Hr]; [reflexivity|].
      apply elem_of_nil in Hr. destruct Hr.
    + discriminate.
  - reflexivity.
  - reflexivity.
  - apply (H1 "Large" "amount > 500" EmptyString EmptyString EmptyString
             {[ "large" ]} 50 1%nat [] [] EmptyString).
    + discriminate.
    + reflexivity.
Defined.

Lemma dup_rules_parse : parse_merchants dup_text "first_match" = Ok dup_engine.
Proof. reflexivity. Qed.

(** Counterexample to C8: of two rules named [Dup] the first matches the
    one transaction of the batch and is in its [all_matching_rules], yet
    [get_match_counts] maps the name to 0, the count of the second. *)
Lemma duplicate_name_count :
  rules dup_engine !! 0%nat = Some dup_first
  ∧ dup_first ∈ res_all_matching_rules (engine_match dup_engine christmas ∅)
  ∧ size (matched_ids dup_engine [christmas] ∅ dup_first) = 1%nat
  ∧ get_match_counts
      (rebuild EmptyString EmptyString EmptyString dup_engine [christmas] ∅)
    !! name dup_first = Some 0%nat.
Proof.
  split; [reflexivity|]. split; [|split; vm_compute; reflexivity].
  assert (res_all_matching_rules (engine_match dup_engine christmas ∅) = [dup_first]) as ->
    by (vm_compute; reflexivity).
  apply list_elem_of_singleton. reflexivity.
Qed.

(** Counterexample to C10: a rule with an empty name and no merchant has
    an empty merchant; it matches, but in [most_specific] mode the result
    has no merchant and no merchant rule. *)
Lemma nameless_rule_has_no_merchant :
  merchant nameless_rule = EmptyString
  ∧ matching_of nameless_engine christmas ∅ = [nameless_rule]
  ∧ res_matched (engine_match nameless_engine christmas ∅) = true
  ∧ res_merchant (engine_match nameless_engine christmas ∅) = EmptyString
  ∧ res_merchant_rule (engine_match nameless_engine christmas ∅) = None.
Proof. vm_compute. repeat split; reflexivity. Qed.

(** ** The scenarios of the cache and of the parser *)

Import CacheScenario.

Lemma shop_cache_rows : db_rules shop_cache = [general_row; large_row].
Proof. reflexivity. Qed.

Lemma shop_cache_ids : NoDup (row_id <$> db_rules shop_cache).
Proof. apply (bool_decide_unpack _). vm_compute. exact I. Qed.

Lemma overlap_category_rules (mode : string) :
  matching_category_rules (overlap_engine mode) christmas ∅ = [rule_a; rule_b].
Proof. reflexivity. Qed.

(** Witness of X4: the cache of the shop is valid for its two hashes. *)
Lemma cache_validity_witness :
  is_valid (Some shop_cache) (Some "r1") "d1" true = true.
Proof.
  destruct (cache_validity (EP:=fragment) "r1" "d1" "now" (shop_engine "first_match")
              [christmas; boxing_day] ∅) as (H & _).
  apply (proj2 (H (Some "r1") "d1" true)). split; [reflexivity|]. intros _. reflexivity.
Defined.

(** Witness of X7: the pattern in capitals finds the rule [Large]. *)
Lemma search_rules_spec_witness :
  search_rules shop_cache "LARGE"
  = List.filter
      (λ c, str_contains (str_lower (c_name c)) (str_lower "LARGE")
            || str_contains (str_lower (c_match_expr c)) (str_lower "LARGE"))
      (get_rules shop_cache).
Proof.
  destruct (search_rules_spec (EP:=fragment) shop_cache) as (H & _ & _).
  apply H; reflexivity.
Defined.

(** Witness of X8: the second rule of the shop, read back from the
    cache. *)
Lemma cached_rule_keeps_rule_witness :
  rules (shop_engine "first_match") !! 1%nat = Some large_rule
  ∧ ∃ c, get_rules shop_cache !! 1%nat = Some c
         ∧ c_name c = "Large" ∧ c_position c = 1%nat
         ∧ c_priority c = 50 ∧ c_merchant c = "Large".
Proof.
  split; [reflexivity|].
  destruct (cached_rule_keeps_rule (EP:=fragment) "r1" "d1" "now"
              (shop_engine "first_match") [christmas; boxing_day] ∅ 1%nat large_rule eq_refl)
    as (c & H1 & H2 & _ & _ & _ & H6 & _ & _ & _ & _ & _ & _ & H13 & H14).
  exists c. split; [exact H1|]. split; [exact H2|]. split; [exact H6|].
  split; [apply H13; discriminate|apply H14; reflexivity].
Defined.

(** Witness of X9: a name that no rule has, and the name of the first
    rule in capitals. *)
Lemma update_rule_spec_witness :
  update_rule shop_cache "missing" None None None None None = (shop_cache, None)
  ∧ ∃ row' c,
      update_rule shop_cache "GENERAL" (Some "Groceries") None (Some ["food"])
        (Some ["retail"]) None
      = (with_rows shop_cache ([] ++ row' :: [large_row]), Some c)
      ∧ c_name c = "General" ∧ c_category c = "Groceries" ∧ NoDup (c_tags c).
Proof.
  split.
  - destruct (update_rule_spec (EP:=fragment) shop_cache "missing" None None None None None)
      as [H1 _].
    apply H1. intros row Hrow. rewrite shop_cache_rows in Hrow.
    apply elem_of_cons in Hrow as [->|Hrow]; [discriminate|].
    apply elem_of_cons in Hrow as [->|Hrow]; [discriminate|].
    apply elem_of_nil in Hrow. destruct Hrow.
  - destruct (update_rule_spec (EP:=fragment) shop_cache "GENERAL" (Some "Groceries") None
                (Some ["food"]) (Some ["retail"]) None) as [_ H2].
    destruct (H2 [] general_row [large_row])
      as (row' & c & Hu & Hn & _ & _ & Hc & _ & _ & Hnd & _).
    + reflexivity.
    + exact shop_cache_ids.
    + reflexivity.
    + intros x Hx. apply elem_of_nil in Hx. destruct Hx.
    + exists row', c. split; [exact Hu|]. split; [exact Hn|]. split; [exact Hc|exact Hnd].
Defined.

(** Witness of X10: a new rule with priority 0 is read back last, with
    priority 50 and sorted tags. *)
Lemma add_rule_appends_witness :
  cafe_added.2.2 = "added"
  ∧ get_rules cafe_added.1
    = get_rules shop_cache
      ++ [mkCachedRule "Cafe" "false" "Food" EmptyString "Cafe" ["a"; "b"] 50 2 0 false [] []]
  ∧ c_tags cafe_added.2.1 = ["b"; "a"].
Proof.
  destruct (add_rule_appends (EP:=fragment) shop_cache "Cafe" "false" (Some "Food") None
              (Some ["b"; "a"]) (Some 0) None) as (H1 & H2 & _ & H4).
  - intros row Hrow. rewrite shop_cache_rows in Hrow.
    apply elem_of_cons in Hrow as [->|Hrow]; [split; discriminate|].
    apply elem_of_cons in Hrow as [->|Hrow]; [split; discriminate|].
    apply elem_of_nil in Hrow. destruct Hrow.
  - split; [exact H1|]. split; [exact H2|exact H4].
Defined.

(** Witness of X11: the name of the first row in capitals updates that
    row, which keeps its stored name. *)
Lemma add_or_update_existing_witness :
  ∃ row' c,
    general_updated = (with_rows shop_cache ([] ++ row' :: [large_row]), (c, "updated"))
    ∧ row_name row' = "General" ∧ c_name c = "General"
    ∧ row_match_expr row' = "month == 12".
Proof.
  destruct (add_or_update_existing (EP:=fragment) shop_cache "GENERAL" "month == 12"
              (Some "Seasonal") None None None None [] [large_row] general_row)
    as (row' & c & H1 & H2 & H3 & _ & _ & _ & _ & H8 & _).
  - reflexivity.
  - exact shop_cache_ids.
  - left. split; [reflexivity|]. intros x Hx. apply elem_of_nil in Hx. destruct Hx.
  - exists row', c. split; [exact H1|]. split; [exact H2|]. split; [exact H3|exact H8].
Defined.

(** Witness of X13: the first of the two overlapping rules is the
    matched rule in [first_match] mode. *)
Lemma matched_iff_category_rule_matches_witness :
  rule_a ∈ matching_category_rules (overlap_engine "first_match") christmas ∅
  ∧ res_category (engine_match (overlap_engine "first_match") christmas ∅) = category rule_a.
Proof.
  destruct (matched_iff_category_rule_matches (EP:=fragment) (overlap_engine "first_match")
              christmas ∅) as (_ & _ & H3 & _).
  apply (H3 rule_a). reflexivity.
Defined.

(** Witness of X14: of the two fields of the rule, the one that
    evaluates is in the result and the one that fails is not. *)
Lemma extra_fields_of_winner_witness :
  res_extra_fields (engine_match field_engine christmas ∅) !! "note"
  = Some (Atom (ABool true))
  ∧ res_extra_fields (engine_match field_engine christmas ∅) !! "bad" = None
  ∧ res_extra_fields (engine_match field_engine christmas ∅) !! "other" = None.
Proof.
  destruct (extra_fields_of_winner (EP:=fragment) field_engine christmas ∅) as [_ H].
  destruct (H field_rule) as [H1 H2].
  - reflexivity.
  - apply (bool_decide_unpack _). vm_compute. exact I.
  - split; [|split].
    + etrans; [apply (H1 "note" "month == 12")|reflexivity].
      apply elem_of_cons. left. reflexivity.
    + etrans; [apply (H1 "bad" "undefined_name")|reflexivity].
      apply elem_of_cons. right. apply elem_of_cons. left. reflexivity.
    + apply H2. intros Hin.
      apply elem_of_cons in Hin as [Hin|Hin]; [discriminate Hin|].
      apply elem_of_cons in Hin as [Hin|Hin]; [discriminate Hin|].
      apply elem_of_nil in Hin. destruct Hin.
Defined.

(** Witness of X15: in [most_specific] mode two rules without a category
    match, and one of them gives the merchant. *)
Lemma fields_resolved_one_by_one_witness :
  ∃ w, res_merchant_rule (engine_match (tag_engine "most_specific") christmas ∅) = Some w
       ∧ res_merchant (engine_match (tag_engine "most_specific") christmas ∅) = merchant w
       ∧ first_maximal w
           (List.filter has_merchant (matching_of (tag_engine "most_specific") christmas ∅)).
Proof.
  destruct (fields_resolved_one_by_one (EP:=fragment) (tag_engine "most_specific")
              christmas ∅) as [_ H].
  destruct (H ltac:(discriminate)) as (_ & H2 & _).
  apply H2. discriminate.
Defined.

(** Witness of X16: the rule with priority 100 wins before and after the
    two rules change places. *)
Lemma most_specific_ignores_order_witness :
  res_matched_rule
    (engine_match (with_rules (overlap_engine "most_specific") [rule_b; rule_a]) christmas ∅)
  = Some rule_b
  ∧ res_matched_rule (engine_match (overlap_engine "most_specific") christmas ∅)
    = Some rule_b.
Proof.
  destruct (most_specific_ignores_order (EP:=fragment) (overlap_engine "most_specific")
              christmas ∅ [rule_b; rule_a] rule_b) as (H1 & H2 & _).
  - discriminate.
  - apply perm_swap.
  - rewrite overlap_category_rules.
    apply elem_of_cons. right. apply elem_of_cons. left. reflexivity.
  - intros x Hx. rewrite overlap_category_rules in Hx.
    apply elem_of_cons in Hx as [->|Hx].
    + right. left. reflexivity.
    + apply elem_of_cons in Hx as [->|Hx]; [left; reflexivity|].
      apply elem_of_nil in Hx. destruct Hx.
  - split; [exact H1|exact H2].
Defined.

(** Witness of X17: an item between spaces, and a comma between
    parentheses. *)
Lemma parse_tags_spec_witness :
  ("b" ∈ parse_tags (str_join "," ["a"; " b "])
   ↔ ∃ s, s ∈ ["a"; " b "] ∧ "b" = str_strip s ∧ "b" ≠ EmptyString)
  ∧ parse_tags ("x" +:+ "(" +:+ "p,q" +:+ ")" +:+ EmptyString)
    = add_tag ("x" +:+ "(" +:+ "p,q" +:+ ")" +:+ EmptyString) ∅.
Proof.
  destruct parse_tags_spec as (_ & H2 & H3). split.
  - apply H2. repeat constructor.
  - apply H3; reflexivity.
Defined.

(** Witness of X18: a negative number between spaces. *)
Lemma py_int_reads_pretty_witness : py_int (" " +:+ pretty (-42) +:+ " ") = Some (-42).
Proof. apply py_int_reads_pretty; reflexivity. Defined.

(** Witness of X19: the rule that [parse] has stored before it raises on
    the empty name of line 4. *)
Lemma parsed_rules_are_well_formed_witness :
  well_formed_rule (mkMerchantRule "A" "true" "X" EmptyString "A" ∅ 50 1 [] [] EmptyString).
Proof.
  apply (parsed_rules_are_well_formed (EP:=fragment) (mkEngine [] [] [] "first_match")
           partial_text (parsed partial_text "first_match")
           (Some (mkParseError EmptyRuleName 4))).
  - reflexivity.
  - apply list_elem_of_singleton. reflexivity.
Defined.

(** Witness of X20: the two rules of the overlapping rule file. *)
Lemma parsed_rules_follow_headers_witness :
  StronglySorted lt (line_number <$> rules (overlap_engine "first_match"))
  ∧ ∀ rule, rule ∈ rules (overlap_engine "first_match") →
            header_at (str_split_lines overlap_text) (line_number rule) (name rule).
Proof.
  apply (parsed_rules_follow_headers (EP:=fragment) (mkEngine [] [] [] "first_match")
           overlap_text (overlap_engine "first_match") None).
  reflexivity.
Defined.

(** Witness of X21: an assignment in a rule block, and a priority that
    is no number. *)
Lemma stray_line_and_priority_raise_witness :
  (∃ en' err,
     parse (mkEngine [] [] [] "first_match") stray_assignment_text = (en', Some err)
     ∧ err = mkParseError UnexpectedContent 3)
  ∧ (∃ en' err,
       parse (mkEngine [] [] [] "first_match") bad_priority_text = (en', Some err)
       ∧ err = mkParseError (InvalidPriority "high") 4).
Proof.
  split.
  - destruct (stray_line_and_priority_raise (EP:=fragment)
                (mkEngine [] [] [] "first_match") stray_assignment_text) as [H _].
    destruct (H 2%nat 0%nat "[A]" "limit = 5") as (en' & err & Hp & _ & Hex).
    + lia.
    + reflexivity.
    + reflexivity.
    + reflexivity.
    + reflexivity.
    + reflexivity.
    + reflexivity.
    + exists en', err. split; [exact Hp|]. eapply Hex. vm_compute. reflexivity.
  - destruct (stray_line_and_priority_raise (EP:=fragment)
                (mkEngine [] [] [] "first_match") bad_priority_text) as [_ H].
    destruct (H 3%nat 0%nat "[A]" "priority: high" "high") as (en' & err & Hp & _ & Hex).
    + lia.
    + reflexivity.
    + reflexivity.
    + reflexivity.
    + split; [reflexivity|]. split; [reflexivity|].
      exists "priority", " high". split; [reflexivity|]. split; reflexivity.
    + reflexivity.
    + exists en', err. split; [exact Hp|]. eapply Hex. vm_compute. reflexivity.
Defined.

(** Witness of X22: a variable, a transform and the two overlapping
    rules, written by the cache and parsed again. *)
Lemma regenerated_file_parses_back_witness :
  ∃ e', parse_merchants
          (regenerate_rules_file (rebuild "r1" "d1" "now" preamble_engine [christmas] ∅))
          "most_specific" = Ok e'
        ∧ variables e' = [("big", "amount > 500")]
        ∧ transforms e' = [("field.note", "month == 12")]
        ∧ at_line 0 <$> rules e' = at_line 0 <$> [rule_a; rule_b].
Proof.
  destruct (regenerated_file_parses_back (EP:=fragment) "r1" "d1" "now" "most_specific"
              preamble_engine [christmas] ∅)
    as (e' & H1 & H2 & H3 & _ & H5).
  - vm_compute. reflexivity.
  - vm_compute. reflexivity.
  - exists e'. split; [exact H1|]. split; [exact H2|]. split; [exact H3|exact H5].
Defined.

(** Witness of X23: the rule [Large] of the tagging scenario is a
    tag-only rule. *)
Lemma parsed_rules_partition_witness :
  (large_rule ∈ categorization_rules (tag_engine "first_match")
   ∧ (large_rule ∉ tag_only_rules (tag_engine "first_match"))
   ∧ category large_rule ≠ EmptyString)
  ∨ (large_rule ∈ tag_only_rules (tag_engine "first_match")
     ∧ (large_rule ∉ categorization_rules (tag_engine "first_match"))
     ∧ category large_rule = EmptyString ∧ tags large_rule ≠ ∅).
Proof.
  apply (parsed_rules_partition (EP:=fragment) tag_rules_text "first_match"
           (tag_engine "first_match") large_rule).
  - reflexivity.
  - apply elem_of_cons. left. reflexivity.
Defined.

(** Witness of X24: a text of four lines without a header. *)
Lemma headerless_file_has_no_rules_witness :
  ∃ e, parse_merchants headerless_text "first_match" = Ok e ∧ rules e = []
       ∧ match_mode e = "first_match".
Proof.
  apply (headerless_file_has_no_rules (EP:=fragment) headerless_text "first_match").
  intros line Hline.
  change (str_split_lines headerless_text)
    with ["colour: red"; "limit = 5"; "# note"; "loose text"] in Hline.
  apply elem_of_cons in Hline as [->|Hline]; [reflexivity|].
  apply elem_of_cons in Hline as [->|Hline]; [reflexivity|].
  apply elem_of_cons in Hline as [->|Hline]; [reflexivity|].
  apply elem_of_cons in Hline as [->|Hline]; [reflexivity|].
  apply elem_of_nil in Hline. destruct Hline.
Defined.

(** Witness of X25: the first variable has a value, the second fails and
    is absent, and the result is the same with the two in the other
    order. *)
Lemma global_variables_evaluated_alone_witness :
  globals_of vars_engine christmas ∅ !! "big" = Some (Atom (ABool true))
  ∧ globals_of vars_engine christmas ∅ !! "gone" = None
  ∧ engine_match
      (mkEngine (rules vars_engine) [("gone", "undefined_name"); ("big", "amount > 500")]
         (transforms vars_engine) (match_mode vars_engine)) christmas ∅
    = engine_match vars_engine christmas ∅.
Proof.
  destruct (global_variables_evaluated_alone (EP:=fragment) vars_engine christmas ∅)
    as (H1 & _ & H3).
  - apply (bool_decide_unpack _). vm_compute. exact I.
  - split; [|split].
    + etrans; [apply (H1 "big" "amount > 500")|reflexivity].
      apply elem_of_cons. left. reflexivity.
    + etrans; [apply (H1 "gone" "undefined_name")|reflexivity].
      apply elem_of_cons. right. apply elem_of_cons. left. reflexivity.
    + apply (H3 [("gone", "undefined_name"); ("big", "amount > 500")]). apply perm_swap.
Defined.

(** Witness of X26: the rule with the transform of the quoted text. *)
Lemma transform_of_winner_witness :
  res_transform_description (engine_match (parsed transform_text "first_match") christmas ∅)
  = "Hello".
Proof.
  etrans.
  - apply (transform_of_winner (EP:=fragment) (parsed transform_text "first_match")
             christmas ∅
             (mkMerchantRule "A" "true" "X" EmptyString "A" ∅ 50 1 [] []
                (String double_quote ("Hello" +:+ String double_quote EmptyString)))).
    vm_compute. reflexivity.
  - vm_compute. reflexivity.
Defined.
